(** * bup: garbage collection sweep and the virtual file system

    A shallow embedding of [cmd/bloom-gc-cmd.py] and [lib/bup/vfs.py].
    Python integers are [Z], byte strings are [list ascii] or [string],
    dictionaries are [gmap]s, generators are finite traces of yields that
    end normally or with an exception, and exceptions are the [Err] branch
    of [result]. *)

From Stdlib Require Import ZArith List Bool Ascii String Lia.
From Stdlib Require Import Floats Uint63.
From stdpp Require Import base option list gmap strings.

Open Scope Z_scope.

(** ** Exceptions and results *)

(** The exceptions the two files raise or let through.  [StoreError] stands
    for whatever the object store raises; [RecursionLimit] is the
    interpreter's "maximum recursion depth exceeded" error, raised when the
    call depth granted to a recursive function is used up. *)
Inductive exn : Type :=
| NoSuchFile
| NotDir
| NotFile
| TooManySymlinks
| AssertionError
| UnboundLocalError
| IndexError
| StoreError
| AttributeError
| KeyboardInterrupt
| RecursionLimit.

Inductive result (A : Type) : Type :=
| Ok (a : A)
| Err (e : exn).

Arguments Ok {A} a.
Arguments Err {A} e.

(** ** The sweep and the driver of [bloom-gc-cmd.py] *)

Module Gc.

Definition sha := string.

(** What the sweep does to the outside world, in order. *)
Inductive event : Type :=
| EvWrite (s : sha)              (* writer.write(sha, type, data) *)
| EvPackFinish                   (* the writer finished a pack on disk *)
| EvUnlink (path : string)       (* os.unlink(path) *)
| EvClose.                       (* writer.close() returned *)

(** The hashes handed to [writer.write], in order. *)
Fixpoint writes_of (l : list event) : list sha :=
  match l with
  | [] => []
  | EvWrite s :: l' => s :: writes_of l'
  | _ :: l' => writes_of l'
  end.

(** The objects written to a pack that is not finished yet. *)
Fixpoint pending_from (cur : list sha) (l : list event) : list sha :=
  match l with
  | [] => cur
  | EvWrite s :: l' => pending_from (cur ++ [s]) l'
  | EvPackFinish :: l' => pending_from [] l'
  | _ :: l' => pending_from cur l'
  end.

Definition pending (l : list event) : list sha := pending_from [] l.

Definition is_unlink (e : event) : bool :=
  match e with EvUnlink _ => true | _ => false end.

(** [os.unlink] is timely in a log when it directly follows the end of a
    pack, the writer's close, or another such unlink, and nothing but
    unlinks follows the close.  [allowed] says whether an unlink may come
    next, [closed] whether the writer is closed. *)
Fixpoint timely_from (allowed closed : bool) (l : list event) : bool :=
  match l with
  | [] => true
  | EvWrite _ :: l' => negb closed && timely_from false closed l'
  | EvPackFinish :: l' => negb closed && timely_from true closed l'
  | EvUnlink _ :: l' => allowed && timely_from allowed closed l'
  | EvClose :: l' => negb closed && timely_from true true l'
  end.

Definition timely (l : list event) : bool := timely_from false false l.

(** Where the timely automaton stands after a log. *)
Fixpoint allowed_end (allowed : bool) (l : list event) : bool :=
  match l with
  | [] => allowed
  | EvWrite _ :: l' => allowed_end false l'
  | EvPackFinish :: l' => allowed_end true l'
  | EvUnlink _ :: l' => allowed_end allowed l'
  | EvClose :: l' => allowed_end true l'
  end.

Fixpoint closed_end (closed : bool) (l : list event) : bool :=
  match l with
  | [] => closed
  | EvClose :: l' => closed_end true l'
  | _ :: l' => closed_end closed l'
  end.

(** [P l1 p] holds at every [os.unlink(p)] of the log, [l1] being the
    events before it. *)
Definition at_unlinks (P : list event -> string -> Prop) (l : list event) : Prop :=
  forall l1 p l2, l = l1 ++ EvUnlink p :: l2 -> P l1 p.

(** The comparison of the spec, [live / n > (100 - threshold) / 100], in
    exact arithmetic. *)
Definition keeps_exact (idx_live_count len_idx threshold : Z) : bool :=
  (100 - threshold) * len_idx <? 100 * idx_live_count.

(** [git.open_idx(idx_name)]: the index's name and its [shatable], one hash
    per object of the pack. *)
Record PackIdx : Type := mkIdx {
  idx_name : string;
  shatable : list sha
}.

(** [idx_name[:-3] + 'pack'] *)
Definition pack_name (idx : string) : string :=
  (String.substring 0 (String.length idx - 3) idx ++ "pack")%string.

(** The two files of a pack. *)
Definition paths (idx : PackIdx) : list string :=
  [idx_name idx; pack_name (idx_name idx)].

(** [ns.stale_files], the pack writer's open pack, and the log of events. *)
Record state : Type := mkState {
  stale_files : list string;
  open_pack : list sha;
  log : list event
}.

Definition emit (e : event) (st : state) : state :=
  mkState (stale_files st) (open_pack st) (log st ++ [e]).

(** [remove_stale_files]: unlink every buffered file, then empty the buffer. *)
Definition remove_stale_files (st : state) : state :=
  mkState [] (open_pack st) (log st ++ map EvUnlink (stale_files st)).

(** Python's int to float conversion, for integers below [2^63] in absolute
    value, and the two quotients of lines 96-97 in binary64 arithmetic. *)
Definition float_of_int (z : Z) : float :=
  if z <? 0 then PrimFloat.opp (PrimFloat.of_uint63 (Uint63.of_Z (- z)))
  else PrimFloat.of_uint63 (Uint63.of_Z z).

Definition live_frac (idx_live_count len_idx : Z) : float :=
  (float_of_int idx_live_count / float_of_int len_idx)%float.

Definition keep_bound (threshold : Z) : float :=
  (float_of_int (100 - threshold) / float_of_int 100)%float.

(** [live_frac > ((100 - opt.threshold) / 100.0)] *)
Definition keeps (idx_live_count len_idx threshold : Z) : bool :=
  PrimFloat.ltb (keep_bound threshold) (live_frac idx_live_count len_idx).

Section WithRepo.

(** [live_objects.exists(sha)] of the BloomSet. *)
Variable live_exists : sha -> bool.

(** [cat_pipe.get(sha.encode('hex'))]: [true] when the object can be read,
    [false] when reading it raises. *)
Variable cat_ok : sha -> bool.

(** Modelled from the spec: the pack writer of [git.py] ("write(hash, kind,
    bytes); close() finalizes; on_pack_finish callback fires whenever a pack
    rolls over or on final close").  [pack_full] is the writer's own decision
    that the open pack, with the object just written, has reached its size
    limit. *)
Variable pack_full : list sha -> bool.

Variable threshold : Z.

(** The writer finishes the open pack and then calls [on_pack_finish], which
    the sweep set to [remove_stale_files]. *)
Definition finish_pack (st : state) : state :=
  remove_stale_files (emit EvPackFinish (mkState (stale_files st) [] (log st))).

Definition writer_write (s : sha) (st : state) : state :=
  let st1 := emit (EvWrite s) (mkState (stale_files st) (open_pack st ++ [s]) (log st)) in
  if pack_full (open_pack st1) then finish_pack st1 else st1.

(** [writer.close()]: a pack is finished only when one is open. *)
Definition writer_close (st : state) : state :=
  let st1 := match open_pack st with
             | [] => st
             | _ :: _ => finish_pack st
             end in
  emit EvClose st1.

(** Lines 81-85: count the index entries the BloomSet reports. *)
Definition count_live (idx : PackIdx) : Z :=
  Z.of_nat (length (filter (fun s => live_exists s = true) (shatable idx))).

Definition mark_stale (idx : PackIdx) (st : state) : state :=
  mkState (stale_files st ++ [idx_name idx; pack_name (idx_name idx)])
          (open_pack st) (log st).

(** Lines 106-111: copy the live entries into the writer. *)
Fixpoint rewrite_entries (shas : list sha) (st : state) : result state * state :=
  match shas with
  | [] => (Ok st, st)
  | s :: rest =>
      if live_exists s then
        if cat_ok s then rewrite_entries rest (writer_write s st)
        else (Err StoreError, st)
      else rewrite_entries rest st
  end.

(** The body of the loop over the pack indexes (lines 79-114).  The second
    component is the state reached, also when an exception escapes. *)
Definition sweep_pack (idx : PackIdx) (st : state) : result state * state :=
  let idx_live_count := count_live idx in
  if idx_live_count =? 0 then
    let st' := mark_stale idx st in (Ok st', st')
  else if keeps idx_live_count (Z.of_nat (length (shatable idx))) threshold then
    (Ok st, st)
  else
    match rewrite_entries (shatable idx) st with
    | (Ok st1, _) => let st' := mark_stale idx st1 in (Ok st', st')
    | (Err e, st1) => (Err e, st1)
    end.

Fixpoint sweep_loop (idxs : list PackIdx) (st : state) : result state * state :=
  match idxs with
  | [] => (Ok st, st)
  | idx :: rest =>
      match sweep_pack idx st with
      | (Ok st1, _) => sweep_loop rest st1
      | (Err e, st1) => (Err e, st1)
      end
  end.

(** [sweep]: the loop, then [writer.close()] and a last
    [remove_stale_files(None)]. *)
Definition sweep (idxs : list PackIdx) : result state * state :=
  match sweep_loop idxs (mkState [] [] []) with
  | (Ok st1, _) =>
      let st' := remove_stale_files (writer_close st1) in (Ok st', st')
  | (Err e, st1) => (Err e, st1)
  end.

(** Every live object of the pack that owns [p] has been written. *)
Definition owners_written (all : list PackIdx) (l : list event) (p : string) : Prop :=
  forall idx s, In idx all -> In p (paths idx) ->
                In s (shatable idx) -> live_exists s = true ->
                In s (writes_of l).

(** No object sits in an unfinished pack. *)
Definition nothing_pending (l : list event) (p : string) : Prop :=
  pending l = [].

(** No two packs share a file name. *)
Definition paths_disjoint (all : list PackIdx) : Prop :=
  forall i j p, In i all -> In j all ->
                In p (paths i) -> In p (paths j) -> i = j.

(** What every step of the sweep keeps true. *)
Record sweep_inv (all : list PackIdx) (st : state) : Prop := {
  inv_timely : timely (log st) = true;
  inv_open : closed_end false (log st) = false;
  inv_pack : open_pack st = pending (log st);
  inv_pending : at_unlinks nothing_pending (log st);
  inv_written : paths_disjoint all -> at_unlinks (owners_written all) (log st);
  inv_stale : paths_disjoint all ->
              forall p, In p (stale_files st) -> owners_written all (log st) p
}.

(** *** The driver (lines 156-186) *)

(** Whether the temporary [tmp-gc-*.bloom] file exists in the pack directory
    and whether the BloomSet on it is open. *)
Record world : Type := mkWorld {
  tmp_bloom_exists : bool;
  bloom_open : bool
}.

(** [count_objects(git.repo('objects/pack'))] *)
Variable existing_count : Z.

(** How the calls into other modules end: [bloom.create], the walk over all
    refs with [live_objs.add], the clearing of midx files, bloom filter and
    reflog, and [live_objects.close()]. *)
Variable create_result : result unit.
Variable walk_result : result unit.
Variable clear_result : result unit.
Variable close_result : result unit.

(** [find_live_objects]: no exception is caught here. *)
Definition find_live_objects (w : world) : result unit * world :=
  let w1 := mkWorld true (bloom_open w) in          (* tempfile.mkstemp *)
  match create_result with
  | Err e => (Err e, w1)
  | Ok _ =>
      let w2 := mkWorld true true in                (* bloom.create *)
      match walk_result with
      | Err e => (Err e, w2)
      | Ok _ => (Ok tt, w2)
      end
  end.

(** The body of the [try] (lines 170-179). *)
Definition protected_body (idxs : list PackIdx) : result unit :=
  match clear_result with
  | Err e => Err e
  | Ok _ =>
      match fst (sweep idxs) with
      | Ok _ => Ok tt
      | Err e => Err e
      end
  end.

(** The [finally] clause: [live_objects.close()], then [os.unlink]. *)
Definition cleanup (w : world) : result unit * world :=
  match close_result with
  | Err e => (Err e, w)
  | Ok _ => (Ok tt, mkWorld false false)
  end.

Definition main (idxs : list PackIdx) : result unit * world :=
  let w0 := mkWorld false false in
  if existing_count =? 0 then (Ok tt, w0)
  else
    match find_live_objects w0 with
    | (Err e, w1) => (Err e, w1)
    | (Ok _, w1) =>
        let r := protected_body idxs in
        match cleanup w1 with
        | (Err e, w2) => (Err e, w2)
        | (Ok _, w2) => (r, w2)
        end
    end.

End WithRepo.

End Gc.

(** ** Chunked files and their readers ([vfs.py], lines 38-160) *)

Module Vfs.

(** A Python [str] of bytes, and a 20-byte object id. *)
Definition bytes := list ascii.
Definition hash := string.

(** [s[k:]] and [s[:k]]: a negative [k] counts from the end. *)
Definition slice_from (k : Z) (s : bytes) : bytes :=
  if 0 <=? k then drop (Z.to_nat k) s
  else drop (Z.to_nat (Z.of_nat (length s) + k)) s.

Definition slice_to (k : Z) (s : bytes) : bytes :=
  if 0 <=? k then take (Z.to_nat k) s
  else take (Z.to_nat (Z.of_nat (length s) + k)) s.

Definition len (s : bytes) : Z := Z.of_nat (length s).

(** One row of a decoded split tree: [(int(name,16), S_ISDIR(mode), sha)]. *)
Definition entry : Type := Z * bool * hash.

(** Python's order on such tuples: by offset, then [False < True], then the
    hashes as byte strings. *)
Definition entry_leb (x y : entry) : bool :=
  let '(o1, d1, s1) := x in
  let '(o2, d2, s2) := y in
  if o1 <? o2 then true
  else if o2 <? o1 then false
  else if negb d1 && d2 then true
  else if d1 && negb d2 then false
  else String.leb s1 s2.

(** [tree == list(sorted(tree))] *)
Fixpoint is_sorted (tree : list entry) : bool :=
  match tree with
  | [] => true
  | x :: rest =>
      match rest with
      | [] => true
      | y :: _ => entry_leb x y && is_sorted rest
      end
  end.

(** What a generator does when it is run to its end: the values it yields,
    and then [StopIteration] ([GDone]) or another exception.  A reader takes
    the values one at a time and meets the exception only when it gets
    there. *)
Inductive gen : Type :=
| GDone
| GYield (b : bytes) (rest : gen)
| GRaise (e : exn).

(** The body of a generator, followed by more of it. *)
Fixpoint gen_then (g1 g2 : gen) : gen :=
  match g1 with
  | GDone => g2
  | GYield b rest => GYield b (gen_then rest g2)
  | GRaise e => GRaise e
  end.

Fixpoint gen_len (g : gen) : nat :=
  match g with
  | GYield _ rest => S (gen_len rest)
  | _ => 0%nat
  end.

(** Everything the generator yields, joined; [Err] if it raises. *)
Fixpoint gen_bytes (g : gen) : result bytes :=
  match g with
  | GDone => Ok []
  | GYield b rest =>
      match gen_bytes rest with
      | Ok bs => Ok (b ++ bs)
      | Err e => Err e
      end
  | GRaise e => Err e
  end.

(** The first loop of [_chunkiter]: the index [i] at which
    [i+1 >= len(tree) or tree[i+1][0] > startofs] first holds; [None] when
    the tree is empty and [i] is never bound. *)
Fixpoint find_first (tree : list entry) (startofs : Z) (i : nat) : option nat :=
  match tree with
  | [] => None
  | _ :: rest =>
      match rest with
      | [] => Some i
      | (ofs', _, _) :: _ =>
          if ofs' >? startofs then Some i
          else find_first rest startofs (S i)
      end
  end.

Section WithStore.

(** [''.join(cp(repo_dir).join(hash.encode('hex')))]: the bytes of a blob,
    or the exception the object store raises. *)
Variable join : hash -> result bytes.

(** The list [_tree_decode] builds from [_treeget(hash)], before its
    assertion: the rows of the tree object, or the exception raised when the
    object is missing, is no tree, or has a name that is no hexadecimal
    number. *)
Variable tree_entries : hash -> result (list entry).

(** The call depth the interpreter grants. *)
Variable depth_limit : nat.

Definition _tree_decode (h : hash) : result (list entry) :=
  match tree_entries h with
  | Err e => Err e
  | Ok tree => if is_sorted tree then Ok tree else Err AssertionError
  end.

(** [sum(len(b) for b in cp(repo_dir).join(hash.encode('hex')))] *)
Definition _chunk_len (h : hash) : result Z :=
  match join h with
  | Ok b => Ok (len b)
  | Err e => Err e
  end.

Fixpoint _last_chunk_info (depth : nat) (h : hash) : result (Z * Z) :=
  match depth with
  | O => Err RecursionLimit
  | S depth' =>
      match _tree_decode h with
      | Err e => Err e
      | Ok tree =>
          match last tree with
          | None => Err AssertionError                  (* assert(tree) *)
          | Some (ofs, isdir, sha) =>
              if isdir then
                match _last_chunk_info depth' sha with
                | Err e => Err e
                | Ok (subofs, sublen) => Ok (ofs + subofs, sublen)
                end
              else
                match _chunk_len sha with
                | Err e => Err e
                | Ok n => Ok (ofs, n)
                end
          end
      end
  end.

Definition _total_size (h : hash) : result Z :=
  match _last_chunk_info depth_limit h with
  | Err e => Err e
  | Ok (lastofs, lastsize) => Ok (lastofs + lastsize)
  end.

(** The second loop of [_chunkiter], over [tree[first:]]; [rec] is the
    recursive call. *)
Fixpoint chunk_loop (rec : hash -> Z -> gen) (tree : list entry) (startofs : Z) : gen :=
  match tree with
  | [] => GDone
  | (ofs, isdir, sha) :: rest =>
      let skipmore := startofs - ofs in
      let skipmore := if skipmore <? 0 then 0 else skipmore in
      let here :=
        if isdir then rec sha skipmore
        else
          match join sha with
          | Ok b => GYield (slice_from skipmore b) GDone
          | Err e => GRaise e
          end in
      gen_then here (chunk_loop rec rest startofs)
  end.

Fixpoint _chunkiter (depth : nat) (h : hash) (startofs : Z) : gen :=
  match depth with
  | O => GRaise RecursionLimit
  | S depth' =>
      if startofs <? 0 then GRaise AssertionError
      else
        match _tree_decode h with
        | Err e => GRaise e
        | Ok tree =>
            match find_first tree startofs 0 with
            | None => GRaise UnboundLocalError
            | Some first =>
                chunk_loop (_chunkiter depth') (drop first tree) startofs
            end
        end
  end.

(** *** [_ChunkReader] *)

Record ChunkReader : Type := mkChunkReader {
  cr_it : option gen;
  cr_blob : option bytes;
  cr_ofs : Z
}.

(** [if self.blob]: neither [None] nor the empty string. *)
Definition truthy (b : option bytes) : bool :=
  match b with
  | Some (_ :: _) => true
  | _ => false
  end.

Definition blob_or_empty (b : option bytes) : bytes :=
  match b with
  | Some s => s
  | None => []
  end.

Definition ChunkReader_init (h : hash) (isdir : bool) (startofs : Z)
  : result ChunkReader :=
  if isdir then
    Ok (mkChunkReader (Some (_chunkiter depth_limit h startofs)) None startofs)
  else
    match join h with
    | Err e => Err e
    | Ok b => Ok (mkChunkReader None (Some (slice_from startofs b)) startofs)
    end.

(** [if self.it and not self.blob:] take the generator's next value, or
    forget the generator at [StopIteration]. *)
Definition pull (it : option gen) (blob : option bytes)
  : result (option gen * option bytes) :=
  match it with
  | Some g =>
      if truthy blob then Ok (it, blob)
      else
        match g with
        | GYield b rest => Ok (Some rest, Some b)
        | GDone => Ok (None, blob)
        | GRaise e => Err e
        end
  | None => Ok (it, blob)
  end.

(** [if self.blob:] move [want = size - len(out)] bytes of it to [out]. *)
Definition take_wanted (size : Z) (out : bytes) (blob : option bytes)
  : bytes * option bytes :=
  if truthy blob then
    let want := size - len out in
    (out ++ slice_to want (blob_or_empty blob),
     Some (slice_from want (blob_or_empty blob)))
  else (out, blob).

(** The [while] loop of [_ChunkReader.next]; [None] when [fuel] iterations
    did not reach its end. *)
Fixpoint next_loop (fuel : nat) (size : Z) (it : option gen) (blob : option bytes)
         (out : bytes) : option (result (bytes * option gen * option bytes)) :=
  if negb (len out <? size) then Some (Ok (out, it, blob))
  else
    match fuel with
    | O => None
    | S fuel' =>
        match pull it blob with
        | Err e => Some (Err e)
        | Ok (it1, blob1) =>
            let '(out2, blob2) := take_wanted size out blob1 in
            (* if not self.it: break *)
            match it1 with
            | None => Some (Ok (out2, it1, blob2))
            | Some _ => next_loop fuel' size it1 blob2 out2
            end
        end
    end.

(** What bounds the iterations still to come. *)
Definition loop_measure (it : option gen) (blob : option bytes) : nat :=
  match it with
  | Some g => (2 * gen_len g + 2 + (if truthy blob then 1 else 0))%nat
  | None => 0%nat
  end.

(** The bytes a reader's generator has still to yield. *)
Definition gen_opt_bytes (it : option gen) : result bytes :=
  match it with
  | Some g => gen_bytes g
  | None => Ok []
  end.

(** Enough iterations for any state of the reader. *)
Definition loop_fuel (it : option gen) : nat :=
  match it with
  | Some g => (2 * gen_len g + 4)%nat
  | None => 1%nat
  end.

(** [_ChunkReader.next(size)].  The loop is run for [loop_fuel] iterations,
    within which it always ends, so the first case below never arises. *)
Definition ChunkReader_next (r : ChunkReader) (size : Z)
  : result (bytes * ChunkReader) :=
  match next_loop (loop_fuel (cr_it r)) size (cr_it r) (cr_blob r) [] with
  | None => Err RecursionLimit
  | Some (Err e) => Err e
  | Some (Ok (out, it, blob)) =>
      Ok (out, mkChunkReader it blob (cr_ofs r + len out))
  end.

(** The bytes a reader will still return: the blob, then what the
    generator yields. *)
Definition cr_rest (r : ChunkReader) : result bytes :=
  match gen_opt_bytes (cr_it r) with
  | Ok rg => Ok (blob_or_empty (cr_blob r) ++ rg)
  | Err e => Err e
  end.

(** *** [_FileReader] *)

Record FileReader : Type := mkFileReader {
  fr_hash : hash;
  fr_ofs : Z;
  fr_size : Z;
  fr_isdir : bool;
  fr_reader : option ChunkReader
}.

Definition FileReader_init (h : hash) (size : Z) (isdir : bool) : FileReader :=
  mkFileReader h 0 size isdir None.

Definition set_ofs (r : FileReader) (ofs : Z) : FileReader :=
  mkFileReader (fr_hash r) ofs (fr_size r) (fr_isdir r) (fr_reader r).

Definition set_reader (r : FileReader) (cr : option ChunkReader) : FileReader :=
  mkFileReader (fr_hash r) (fr_ofs r) (fr_size r) (fr_isdir r) cr.

Definition seek (r : FileReader) (ofs : Z) : FileReader :=
  if ofs >? fr_size r then set_ofs r (fr_size r)
  else if ofs <? 0 then set_ofs r 0
  else set_ofs r ofs.

Definition tell (r : FileReader) : Z := fr_ofs r.

(** [read(count)]: the bytes or the exception, and the reader afterwards. *)
Definition read (r : FileReader) (count : Z) : result bytes * FileReader :=
  let count := if count <? 0 then fr_size r - fr_ofs r else count in
  (* if not self.reader or self.reader.ofs != self.ofs: a new _ChunkReader *)
  let made :=
    match fr_reader r with
    | Some cr =>
        if cr_ofs cr =? fr_ofs r then Ok cr
        else ChunkReader_init (fr_hash r) (fr_isdir r) (fr_ofs r)
    | None => ChunkReader_init (fr_hash r) (fr_isdir r) (fr_ofs r)
    end in
  match made with
  | Err e => (Err e, r)
  | Ok cr =>
      match ChunkReader_next cr count with
      | Err e => (Err e, set_reader r None)
      | Ok (buf, cr') =>
          (Ok buf, set_ofs (set_reader r (Some cr')) (fr_ofs r + len buf))
      end
  end.

(** *** [File] and its cached reader *)

Inductive bupmode : Type := BUP_NORMAL | BUP_CHUNKED.

Definition is_chunked (m : bupmode) : bool :=
  match m with BUP_CHUNKED => true | BUP_NORMAL => false end.

(** The [_FileReader] objects alive; a reference to one is its index. *)
Abbreviation heap := (list FileReader).

(** The fields of a [File] that [open] and [size] use.  [f_filereader]
    refers to the cached [_FileReader] object. *)
Record File : Type := mkFile {
  f_hash : hash;
  f_bupmode : bupmode;
  f_cached_size : option Z;
  f_filereader : option nat
}.

(** [File.size()]: the size, and the file with the size cached. *)
Definition File_size (f : File) : result Z * File :=
  match f_cached_size f with
  | Some s => (Ok s, f)
  | None =>
      let computed :=
        if is_chunked (f_bupmode f) then _total_size (f_hash f)
        else _chunk_len (f_hash f) in
      match computed with
      | Ok s => (Ok s, mkFile (f_hash f) (f_bupmode f) (Some s) (f_filereader f))
      | Err e => (Err e, f)
      end
  end.

(** [File.open()]: the reference returned, the heap and the file afterwards. *)
Definition File_open (hp : heap) (f : File) : result nat * heap * File :=
  let made :=
    match f_filereader f with
    | Some ref => (Ok ref, hp, f)
    | None =>
        match File_size f with
        | (Err e, f1) => (Err e, hp, f1)
        | (Ok s, f1) =>
            let ref := length hp in
            (Ok ref,
             hp ++ [FileReader_init (f_hash f) s (is_chunked (f_bupmode f))],
             mkFile (f_hash f1) (f_bupmode f1) (f_cached_size f1) (Some ref))
        end
    end in
  match made with
  | (Err e, hp1, f1) => (Err e, hp1, f1)
  | (Ok ref, hp1, f1) =>
      match hp1 !! ref with
      | Some r => (Ok ref, <[ref := seek r 0]> hp1, f1)
      | None => (Err AssertionError, hp1, f1)
      end
  end.

(** A method call on the reader object behind a reference. *)
Definition seek_at (hp : heap) (ref : nat) (ofs : Z) : heap :=
  match hp !! ref with
  | Some r => <[ref := seek r ofs]> hp
  | None => hp
  end.

Definition read_at (hp : heap) (ref : nat) (count : Z) : result bytes * heap :=
  match hp !! ref with
  | Some r => let '(res, r') := read r count in (res, <[ref := r']> hp)
  | None => (Err AssertionError, hp)
  end.

Definition tell_at (hp : heap) (ref : nat) : option Z :=
  match hp !! ref with
  | Some r => Some (tell r)
  | None => None
  end.

(** The states a reader of the object [h] can be in: as constructed, and
    after any [seek] or [read]. *)
Inductive reachable (h : hash) (size : Z) (isdir : bool) : FileReader -> Prop :=
| reach_init : reachable h size isdir (FileReader_init h size isdir)
| reach_seek r ofs :
    reachable h size isdir r -> reachable h size isdir (seek r ofs)
| reach_read r count :
    reachable h size isdir r -> reachable h size isdir (snd (read r count)).

(** Calls made through a reference to a reader. *)
Inductive op : Type :=
| OpSeek (ofs : Z)
| OpRead (count : Z).

Fixpoint run_ops (hp : heap) (ref : nat) (ops : list op) : heap :=
  match ops with
  | [] => hp
  | OpSeek ofs :: ops' => run_ops (seek_at hp ref ofs) ref ops'
  | OpRead count :: ops' => run_ops (snd (read_at hp ref count)) ref ops'
  end.

(** A [File] of the object [h]: its cached size, if any, is [size], and its
    cached reader, if any, is alive and in a state it can reach. *)
Definition file_state_ok (h : hash) (mode : bupmode) (size : Z)
           (hp : heap) (f : File) : Prop :=
  f_hash f = h
  /\ f_bupmode f = mode
  /\ (forall s, f_cached_size f = Some s -> s = size)
  /\ (forall ref, f_filereader f = Some ref ->
        exists r, hp !! ref = Some r /\ reachable h size (is_chunked mode) r).

(** The cached reader of a [File], if any, is alive, and its size is no
    negative number. *)
Definition cache_ok (hp : heap) (f : File) : Prop :=
  forall ref, f_filereader f = Some ref ->
    exists r, hp !! ref = Some r /\ 0 <= fr_size r.

(** What one row contributes when [skip] bytes of it are to be left out. *)
Definition entry_reads (rec : hash -> Z -> gen) (e : entry) (p : bytes) : Prop :=
  forall skip, 0 <= skip ->
    gen_bytes
      (if snd (fst e) then rec (snd e) skip
       else match join (snd e) with
            | Ok b => GYield (slice_from skip b) GDone
            | Err e => GRaise e
            end)
    = Ok (drop (Z.to_nat skip) p).

(** What [seek] and [read] keep true of a reader of the file [h] with the
    content [content]. *)
Record reader_ok (h : hash) (isdir : bool) (content : bytes) (r : FileReader)
  : Prop := {
  ok_hash : fr_hash r = h;
  ok_isdir : fr_isdir r = isdir;
  ok_size : fr_size r = len content;
  ok_ofs : 0 <= fr_ofs r <= len content;
  ok_reader : forall cr, fr_reader r = Some cr ->
                0 <= cr_ofs cr
                /\ cr_rest cr = Ok (drop (Z.to_nat (cr_ofs cr)) content)
}.

(** *** Well-formed split trees *)

(** Each row's offset is the number of bytes before it. *)
Fixpoint offsets_from (base : Z) (tree : list entry) (parts : list bytes) : Prop :=
  match tree, parts with
  | [], [] => True
  | (ofs, _, _) :: tree', p :: parts' =>
      ofs = base /\ offsets_from (base + len p) tree' parts'
  | _, _ => False
  end.

Fixpoint strictly_increasing (tree : list entry) : Prop :=
  match tree with
  | [] => True
  | (o1, _, _) :: rest =>
      match rest with
      | [] => True
      | (o2, _, _) :: _ => o1 < o2 /\ strictly_increasing rest
      end
  end.

(** [holds depth h isdir data]: the object [h], read as a blob
    ([isdir = false]) or as a split tree nested at most [depth] deep, is a
    file with the content [data]: the rows of a tree are strictly ordered by
    offset, the first is at 0, each row's offset counts the bytes of the rows
    before it, and [data] is the rows' contents in order. *)
Fixpoint holds (depth : nat) (h : hash) (isdir : bool) (data : bytes) : Prop :=
  if isdir then
    match depth with
    | O => False
    | S depth' =>
        exists tree parts,
          tree_entries h = Ok tree
          /\ tree <> []
          /\ strictly_increasing tree
          /\ offsets_from 0 tree parts
          /\ Forall2 (fun e p => holds depth' (snd e) (snd (fst e)) p) tree parts
          /\ data = concat parts
    end
  else join h = Ok data.

End WithStore.

End Vfs.

(** ** Nodes and path resolution ([vfs.py], lines 163-400) *)

Module Resolve.

(** The classes of [Node] objects. *)
Inductive class : Type :=
| RefList | CommitDir | CommitList | TagDir | BranchList
| Dir | File | Symlink | FakeSymlink.

(** [isinstance(n, Symlink)]: [FakeSymlink] is a subclass. *)
Definition is_symlink (c : class) : bool :=
  match c with
  | Symlink | FakeSymlink => true
  | _ => false
  end.

Definition is_commit_list (c : class) : bool :=
  match c with
  | CommitList => true
  | _ => false
  end.

(** Node objects are known by their identity. *)
Definition nid := nat.

(** What resolution reads of a node: [self.parent], [self.name], its class,
    the dictionary [self._subs] once [_mksubs] has run, and what
    [readlink()] returns or raises. *)
Record node : Type := mkNode {
  parent : option nid;
  name : string;
  cls : class;
  subs : gmap string nid;
  readlink : result string
}.

(** [re.split(r'/+', path)]: [cur] is the segment being read, reversed, and
    [in_run] says that the character before was a slash. *)
Fixpoint split_slashes (path : list ascii) (cur : list ascii) (in_run : bool)
  : list string :=
  match path with
  | [] => [string_of_list_ascii (rev cur)]
  | c :: rest =>
      if Ascii.eqb c "/" then
        if in_run then split_slashes rest cur true
        else string_of_list_ascii (rev cur) :: split_slashes rest [] true
      else split_slashes rest (c :: cur) false
  end.

Definition re_split (path : string) : list string :=
  split_slashes (list_ascii_of_string path) [] false.

(** [if not parts[-1]: parts[-1] = '.'] *)
Fixpoint dot_for_empty_last (parts : list string) : list string :=
  match parts with
  | [] => []
  | [p] => [if String.eqb p "" then "." else p]
  | p :: rest => p :: dot_for_empty_last rest
  end.

(** The parts [lresolve] walks for a path whose leading slash, if any, is
    already cut off. *)
Definition path_parts (path : string) : list string :=
  dot_for_empty_last (re_split (if String.eqb path "" then "." else path)).

Section WithTree.

(** The node objects of the tree. *)
Variable fs : nid -> node.

(** [Node.sub(name)], with the children already made. *)
Definition sub (n : nid) (nm : string) : result nid :=
  match subs (fs n) !! nm with
  | Some c => Ok c
  | None => Err NoSuchFile
  end.

(** [depth] is the call depth the interpreter still grants. *)
Fixpoint top (depth : nat) (n : nid) : result nid :=
  match depth with
  | O => Err RecursionLimit
  | S depth' =>
      match parent (fs n) with
      | Some p => top depth' p
      | None => Ok n
      end
  end.

Fixpoint fs_top (depth : nat) (n : nid) : result nid :=
  match depth with
  | O => Err RecursionLimit
  | S depth' =>
      match parent (fs n) with
      | Some p =>
          if is_commit_list (cls (fs p)) then Ok n else fs_top depth' p
      | None => Ok n
      end
  end.

(** [Node.lresolve(path, stay_inside_fs)], given what [start._lresolve]
    does.  The second component of the result is [_symrefs] afterwards. *)
Definition lresolve_with (rec : nid -> list string -> Z -> result nid * Z)
           (depth : nat) (n : nid) (path : string) (stay_inside_fs : bool)
           (symrefs : Z) : result nid * Z :=
  match path with
  | EmptyString => (Ok n, symrefs)
  | String c path' =>
      if Ascii.eqb c "/" then
        match (if stay_inside_fs then fs_top depth n else top depth n) with
        | Err e => (Err e, symrefs)
        | Ok start => rec start (path_parts path') symrefs
        end
      else rec n (path_parts path) symrefs
  end.

(** [Symlink.dereference()], given what [_lresolve] does.  The [finally]
    clause takes one off the counter whatever the [try] block did; the
    [except NoSuchFile] clause raises [NoSuchFile] again. *)
Definition dereference_with (rec : nid -> list string -> Z -> result nid * Z)
           (depth : nat) (n : nid) (symrefs : Z) : result nid * Z :=
  if symrefs >? 100 then (Err TooManySymlinks, symrefs)
  else
    let symrefs1 := symrefs + 1 in
    let '(r, symrefs2) :=
      match parent (fs n), readlink (fs n) with
      | None, _ => (Err AttributeError, symrefs1)
      | Some _, Err e => (Err e, symrefs1)
      | Some p, Ok target => lresolve_with rec depth p target true symrefs1
      end in
    (r, symrefs2 - 1).

(** [_lresolve(parts)]: [Symlink._lresolve] for a symlink, [Node._lresolve]
    for every other node. *)
Fixpoint _lresolve (depth : nat) (n : nid) (parts : list string) (symrefs : Z)
  : result nid * Z :=
  match depth with
  | O => (Err RecursionLimit, symrefs)
  | S depth' =>
      if is_symlink (cls (fs n)) then
        match dereference_with (_lresolve depth') depth' n symrefs with
        | (Ok t, symrefs1) => _lresolve depth' t parts symrefs1
        | (Err e, symrefs1) => (Err e, symrefs1)
        end
      else
        match parts with
        | [] => (Ok n, symrefs)
        | first :: rest =>
            if String.eqb first "." then _lresolve depth' n rest symrefs
            else if String.eqb first ".." then
              match parent (fs n) with
              | None => (Err NoSuchFile, symrefs)
              | Some p => _lresolve depth' p rest symrefs
              end
            else
              match rest with
              | _ :: _ =>
                  match sub n first with
                  | Ok c => _lresolve depth' c rest symrefs
                  | Err e => (Err e, symrefs)
                  end
              | [] => (sub n first, symrefs)
              end
        end
  end.

Definition dereference (depth : nat) (n : nid) (symrefs : Z) : result nid * Z :=
  dereference_with (_lresolve depth) depth n symrefs.

Definition lresolve (depth : nat) (n : nid) (path : string)
           (stay_inside_fs : bool) (symrefs : Z) : result nid * Z :=
  lresolve_with (_lresolve depth) depth n path stay_inside_fs symrefs.

(** [resolve(path)]: [self.lresolve(path).lresolve('.')] *)
Definition resolve (depth : nat) (n : nid) (path : string) (symrefs : Z)
  : result nid * Z :=
  match lresolve depth n path false symrefs with
  | (Ok m, symrefs1) => lresolve depth m "." false symrefs1
  | (Err e, symrefs1) => (Err e, symrefs1)
  end.

End WithTree.

End Resolve.

(** ** The children of a [Dir] ([vfs.py], lines 403-466) *)

Module DirSubs.

(** [stat.S_IFMT], [stat.S_ISDIR] and [stat.S_ISLNK]. *)
Definition S_IFMT (mode : Z) : Z := Z.land mode 61440.       (* 0o170000 *)
Definition S_ISDIR (mode : Z) : bool := S_IFMT mode =? 16384. (* 0o040000 *)
Definition S_ISLNK (mode : Z) : bool := S_IFMT mode =? 40960. (* 0o120000 *)

(** Modelled from the spec: [GIT_MODE_FILE] of [hashsplit.py], which is not
    among the sources; the mode of a regular file in a tree object. *)
Definition GIT_MODE_FILE : Z := 33188.                       (* 0o100644 *)

(** One row of [git.tree_decode]: [(mode, mangled_name, sha)]. *)
Definition tree_entry : Type := Z * string * Vfs.hash.

(** The node objects [_mksubs] constructs, with the arguments it passes. *)
Inductive child : Type :=
| NewDir (name : string) (mode : Z) (sha : Vfs.hash)
| NewSymlink (name : string) (sha : Vfs.hash) (bupmode : Vfs.bupmode)
| NewFile (name : string) (mode : Z) (sha : Vfs.hash) (bupmode : Vfs.bupmode).

(** [self._subs] and [self._bupm]. *)
Record dir_state : Type := mkDirState {
  _subs : gmap string child;
  _bupm : option child
}.

Section WithDemangle.

(** [git.demangle_name(mangled_name, mode)] of [git.py], which is not among
    the sources: the display name and the bup mode of a row. *)
Variable demangle_name : string -> Z -> string * Vfs.bupmode.

(** Lines 440-449: the child made for a row that is not [.bupm]. *)
Definition make_child (e : tree_entry) : string * child :=
  let '(mode, mangled_name, sha) := e in
  let '(name, bupmode) := demangle_name mangled_name mode in
  let mode := if Vfs.is_chunked bupmode then GIT_MODE_FILE else mode in
  (name,
   if S_ISDIR mode then NewDir name mode sha
   else if S_ISLNK mode then NewSymlink name sha bupmode
   else NewFile name mode sha bupmode).

(** Lines 434-438: the metadata file made for a row named [.bupm]. *)
Definition make_bupm (e : tree_entry) : child :=
  let '(mode, mangled_name, sha) := e in
  NewFile mangled_name GIT_MODE_FILE sha
          (if S_ISDIR mode then Vfs.BUP_CHUNKED else Vfs.BUP_NORMAL).

(** [mangled_name == '.bupm'] *)
Definition is_bupm (e : tree_entry) : bool := String.eqb (snd (fst e)) ".bupm".

(** The body of the loop over the rows of the tree. *)
Definition add_entry (st : dir_state) (e : tree_entry) : dir_state :=
  if is_bupm e then
    mkDirState (_subs st) (Some (make_bupm e))
  else
    let '(name, c) := make_child e in
    mkDirState (<[name := c]> (_subs st)) (_bupm st).

(** [Dir._mksubs()]: [decoded] is what reading and decoding the tree of the
    directory (of its commit's tree, for a commit) gives; [bupm0] is
    [self._bupm] before the call. *)
Definition _mksubs (bupm0 : option child) (decoded : result (list tree_entry))
  : result unit * dir_state :=
  match decoded with
  | Err e => (Err e, mkDirState ∅ bupm0)
  | Ok entries => (Ok tt, fold_left add_entry entries (mkDirState ∅ bupm0))
  end.

(** [Node.sub(name)] on the directory once its children are made. *)
Definition sub (st : dir_state) (name : string) : result child :=
  match _subs st !! name with
  | Some c => Ok c
  | None => Err NoSuchFile
  end.

(** [Node.subs()], as the set of children it sorts. *)
Definition subs (st : dir_state) : list child :=
  map snd (map_to_list (_subs st)).

End WithDemangle.

End DirSubs.

(** ** The links of a [BranchList] ([vfs.py], lines 540-570) *)

Module Branch.

(** A [FakeSymlink] as [BranchList._mksubs] leaves it: its name, the target
    [toname], and the two times set after construction. *)
Record FakeSymlink : Type := mkFakeSymlink {
  fl_name : string;
  fl_toname : string;
  fl_ctime : Z;
  fl_mtime : Z
}.

(** One item of [git.rev_list(..., format='%at', ...)]: the commit's hash in
    hexadecimal and its author time. *)
Definition rev_item : Type := string * Z.

(** ['../.commit/%s/%s' % (commithex[:2], commithex[2:])] *)
Definition commit_target (commithex : string) : string :=
  ("../.commit/" ++ String.substring 0 2 commithex ++ "/"
   ++ String.substring 2 (String.length commithex - 2) commithex)%string.

Definition link_to (name : string) (r : rev_item) : FakeSymlink :=
  mkFakeSymlink name (commit_target (fst r)) (snd r) (snd r).

Section WithClock.

(** [time.strftime('%Y-%m-%d-%H%M%S', time.localtime(date))]: it depends on
    the time zone of the process. *)
Variable strftime_local : Z -> string.

(** The body of the loop over [revs]. *)
Definition add_rev (m : gmap string FakeSymlink) (r : rev_item)
  : gmap string FakeSymlink :=
  let ls := strftime_local (snd r) in
  <[ls := link_to ls r]> m.

(** [BranchList._mksubs()], given the list [rev_list] returned; [revs[0]]
    raises [IndexError] on an empty list. *)
Definition _mksubs (revs : list rev_item) : result (gmap string FakeSymlink) :=
  match revs with
  | [] => Err IndexError
  | latest :: _ =>
      Ok (<["latest"%string := link_to "latest" latest]> (fold_left add_rev revs ∅))
  end.

(** The commit whose link is left under [name]: the last one in the list
    that is formatted so. *)
Definition last_named (name : string) (revs : list rev_item) : option rev_item :=
  find (fun r => String.eqb (strftime_local (snd r)) name) (rev revs).

(** The claim in the spec's words: each commit has its own link, named by
    its formatted time and pointing at it, [latest] points at the newest
    commit, and there are no other children. *)
Definition one_link_per_commit (revs : list rev_item)
           (subs : gmap string FakeSymlink) : Prop :=
  (forall r, In r revs ->
             subs !! strftime_local (snd r) = Some (link_to (strftime_local (snd r)) r))
  /\ (exists latest rest, revs = latest :: rest
                          /\ subs !! "latest"%string = Some (link_to "latest" latest))
  /\ size subs = S (length revs).

End WithClock.

(** *** The format in a zone that keeps UTC *)

Definition digit (n : Z) : ascii := ascii_of_nat (48 + Z.to_nat (n mod 10)).

Definition pad2 (n : Z) : string :=
  String (digit (n / 10)) (String (digit n) EmptyString).

Definition pad4 (n : Z) : string :=
  String (digit (n / 1000)) (String (digit (n / 100)) (pad2 n)).

(** The civil date of a day counted from 1970-01-01. *)
Definition civil_from_days (days : Z) : Z * Z * Z :=
  let z := days + 719468 in
  let era := z / 146097 in
  let doe := z - era * 146097 in
  let yoe := (doe - doe / 1460 + doe / 36524 - doe / 146096) / 365 in
  let doy := doe - (365 * yoe + yoe / 4 - yoe / 100) in
  let mp := (5 * doy + 2) / 153 in
  let d := doy - (153 * mp + 2) / 5 + 1 in
  let m := if mp <? 10 then mp + 3 else mp - 9 in
  let y := yoe + era * 400 + (if m <=? 2 then 1 else 0) in
  (y, m, d).

(** [time.strftime('%Y-%m-%d-%H%M%S', time.localtime(date))] where local
    time is UTC, for the years 0 to 9999. *)
Definition strftime_utc (date : Z) : string :=
  let '(y, m, d) := civil_from_days (date / 86400) in
  let secs := date mod 86400 in
  (pad4 y ++ "-" ++ pad2 m ++ "-" ++ pad2 d ++ "-"
   ++ pad2 (secs / 3600) ++ pad2 (secs / 60 mod 60) ++ pad2 (secs mod 60))%string.

End Branch.

(** ** What a sweep leaves in its log ([bloom-gc-cmd.py], lines 54-128) *)

Module GcTrace.

(** The paths handed to [os.unlink], in order. *)
Fixpoint unlinks_of (l : list Gc.event) : list string :=
  match l with
  | [] => []
  | Gc.EvUnlink p :: l' => p :: unlinks_of l'
  | _ :: l' => unlinks_of l'
  end.

(** The files removed so far, followed by those buffered for removal. *)
Definition doomed (st : Gc.state) : list string :=
  unlinks_of (Gc.log st) ++ Gc.stale_files st.

Section Decisions.

Variable live_exists : Gc.sha -> bool.
Variable threshold : Z.

(** The entries of an index that the BloomSet reports, in index order. *)
Definition live_entries (idx : Gc.PackIdx) : list Gc.sha :=
  filter (fun s => live_exists s = true) (Gc.shatable idx).

(** The three ways the loop body of [sweep] goes for a pack. *)
Definition dead (idx : Gc.PackIdx) : bool :=
  Gc.count_live live_exists idx =? 0.

Definition kept (idx : Gc.PackIdx) : bool :=
  negb (dead idx)
  && Gc.keeps (Gc.count_live live_exists idx)
              (Z.of_nat (length (Gc.shatable idx))) threshold.

Definition rewritten (idx : Gc.PackIdx) : bool :=
  negb (dead idx)
  && negb (Gc.keeps (Gc.count_live live_exists idx)
                    (Z.of_nat (length (Gc.shatable idx))) threshold).

Definition replaced (idx : Gc.PackIdx) : bool := dead idx || rewritten idx.

End Decisions.

End GcTrace.

(** ** Counting objects ([bloom-gc-cmd.py], lines 23-31 and 74-87) *)

Module GcCount.

(** [count_objects(dir)]: [idxs] are the indexes that [glob] finds. *)
Definition count_objects (idxs : list Gc.PackIdx) : Z :=
  fold_left (fun object_count idx => object_count + Z.of_nat (length (Gc.shatable idx)))
            idxs 0.

(** [collect_count] at the end of the loop of [sweep]: the sum of the
    [idx_live_count] of the indexes. *)
Definition collect_count (live_exists : Gc.sha -> bool) (idxs : list Gc.PackIdx) : Z :=
  fold_left (fun collect_count idx => collect_count + Gc.count_live live_exists idx)
            idxs 0.

End GcCount.

(** ** Full names and lenient resolution ([vfs.py], lines 190-197, 265-285) *)

Module Paths.

(** [posixpath.join(a, b)], the [os.path.join] of [fullname]. *)
Definition ends_with_slash (s : string) : bool :=
  match last (list_ascii_of_string s) with
  | Some c => Ascii.eqb c "/"
  | None => false
  end.

Definition path_join (a b : string) : string :=
  if String.prefix "/" b then b
  else if String.eqb a "" || ends_with_slash a then (a ++ b)%string
  else (a ++ "/" ++ b)%string.

(** A run of [S k] slashes. *)
Fixpoint slashes (k : nat) : string :=
  match k with
  | O => "/"
  | S k' => String "/" (slashes k')
  end.

(** A name that is not empty and holds no slash. *)
Definition part (nm : string) : Prop :=
  nm <> ""%string /\ Forall (fun c => c <> "/"%char) (list_ascii_of_string nm).

(** A name a node of a directory can go by: a part other than [.] and [..]. *)
Definition plain_name (nm : string) : Prop :=
  part nm /\ nm <> "."%string /\ nm <> ".."%string.

Section WithTree.

Variable fs : Resolve.nid -> Resolve.node.

(** [Node.try_resolve(path)]: only [NoSuchFile] is caught. *)
Definition try_resolve (depth : nat) (n : Resolve.nid) (path : string) (symrefs : Z)
  : result Resolve.nid * Z :=
  match Resolve.lresolve fs depth n path false symrefs with
  | (Ok m, symrefs1) =>
      match Resolve.lresolve fs depth m "." false symrefs1 with
      | (Err NoSuchFile, symrefs2) => (Ok m, symrefs2)
      | other => other
      end
  | (Err e, symrefs1) => (Err e, symrefs1)
  end.

(** [Node.fullname()] with [stop_at] left at [None].  A node never compares
    equal to [None] ([__cmp__] ends at the name of the top node, a string),
    so the assertion passes and the parent's name is joined in whenever there
    is a parent. *)
Fixpoint fullname (depth : nat) (n : Resolve.nid) : result string :=
  match depth with
  | O => Err RecursionLimit
  | S depth' =>
      match Resolve.parent (fs n) with
      | Some p =>
          match fullname depth' p with
          | Ok s => Ok (path_join s (Resolve.name (fs n)))
          | Err e => Err e
          end
      | None => Ok (Resolve.name (fs n))
      end
  end.

(** [descends p names n]: going down from [p] by [names] through nodes that
    are no symlinks leads to [n], each node on the way being the child that
    its parent holds under the node's own name. *)
Inductive descends : Resolve.nid -> list string -> Resolve.nid -> Prop :=
| descends_here n : descends n [] n
| descends_step p nm c rest n :
    Resolve.is_symlink (Resolve.cls (fs p)) = false ->
    Resolve.subs (fs p) !! nm = Some c ->
    Resolve.parent (fs c) = Some p ->
    Resolve.name (fs c) = nm ->
    plain_name nm ->
    descends c rest n ->
    descends p (nm :: rest) n.

End WithTree.

End Paths.

(** ** A [Dir] object and its cached children ([vfs.py], lines 199-215, 309-312, 403-465) *)

Module DirNode.

(** [self._subs], [None] until [_mksubs] has run, and [self._bupm]. *)
Record dir_obj : Type := mkDirObj {
  d_subs : option (gmap string DirSubs.child);
  d_bupm : option DirSubs.child
}.

(** A [Dir] as its constructor leaves it. *)
Definition fresh : dir_obj := mkDirObj None None.

Section WithTree.

Variable demangle_name : string -> Z -> string * Vfs.bupmode.

(** What reading the directory's tree object gives: its rows, or the
    exception raised when the object cannot be read or is no tree. *)
Variable decoded : result (list DirSubs.tree_entry).

(** [Dir._mksubs()]: [self._subs = {}] comes first, so the empty dictionary
    stays when reading the object raises. *)
Definition _mksubs (o : dir_obj) : result unit * dir_obj :=
  let '(r, st) := DirSubs._mksubs demangle_name (d_bupm o) decoded in
  (r, mkDirObj (Some (DirSubs._subs st)) (DirSubs._bupm st)).

(** [Node.sub(name)]: the children are made when [self._subs == None]. *)
Definition sub (o : dir_obj) (name : string) : result DirSubs.child * dir_obj :=
  let '(r, o1) :=
    match d_subs o with
    | None => _mksubs o
    | Some _ => (Ok tt, o)
    end in
  match r with
  | Err e => (Err e, o1)
  | Ok _ =>
      match d_subs o1 with
      | Some m =>
          match m !! name with
          | Some c => (Ok c, o1)
          | None => (Err NoSuchFile, o1)
          end
      | None => (Err AttributeError, o1)      (* None has no get() *)
      end
  end.

(** [not self._subs]: [None] or an empty dictionary. *)
Definition no_subs (o : dir_obj) : bool :=
  match d_subs o with
  | None => true
  | Some m => bool_decide (m = ∅)
  end.

(** [Dir.metadata_file()] *)
Definition metadata_file (o : dir_obj) : result (option DirSubs.child) * dir_obj :=
  let '(r, o1) := if no_subs o then _mksubs o else (Ok tt, o) in
  match r with
  | Err e => (Err e, o1)
  | Ok _ => (Ok (d_bupm o1), o1)
  end.

(** [Dir.release()] *)
Definition release (o : dir_obj) : dir_obj := mkDirObj None None.

(** Calls on a [Dir] and what they return. *)
Inductive call : Type :=
| CallSub (name : string)
| CallMetadataFile
| CallRelease.

Inductive answer : Type :=
| Child (r : result DirSubs.child)
| MetadataFile (r : result (option DirSubs.child))
| Released.

Fixpoint run (calls : list call) (o : dir_obj) : list answer :=
  match calls with
  | [] => []
  | CallSub name :: rest => let '(r, o1) := sub o name in Child r :: run rest o1
  | CallMetadataFile :: rest =>
      let '(r, o1) := metadata_file o in MetadataFile r :: run rest o1
  | CallRelease :: rest => Released :: run rest (release o)
  end.

(** Whether a row is listed under [name]. *)
Definition names_row (name : string) (e : DirSubs.tree_entry) : bool :=
  negb (DirSubs.is_bupm e)
  && String.eqb (fst (DirSubs.make_child demangle_name e)) name.

(** The child a directory with the rows [entries] shows under [name]: the
    one made from the last row listed under it. *)
Definition child_of (entries : list DirSubs.tree_entry) (name : string)
  : result DirSubs.child :=
  match find (names_row name) (rev entries) with
  | Some e => Ok (snd (DirSubs.make_child demangle_name e))
  | None => Err NoSuchFile
  end.

(** Its metadata file: the one made from the last row named [.bupm]. *)
Definition bupm_of (entries : list DirSubs.tree_entry) : option DirSubs.child :=
  match find DirSubs.is_bupm (rev entries) with
  | Some e => Some (DirSubs.make_bupm e)
  | None => None
  end.

(** The states of a [Dir] whose tree, with the rows [entries], can be
    read: as constructed or released, or with the children and the metadata
    file of its rows. *)
Definition cache_state (entries : list DirSubs.tree_entry) (o : dir_obj) : Prop :=
  o = fresh
  \/ o = mkDirObj
           (Some (DirSubs._subs
                    (fold_left (DirSubs.add_entry demangle_name) entries
                               (DirSubs.mkDirState ∅ None))))
           (bupm_of entries).

(** What a call returns when the cache is left out of the picture. *)
Definition plain_answer (entries : list DirSubs.tree_entry) (c : call) : answer :=
  match c with
  | CallSub name => Child (child_of entries name)
  | CallMetadataFile => MetadataFile (Ok (bupm_of entries))
  | CallRelease => Released
  end.

End WithTree.

End DirNode.

(** ** Commits, tags and branches under the root ([vfs.py], lines 468-537, 573-603) *)

Module Refs.

(** [commithex[:2]] and [commithex[2:]] *)
Definition containername (commithex : string) : string :=
  String.substring 0 2 commithex.

Definition dirname (commithex : string) : string :=
  String.substring 2 (String.length commithex - 2) commithex.

(** [CommitList.commits]: from the name of a commit's directory to
    [(commit, date)]. *)
Abbreviation commits := (gmap string (Vfs.hash * Z)).

(** What [CommitDir._subs] holds for a container and a directory name in
    it. *)
Definition commit_at (subs : gmap string commits) (container dir : string)
  : option (Vfs.hash * Z) :=
  match subs !! container with
  | Some cl => cl !! dir
  | None => None
  end.

(** The [Dir] that [CommitList._mksubs] makes for a commit: its name, its
    hash and the two times set after construction (its mode is
    [GIT_MODE_TREE] of [hashsplit.py]). *)
Record CommitRoot : Type := mkCommitRoot {
  cm_name : string;
  cm_hash : Vfs.hash;
  cm_ctime : Z;
  cm_mtime : Z
}.

(** [CommitList._mksubs()] *)
Definition CommitList_mksubs (cm : commits) : gmap string CommitRoot :=
  map_imap (fun name v => Some (mkCommitRoot name (fst v) (snd v) (snd v))) cm.

(** The children [RefList._mksubs] makes. *)
Inductive root_child : Type :=
| NewCommitDir (name : string)
| NewTagDir (name : string)
| NewBranchList (name : string) (hash : Vfs.hash) (date : Z).

(** [RefList._mksubs()]: [heads] is what [git.list_refs(limit_to_heads=True)]
    returns and [dates] what [git.get_commit_dates] returns for them; [zip]
    stops at the shorter list. *)
Definition RefList_mksubs (heads : list (string * Vfs.hash)) (dates : list Z)
  : gmap string root_child :=
  let refs_info :=
    map (fun ref : string * Vfs.hash =>
           (String.substring 11 (String.length (fst ref) - 11) (fst ref), snd ref))
        heads in
  fold_left (fun subs (item : string * Vfs.hash * Z) =>
               let '(name, sha, date) := item in
               <[name := NewBranchList name sha date]> subs)
            (combine refs_info dates)
            (<[".tag"%string := NewTagDir ".tag"]>
               (<[".commit"%string := NewCommitDir ".commit"]> ∅)).

Section WithGit.

(** [commithex.decode('hex')] and [sha.encode('hex')] *)
Variable unhex : string -> Vfs.hash.
Variable hex : Vfs.hash -> string.

(** [git.get_commit_dates([commithex])[0]] of [git.py], which is not among
    the sources. *)
Variable get_commit_date : string -> Z.

(** The loop of [CommitDir._mksubs] over the history of one ref: it stops at
    the first commit that its container already holds. *)
Fixpoint add_revs (revs : list Branch.rev_item) (subs : gmap string commits)
  : gmap string commits :=
  match revs with
  | [] => subs
  | (commithex, date) :: rest =>
      let containername := containername commithex in
      let dirname := dirname commithex in
      let '(n1, subs1) :=
        match subs !! containername with
        | Some n1 => (n1, subs)
        | None => (∅, <[containername := ∅]> subs)
        end in
      match n1 !! dirname with
      | Some _ => subs1                                          (* break *)
      | None =>
          add_revs rest
            (<[containername :=
                 <[dirname := (unhex commithex, date)]> n1]> subs1)
      end
  end.

(** [CommitDir._mksubs()], given the list [rev_list] returns for each ref, in
    the order of [list_refs]. *)
Definition CommitDir_mksubs (ref_revs : list (list Branch.rev_item))
  : gmap string commits :=
  fold_left (fun subs revs => add_revs revs subs) ref_revs ∅.

(** The link [TagDir._mksubs] makes for a tag. *)
Definition tag_link (name : string) (sha : Vfs.hash) : Branch.FakeSymlink :=
  Branch.mkFakeSymlink name (Branch.commit_target (hex sha))
                       (get_commit_date (hex sha)) (get_commit_date (hex sha)).

(** The body of the loop of [TagDir._mksubs]. *)
Definition add_tag (subs : gmap string Branch.FakeSymlink) (ref : string * Vfs.hash)
  : gmap string Branch.FakeSymlink :=
  let '(name, sha) := ref in
  if String.prefix "refs/tags/" name then
    let name := String.substring 10 (String.length name - 10) name in
    <[name := tag_link name sha]> subs
  else subs.

(** [TagDir._mksubs()], given what [git.list_refs] returns. *)
Definition TagDir_mksubs (refs : list (string * Vfs.hash))
  : gmap string Branch.FakeSymlink :=
  fold_left add_tag refs ∅.

End WithGit.

End Refs.

(** ** Example repositories *)

(** A pack of ten objects, and a BloomSet that holds all of them but one. *)
Definition ten_objects : Gc.PackIdx :=
  Gc.mkIdx "pack-1.idx" ["a"; "b"; "c"; "d"; "e"; "f"; "g"; "h"; "i"; "j"]%string.

Definition all_but_j (s : Gc.sha) : bool := negb (String.eqb s "j").

(** A file of fifteen bytes, split into a sub-tree of two blobs and two more
    blobs. *)
Definition demo_join (h : Vfs.hash) : result Vfs.bytes :=
  if String.eqb h "b1" then Ok (list_ascii_of_string "abcd")
  else if String.eqb h "b2" then Ok (list_ascii_of_string "efg")
  else if String.eqb h "b3" then Ok (list_ascii_of_string "hij")
  else if String.eqb h "b4" then Ok (list_ascii_of_string "klmno")
  else Err StoreError.

Definition demo_tree (h : Vfs.hash) : result (list Vfs.entry) :=
  if String.eqb h "root" then
    Ok [(0, true, "t1"); (7, false, "b3"); (10, false, "b4")]%string
  else if String.eqb h "t1" then Ok [(0, false, "b1"); (4, false, "b2")]%string
  else Err StoreError.

Definition demo_content : Vfs.bytes := list_ascii_of_string "abcdefghijklmno".

(** The file as a [File] node that was never opened. *)
Definition demo_file : Vfs.File := Vfs.mkFile "root" Vfs.BUP_CHUNKED None None.

(** A tree with a directory [/a] that holds a file [f], a link [l] to it,
    two links [b] and [c] that point at each other, and two links [p] and
    [q] whose targets pass through each other. *)
Definition demo_nodes (n : Resolve.nid) : Resolve.node :=
  match n with
  | 0%nat => Resolve.mkNode None "/" Resolve.RefList {[ "a" := 1%nat ]} (Err StoreError)
  | 1%nat =>
      Resolve.mkNode (Some 0%nat) "a" Resolve.Dir
        (<["b" := 2%nat]> (<["c" := 3%nat]> (<["f" := 4%nat]> (<["l" := 5%nat]>
           (<["p" := 6%nat]> {[ "q" := 7%nat ]})))))
        (Err StoreError)
  | 2%nat => Resolve.mkNode (Some 1%nat) "b" Resolve.Symlink ∅ (Ok "c")
  | 3%nat => Resolve.mkNode (Some 1%nat) "c" Resolve.Symlink ∅ (Ok "/a/b")
  | 4%nat => Resolve.mkNode (Some 1%nat) "f" Resolve.File ∅ (Err StoreError)
  | 5%nat => Resolve.mkNode (Some 1%nat) "l" Resolve.Symlink ∅ (Ok "f")
  | 6%nat => Resolve.mkNode (Some 1%nat) "p" Resolve.Symlink ∅ (Ok "q/x")
  | _ => Resolve.mkNode (Some 1%nat) "q" Resolve.Symlink ∅ (Ok "p/x")
  end%string.

(** A directory with a metadata row, a chunked file stored as a tree, a
    sub-directory, a symlink and a plain file; and a [demangle_name] that
    knows the chunked file. *)
Definition demo_demangle (mangled : string) (mode : Z) : string * Vfs.bupmode :=
  if String.eqb mangled "big.bup" then ("big"%string, Vfs.BUP_CHUNKED)
  else (mangled, Vfs.BUP_NORMAL).

Definition demo_entries : list DirSubs.tree_entry :=
  [(33188, ".bupm", "m"); (16384, "big.bup", "t"); (16384, "sub", "d");
   (40960, "lnk", "l"); (33188, "f", "x")]%string.

(** A branch with two commits an hour apart (scenario 6 of the spec), and
    one with two commits of the same second. *)
Definition two_commits : list Branch.rev_item :=
  [("bbbbbbbbbbbbbbbbbbbbbbbbbbbbbbbbbbbbbbbb", 1700003600);
   ("aaaaaaaaaaaaaaaaaaaaaaaaaaaaaaaaaaaaaaaa", 1700000000)]%string.

Definition same_second : list Branch.rev_item :=
  [("bbbbbbbbbbbbbbbbbbbbbbbbbbbbbbbbbbbbbbbb", 1700000000);
   ("aaaaaaaaaaaaaaaaaaaaaaaaaaaaaaaaaaaaaaaa", 1700000000)]%string.

(** Four packs for a BloomSet that holds everything but [j]: one without a
    live object, the pack of ten with nine alive, one with two of three
    alive, and one all alive. *)
Definition three_packs : list Gc.PackIdx :=
  [Gc.mkIdx "pack-0.idx" ["j"; "j"]%string;
   ten_objects;
   Gc.mkIdx "pack-2.idx" ["a"; "j"; "b"]%string;
   Gc.mkIdx "pack-3.idx" ["a"; "b"; "c"]%string].

(** A store in which every tree is without rows. *)
Definition no_rows (h : Vfs.hash) : result (list Vfs.entry) := Ok [].

(** A commit [abcdef] with a directory [etc]: the root, [.commit], the
    [CommitList] [ab], the commit's directory [cdef], and [etc] in it. *)
Definition demo_commit (n : Resolve.nid) : Resolve.node :=
  match n with
  | 0%nat => Resolve.mkNode None "/" Resolve.RefList {[ ".commit" := 1%nat ]} (Err StoreError)
  | 1%nat => Resolve.mkNode (Some 0%nat) ".commit" Resolve.CommitDir {[ "ab" := 2%nat ]}
               (Err StoreError)
  | 2%nat => Resolve.mkNode (Some 1%nat) "ab" Resolve.CommitList {[ "cdef" := 3%nat ]}
               (Err StoreError)
  | 3%nat => Resolve.mkNode (Some 2%nat) "cdef" Resolve.Dir {[ "etc" := 4%nat ]}
               (Err StoreError)
  | _ => Resolve.mkNode (Some 3%nat) "etc" Resolve.Dir ∅ (Err StoreError)
  end%string.

(** Two branches that share the commit [aa..], and a tag on it. *)
Definition shared_history : list (list Branch.rev_item) :=
  [two_commits;
   [("cccccccccccccccccccccccccccccccccccccccc", 1700007200);
    ("aaaaaaaaaaaaaaaaaaaaaaaaaaaaaaaaaaaaaaaa", 1700000000);
    ("dddddddddddddddddddddddddddddddddddddddd", 1600000000)]]%string.

Definition demo_refs : list (string * Vfs.hash) :=
  [("refs/heads/main", "B"); ("refs/heads/topic", "C"); ("refs/tags/v1", "A")]%string.

Definition demo_hex (sha : Vfs.hash) : string :=
  if String.eqb sha "A" then "aaaaaaaaaaaaaaaaaaaaaaaaaaaaaaaaaaaaaaaa"
  else if String.eqb sha "B" then "bbbbbbbbbbbbbbbbbbbbbbbbbbbbbbbbbbbbbbbb"
  else "cccccccccccccccccccccccccccccccccccccccc".

Definition demo_rev_list (sha : Vfs.hash) : list Branch.rev_item :=
  if String.eqb sha "B" then two_commits
  else if String.eqb sha "C" then
    [("cccccccccccccccccccccccccccccccccccccccc", 1700007200);
     ("aaaaaaaaaaaaaaaaaaaaaaaaaaaaaaaaaaaaaaaa", 1700000000);
     ("dddddddddddddddddddddddddddddddddddddddd", 1600000000)]%string
  else [("aaaaaaaaaaaaaaaaaaaaaaaaaaaaaaaaaaaaaaaa", 1700000000)]%string.

(** * Properties *)


(** ** The sweep's policy per pack *)

Section SweepPolicy.

Variable live_exists : Gc.sha -> bool.
Variable cat_ok : Gc.sha -> bool.
Variable pack_full : list Gc.sha -> bool.
Variable threshold : Z.

Lemma writes_of_app l1 l2 : Gc.writes_of (l1 ++ l2) = Gc.writes_of l1 ++ Gc.writes_of l2.
Proof.
  induction l1 as [|e l1 IH]; simpl; [reflexivity|].
  destruct e; simpl; rewrite IH; reflexivity.
Qed.

Lemma writes_of_unlinks ps : Gc.writes_of (map Gc.EvUnlink ps) = [].
Proof. induction ps; simpl; auto. Qed.

(** A write appends to the log; what it appends holds exactly one write. *)
Lemma writer_write_log s st :
  exists l, Gc.log (Gc.writer_write pack_full s st) = Gc.log st ++ l
            /\ Gc.writes_of l = [s].
Proof.
  unfold Gc.writer_write, Gc.finish_pack, Gc.remove_stale_files, Gc.emit; simpl.
  destruct (pack_full _); simpl.
  - exists (Gc.EvWrite s :: Gc.EvPackFinish :: map Gc.EvUnlink (Gc.stale_files st)).
    split.
    + rewrite <- !app_assoc. reflexivity.
    + simpl. rewrite writes_of_unlinks. reflexivity.
  - exists [Gc.EvWrite s]. split; reflexivity.
Qed.

Lemma rewrite_entries_writes shas : forall st,
  (forall s, In s shas -> live_exists s = true -> cat_ok s = true) ->
  exists st1 l,
    Gc.rewrite_entries live_exists cat_ok pack_full shas st = (Ok st1, st1)
    /\ Gc.log st1 = Gc.log st ++ l
    /\ Gc.writes_of l = filter (fun s => live_exists s = true) shas.
Proof.
  induction shas as [|s rest IH]; intros st Hcat; simpl.
  - exists st, []. rewrite app_nil_r. auto.
  - assert (Hrest : forall s', In s' rest -> live_exists s' = true -> cat_ok s' = true)
      by (intros; apply Hcat; simpl; auto).
    destruct (live_exists s) eqn:Hl.
    + rewrite (Hcat s (or_introl eq_refl) Hl).
      destruct (IH (Gc.writer_write pack_full s st) Hrest) as (st1 & l & Hr & Hlog & Hw).
      destruct (writer_write_log s st) as (l0 & Hl0 & Hw0).
      exists st1, (l0 ++ l). split; [exact Hr|]. split.
      * rewrite Hlog, Hl0, app_assoc. reflexivity.
      * rewrite writes_of_app, Hw0, Hw. rewrite filter_cons_True by exact Hl.
        reflexivity.
    + destruct (IH st Hrest) as (st1 & l & Hr & Hlog & Hw).
      exists st1, l. split; [exact Hr|]. split; [exact Hlog|].
      rewrite filter_cons_False by (rewrite Hl; discriminate). exact Hw.
Qed.

(** C2. For a pack index with [n] entries of which [live] are in the
    BloomSet: when [live = 0] the sweep only buffers the pack's [.idx] and
    [.pack] as stale; otherwise, when [live / n > (100 - threshold) / 100]
    (the test as the code computes it, [Gc.keeps]) the state is left as it
    was; otherwise exactly the entries the BloomSet reports are written to
    the pack writer, in index order, and then the two files are buffered as
    stale.  With 9 of 10 live the test is false at threshold 10 (rewrite)
    and true at threshold 11 (keep). *)
Theorem sweep_pack_policy (idx : Gc.PackIdx) (st : Gc.state) :
  let live := Gc.count_live live_exists idx in
  let n := Z.of_nat (length (Gc.shatable idx)) in
  let run := Gc.sweep_pack live_exists cat_ok pack_full threshold idx st in
  (live = 0 ->
     run = (Ok (Gc.mark_stale idx st), Gc.mark_stale idx st)
     /\ Gc.log (Gc.mark_stale idx st) = Gc.log st
     /\ Gc.stale_files (Gc.mark_stale idx st)
        = Gc.stale_files st ++ [Gc.idx_name idx; Gc.pack_name (Gc.idx_name idx)])
  /\ (live <> 0 -> Gc.keeps live n threshold = true -> run = (Ok st, st))
  /\ (live <> 0 -> Gc.keeps live n threshold = false ->
      (forall s, In s (Gc.shatable idx) -> live_exists s = true -> cat_ok s = true) ->
      exists st1 l,
        run = (Ok (Gc.mark_stale idx st1), Gc.mark_stale idx st1)
        /\ Gc.log st1 = Gc.log st ++ l
        /\ Gc.writes_of l = filter (fun s => live_exists s = true) (Gc.shatable idx)
        /\ Gc.stale_files (Gc.mark_stale idx st1)
           = Gc.stale_files st1 ++ [Gc.idx_name idx; Gc.pack_name (Gc.idx_name idx)])
  /\ (Gc.keeps 9 10 10 = false /\ Gc.keeps 9 10 11 = true).
Proof.
  intros live n run. subst run. unfold Gc.sweep_pack. fold live. fold n.
  split; [|split; [|split]].
  - intros H0. rewrite H0. simpl. auto.
  - intros Hne Hk. destruct (Z.eqb_spec live 0) as [E|_]; [contradiction|].
    rewrite Hk. reflexivity.
  - intros Hne Hk Hcat. destruct (Z.eqb_spec live 0) as [E|_]; [contradiction|].
    rewrite Hk.
    destruct (rewrite_entries_writes (Gc.shatable idx) st Hcat) as (st1 & l & Hr & Hlog & Hw).
    exists st1, l. rewrite Hr. simpl. auto.
  - split; vm_compute; reflexivity.
Qed.

End SweepPolicy.

(** The floating-point test agrees with the exact comparison on every pack
    of up to 64 objects, at every threshold from 0 to 100. *)
Lemma keeps_is_exact_small :
  forallb (fun n =>
    forallb (fun live =>
      forallb (fun t =>
        Bool.eqb (Gc.keeps (Z.of_nat live) (Z.of_nat n) (Z.of_nat t))
                 (Gc.keeps_exact (Z.of_nat live) (Z.of_nat n) (Z.of_nat t)))
        (seq 0 101))
      (seq 1 n))
    (seq 1 64) = true.
Proof. vm_compute. reflexivity. Qed.

Lemma sweep_pack_policy_witness :
  exists st1 l,
    Gc.sweep_pack all_but_j (fun _ => true) (fun _ => false) 10 ten_objects
                  (Gc.mkState [] [] [])
    = (Ok (Gc.mark_stale ten_objects st1), Gc.mark_stale ten_objects st1)
    /\ Gc.log st1 = [] ++ l
    /\ Gc.writes_of l = ["a"; "b"; "c"; "d"; "e"; "f"; "g"; "h"; "i"]%string
    /\ Gc.stale_files (Gc.mark_stale ten_objects st1)
       = Gc.stale_files st1 ++ ["pack-1.idx"; "pack-1.pack"]%string.
Proof.
  refine (proj1 (proj2 (proj2
            (sweep_pack_policy all_but_j (fun _ => true) (fun _ => false) 10
                               ten_objects (Gc.mkState [] [] [])))) _ _ _).
  - vm_compute. discriminate.
  - vm_compute. reflexivity.
  - intros; reflexivity.
Defined.

(** ** When the sweep unlinks *)

Section SweepTiming.

Variable live_exists : Gc.sha -> bool.
Variable cat_ok : Gc.sha -> bool.
Variable pack_full : list Gc.sha -> bool.
Variable threshold : Z.

Lemma timely_from_app a c l1 l2 :
  Gc.timely_from a c (l1 ++ l2)
  = Gc.timely_from a c l1
    && Gc.timely_from (Gc.allowed_end a l1) (Gc.closed_end c l1) l2.
Proof.
  revert a c. induction l1 as [|e l1 IH]; intros a c; simpl; [reflexivity|].
  destruct e; simpl; rewrite IH; rewrite ?andb_assoc; reflexivity.
Qed.

Lemma allowed_end_app a l1 l2 :
  Gc.allowed_end a (l1 ++ l2) = Gc.allowed_end (Gc.allowed_end a l1) l2.
Proof. revert a. induction l1 as [|e l1 IH]; intros a; simpl; [reflexivity|]. destruct e; apply IH. Qed.

Lemma closed_end_app c l1 l2 :
  Gc.closed_end c (l1 ++ l2) = Gc.closed_end (Gc.closed_end c l1) l2.
Proof. revert c. induction l1 as [|e l1 IH]; intros c; simpl; [reflexivity|]. destruct e; apply IH. Qed.

Lemma pending_from_app cur l1 l2 :
  Gc.pending_from cur (l1 ++ l2) = Gc.pending_from (Gc.pending_from cur l1) l2.
Proof. revert cur. induction l1 as [|e l1 IH]; intros cur; simpl; [reflexivity|]. destruct e; apply IH. Qed.

Lemma pending_app l1 l2 : Gc.pending (l1 ++ l2) = Gc.pending_from (Gc.pending l1) l2.
Proof. apply pending_from_app. Qed.

Lemma pending_from_unlinks cur ps : Gc.pending_from cur (map Gc.EvUnlink ps) = cur.
Proof. induction ps; simpl; auto. Qed.

Lemma timely_from_unlinks c ps : Gc.timely_from true c (map Gc.EvUnlink ps) = true.
Proof. induction ps; simpl; auto. Qed.

Lemma allowed_end_unlinks a ps : Gc.allowed_end a (map Gc.EvUnlink ps) = a.
Proof. induction ps; simpl; auto. Qed.

Lemma closed_end_unlinks c ps : Gc.closed_end c (map Gc.EvUnlink ps) = c.
Proof. induction ps; simpl; auto. Qed.

Lemma at_unlinks_nil P : Gc.at_unlinks P [].
Proof. intros l1 p l2 H. destruct l1; discriminate. Qed.

Lemma at_unlinks_snoc P l e :
  Gc.at_unlinks P l ->
  (forall p, e = Gc.EvUnlink p -> P l p) ->
  Gc.at_unlinks P (l ++ [e]).
Proof.
  intros Hl He l1 p l2 Heq.
  destruct l2 as [|x l2 _] using rev_ind.
  - apply app_inj_tail in Heq as [-> ->]. apply He. reflexivity.
  - change (l ++ [e] = l1 ++ (Gc.EvUnlink p :: l2) ++ [x]) in Heq.
    rewrite app_assoc in Heq. apply app_inj_tail in Heq as [-> _].
    eapply Hl. reflexivity.
Qed.

Lemma at_unlinks_app_unlinks P l ps :
  Gc.at_unlinks P l ->
  (forall ps1 p ps2, ps = ps1 ++ p :: ps2 -> P (l ++ map Gc.EvUnlink ps1) p) ->
  Gc.at_unlinks P (l ++ map Gc.EvUnlink ps).
Proof.
  intros Hl. induction ps as [|q ps IH] using rev_ind; intros Hps.
  - simpl. rewrite app_nil_r. exact Hl.
  - rewrite map_app. simpl. rewrite app_assoc. apply at_unlinks_snoc.
    + apply IH. intros ps1 p ps2 ->. apply (Hps ps1 p (ps2 ++ [q])).
      rewrite <- app_assoc. reflexivity.
    + intros p [= <-]. apply (Hps ps q []). reflexivity.
Qed.

Lemma at_unlinks_other P l e :
  Gc.at_unlinks P l -> Gc.is_unlink e = false -> Gc.at_unlinks P (l ++ [e]).
Proof.
  intros Hl He. apply at_unlinks_snoc; [exact Hl|].
  intros p ->. discriminate.
Qed.

Lemma owners_written_app all l l' p :
  Gc.owners_written live_exists all l p -> Gc.owners_written live_exists all (l ++ l') p.
Proof.
  intros H idx s Hi Hp Hs Hl. rewrite writes_of_app. apply in_or_app. left.
  eapply H; eauto.
Qed.

Lemma inv_init all : Gc.sweep_inv live_exists all (Gc.mkState [] [] []).
Proof.
  constructor; simpl; try reflexivity; try (intros; apply at_unlinks_nil).
  intros _ p [].
Qed.

(** The writer's callback: the end of a pack, then the buffered unlinks. *)
Lemma inv_finish_pack all st :
  Gc.sweep_inv live_exists all st -> Gc.sweep_inv live_exists all (Gc.finish_pack st).
Proof.
  intros [Ht Ho Hp Hpe Hw Hs].
  unfold Gc.finish_pack, Gc.remove_stale_files, Gc.emit; simpl.
  constructor; simpl.
  - unfold Gc.timely in *. rewrite <- app_assoc, timely_from_app, Ht. simpl.
    rewrite Ho. simpl. apply timely_from_unlinks.
  - rewrite <- app_assoc, closed_end_app, Ho. simpl. apply closed_end_unlinks.
  - rewrite <- app_assoc, pending_app. simpl. rewrite pending_from_unlinks. reflexivity.
  - apply at_unlinks_app_unlinks.
    + apply at_unlinks_other; [exact Hpe | reflexivity].
    + intros ps1 p ps2 _. unfold Gc.nothing_pending.
      rewrite <- app_assoc, pending_app. simpl. apply pending_from_unlinks.
  - intros Hd. apply at_unlinks_app_unlinks.
    + apply at_unlinks_other; [exact (Hw Hd) | reflexivity].
    + intros ps1 p ps2 Hps. rewrite <- app_assoc. apply owners_written_app.
      apply (Hs Hd). rewrite Hps. apply in_or_app. right. left. reflexivity.
  - intros _ p [].
Qed.

Lemma inv_writer_write all s st :
  Gc.sweep_inv live_exists all st -> Gc.sweep_inv live_exists all (Gc.writer_write pack_full s st).
Proof.
  intros Hinv. unfold Gc.writer_write.
  assert (H1 : Gc.sweep_inv live_exists all
                 (Gc.emit (Gc.EvWrite s)
                    (Gc.mkState (Gc.stale_files st) (Gc.open_pack st ++ [s]) (Gc.log st)))).
  { destruct Hinv as [Ht Ho Hp Hpe Hw Hs]. unfold Gc.emit; simpl.
    constructor; simpl.
    - unfold Gc.timely in *. rewrite timely_from_app, Ht. simpl. rewrite Ho. reflexivity.
    - rewrite closed_end_app, Ho. reflexivity.
    - rewrite pending_app, Hp. reflexivity.
    - apply at_unlinks_other; [exact Hpe | reflexivity].
    - intros Hd. apply at_unlinks_other; [exact (Hw Hd) | reflexivity].
    - intros Hd p Hin. apply owners_written_app. apply (Hs Hd). exact Hin. }
  destruct (pack_full _); [apply inv_finish_pack|]; exact H1.
Qed.

Lemma inv_rewrite_entries all shas : forall st,
  Gc.sweep_inv live_exists all st ->
  Gc.sweep_inv live_exists all (snd (Gc.rewrite_entries live_exists cat_ok pack_full shas st)).
Proof.
  induction shas as [|s rest IH]; intros st Hinv; simpl; [exact Hinv|].
  destruct (live_exists s); [|apply IH; exact Hinv].
  destruct (cat_ok s); [|exact Hinv].
  apply IH. apply inv_writer_write. exact Hinv.
Qed.

Lemma rewrite_entries_ok shas : forall st st1 st2,
  Gc.rewrite_entries live_exists cat_ok pack_full shas st = (Ok st1, st2) ->
  st1 = st2
  /\ exists l, Gc.log st1 = Gc.log st ++ l
               /\ Gc.writes_of l = filter (fun s => live_exists s = true) shas.
Proof.
  induction shas as [|s rest IH]; intros st st1 st2; simpl.
  - intros [= <- <-]. split; [reflexivity|]. exists []. rewrite app_nil_r. auto.
  - destruct (live_exists s) eqn:Hl.
    + destruct (cat_ok s); [|discriminate]. intros H.
      destruct (IH _ _ _ H) as (-> & l & Hlog & Hw). split; [reflexivity|].
      destruct (writer_write_log pack_full s st) as (l0 & Hl0 & Hw0).
      exists (l0 ++ l). split.
      * rewrite Hlog, Hl0, app_assoc. reflexivity.
      * rewrite writes_of_app, Hw0, Hw, filter_cons_True by exact Hl. reflexivity.
    + intros H. destruct (IH _ _ _ H) as (-> & l & Hlog & Hw). split; [reflexivity|].
      exists l. split; [exact Hlog|].
      rewrite filter_cons_False by (rewrite Hl; discriminate). exact Hw.
Qed.

(** Buffering a pack's files once its live entries are all written. *)
Lemma inv_mark_stale all idx st :
  In idx all ->
  (forall s, In s (Gc.shatable idx) -> live_exists s = true -> In s (Gc.writes_of (Gc.log st))) ->
  Gc.sweep_inv live_exists all st -> Gc.sweep_inv live_exists all (Gc.mark_stale idx st).
Proof.
  intros Hin Hall [Ht Ho Hp Hpe Hw Hs]. unfold Gc.mark_stale.
  constructor; simpl; auto.
  intros Hd p Hp'. apply in_app_or in Hp' as [Hp'|Hp']; [apply (Hs Hd); exact Hp'|].
  intros j s Hj Hpj Hsj Hl.
  assert (j = idx) as -> by (eapply Hd; eauto).
  apply Hall; assumption.
Qed.

Lemma count_live_zero idx s :
  Gc.count_live live_exists idx = 0 -> In s (Gc.shatable idx) -> live_exists s <> true.
Proof.
  unfold Gc.count_live. intros H Hin Hl.
  assert (Hf : s ∈ filter (fun s => live_exists s = true) (Gc.shatable idx)).
  { apply list_elem_of_filter. split; [exact Hl|]. apply list_elem_of_In. exact Hin. }
  destruct (filter _ _); [inversion Hf | simpl in H; lia].
Qed.

Lemma inv_sweep_pack all idx st :
  In idx all -> Gc.sweep_inv live_exists all st ->
  Gc.sweep_inv live_exists all (snd (Gc.sweep_pack live_exists cat_ok pack_full threshold idx st))
  /\ forall st1 st2,
       Gc.sweep_pack live_exists cat_ok pack_full threshold idx st = (Ok st1, st2) ->
       st1 = st2.
Proof.
  intros Hin Hinv. unfold Gc.sweep_pack.
  destruct (Z.eqb_spec (Gc.count_live live_exists idx) 0) as [E|_].
  - simpl. split; [|intros ? ? [= <- <-]; reflexivity].
    apply inv_mark_stale; auto.
    intros s Hs Hl. exfalso. eapply count_live_zero; eauto.
  - destruct (Gc.keeps _ _ _).
    + simpl. split; [exact Hinv | intros ? ? [= <- <-]; reflexivity].
    + pose proof (inv_rewrite_entries all (Gc.shatable idx) st Hinv) as Hr.
      destruct (Gc.rewrite_entries _ _ _ _ _) as [[st1|e] st2] eqn:Hrw; simpl in *.
      * destruct (rewrite_entries_ok _ _ _ _ Hrw) as (<- & l & Hlog & Hwr).
        split; [|intros ? ? [= <- <-]; reflexivity].
        apply inv_mark_stale; auto.
        intros s Hs Hl. rewrite Hlog, writes_of_app. apply in_or_app. right.
        rewrite Hwr. apply list_elem_of_In, list_elem_of_filter.
        split; [exact Hl | apply list_elem_of_In; exact Hs].
      * split; [exact Hr | intros ? ? [=]].
Qed.

Lemma inv_sweep_loop all idxs : forall st,
  (forall idx, In idx idxs -> In idx all) -> Gc.sweep_inv live_exists all st ->
  Gc.sweep_inv live_exists all (snd (Gc.sweep_loop live_exists cat_ok pack_full threshold idxs st))
  /\ forall st1 st2,
       Gc.sweep_loop live_exists cat_ok pack_full threshold idxs st = (Ok st1, st2) ->
       st1 = st2.
Proof.
  induction idxs as [|idx rest IH]; intros st Hsub Hinv; simpl.
  - split; [exact Hinv | intros ? ? [= <- <-]; reflexivity].
  - destruct (inv_sweep_pack all idx st (Hsub idx (or_introl eq_refl)) Hinv) as [H1 H2].
    destruct (Gc.sweep_pack _ _ _ _ _ _) as [[st1|e] st2] eqn:Hp; simpl in *.
    + rewrite (H2 _ _ eq_refl) in *. apply IH; auto.
    + split; [exact H1 | intros ? ? [=]].
Qed.

End SweepTiming.

Section SweepTimingMain.

Variable live_exists : Gc.sha -> bool.
Variable cat_ok : Gc.sha -> bool.
Variable pack_full : list Gc.sha -> bool.
Variable threshold : Z.

Lemma inv_sweep all :
  let l := Gc.log (snd (Gc.sweep live_exists cat_ok pack_full threshold all)) in
  Gc.timely l = true
  /\ Gc.at_unlinks Gc.nothing_pending l
  /\ (Gc.paths_disjoint all -> Gc.at_unlinks (Gc.owners_written live_exists all) l).
Proof.
  unfold Gc.sweep.
  destruct (inv_sweep_loop live_exists cat_ok pack_full threshold all all
              (Gc.mkState [] [] []) (fun _ H => H) (inv_init live_exists all))
    as [H1 H2].
  destruct (Gc.sweep_loop _ _ _ _ _ _) as [[st1|e] st2] eqn:Hl; simpl in *.
  - rewrite (H2 _ _ eq_refl) in *. clear H2.
    assert (Hc : Gc.sweep_inv live_exists all
                   (match Gc.open_pack st2 with
                    | [] => st2
                    | _ :: _ => Gc.finish_pack st2
                    end)).
    { destruct (Gc.open_pack st2) eqn:Ho; [exact H1 | apply inv_finish_pack; exact H1]. }
    assert (Hnil : Gc.open_pack
                     (match Gc.open_pack st2 with
                      | [] => st2
                      | _ :: _ => Gc.finish_pack st2
                      end) = []).
    { destruct (Gc.open_pack st2) eqn:Ho; [exact Ho | reflexivity]. }
    unfold Gc.writer_close.
    set (st3 := match Gc.open_pack st2 with [] => st2 | _ :: _ => Gc.finish_pack st2 end) in *.
    destruct Hc as [Ht Ho Hp Hpe Hw Hs].
    unfold Gc.remove_stale_files, Gc.emit; simpl.
    split; [|split].
    + unfold Gc.timely in *. rewrite <- app_assoc, timely_from_app, Ht. simpl.
      rewrite Ho. simpl. apply timely_from_unlinks.
    + apply at_unlinks_app_unlinks.
      * apply at_unlinks_other; [exact Hpe | reflexivity].
      * intros ps1 p ps2 _. unfold Gc.nothing_pending.
        rewrite <- app_assoc, pending_app. simpl. rewrite pending_from_unlinks.
        rewrite <- Hp. exact Hnil.
    + intros Hd. apply at_unlinks_app_unlinks.
      * apply at_unlinks_other; [exact (Hw Hd) | reflexivity].
      * intros ps1 p ps2 Hps. rewrite <- app_assoc. apply owners_written_app.
        apply (Hs Hd). rewrite Hps. apply in_or_app. right. left. reflexivity.
  - destruct H1 as [Ht _ _ Hpe Hw _]. auto.
Qed.

(** C5. In the log of a sweep, whether it ends normally or is cut short by
    an exception, every [os.unlink] directly follows the end of a pack, the
    close of the writer, or another such unlink, and nothing but unlinks
    follows the close ([Gc.timely]); at every unlink no written object sits
    in an unfinished pack.  When no two packs share a file name, every live
    object of the pack an unlinked file belongs to has been written, and so
    is in a finished pack, before the unlink. *)
Theorem unlink_only_after_pack_finish (all : list Gc.PackIdx) :
  let l := Gc.log (snd (Gc.sweep live_exists cat_ok pack_full threshold all)) in
  Gc.timely l = true
  /\ (forall l1 p l2, l = l1 ++ Gc.EvUnlink p :: l2 -> Gc.pending l1 = [])
  /\ (Gc.paths_disjoint all ->
      forall l1 p l2 idx s,
        l = l1 ++ Gc.EvUnlink p :: l2 ->
        In idx all -> In p (Gc.paths idx) ->
        In s (Gc.shatable idx) -> live_exists s = true ->
        In s (Gc.writes_of l1) /\ Gc.pending l1 = []).
Proof.
  intros l. subst l.
  destruct (inv_sweep all) as (Ht & Hpe & Hw).
  split; [exact Ht|]. split.
  - intros l1 p l2 H. exact (Hpe l1 p l2 H).
  - intros Hd l1 p l2 idx s H Hi Hp Hs Hl. split.
    + exact (Hw Hd l1 p l2 H idx s Hi Hp Hs Hl).
    + exact (Hpe l1 p l2 H).
Qed.

End SweepTimingMain.

Example timely_rejects_early_unlink :
  Gc.timely [Gc.EvWrite "a"; Gc.EvUnlink "pack-1.idx"]%string = false.
Proof. reflexivity. Qed.

Example sweep_ten_objects_log :
  Gc.log (snd (Gc.sweep all_but_j (fun _ => true) (fun _ => false) 10 [ten_objects]))
  = [Gc.EvWrite "a"; Gc.EvWrite "b"; Gc.EvWrite "c"; Gc.EvWrite "d"; Gc.EvWrite "e";
     Gc.EvWrite "f"; Gc.EvWrite "g"; Gc.EvWrite "h"; Gc.EvWrite "i";
     Gc.EvPackFinish; Gc.EvUnlink "pack-1.idx"; Gc.EvUnlink "pack-1.pack";
     Gc.EvClose]%string.
Proof. vm_compute. reflexivity. Qed.

Lemma paths_disjoint_single idx : Gc.paths_disjoint [idx].
Proof.
  intros i j p [<-|[]] [<-|[]] _ _. reflexivity.
Qed.

Lemma unlink_only_after_pack_finish_witness :
  Gc.timely (Gc.log (snd (Gc.sweep all_but_j (fun _ => true) (fun _ => false) 10
                                   [ten_objects]))) = true
  /\ (forall l1 p l2 idx s,
        Gc.log (snd (Gc.sweep all_but_j (fun _ => true) (fun _ => false) 10
                              [ten_objects]))
        = l1 ++ Gc.EvUnlink p :: l2 ->
        In idx [ten_objects] -> In p (Gc.paths idx) ->
        In s (Gc.shatable idx) -> all_but_j s = true ->
        In s (Gc.writes_of l1) /\ Gc.pending l1 = []).
Proof.
  pose proof (unlink_only_after_pack_finish all_but_j (fun _ => true) (fun _ => false)
                10 [ten_objects]) as H.
  split.
  - exact (proj1 H).
  - exact (proj2 (proj2 H) (paths_disjoint_single ten_objects)).
Defined.

(** ** The driver and the temporary BloomSet file *)

(** When the live set is built and [close()] returns, the [finally] clause
    leaves no temporary file behind, whatever happens in between. *)
Lemma main_cleans_up_after_live_set live_exists cat_ok pack_full threshold
      existing_count clear_result idxs :
  existing_count <> 0 ->
  snd (Gc.main live_exists cat_ok pack_full threshold existing_count
               (Ok tt) (Ok tt) clear_result (Ok tt) idxs)
  = Gc.mkWorld false false.
Proof.
  intros Hne. unfold Gc.main.
  destruct (Z.eqb_spec existing_count 0) as [E|_]; [contradiction|].
  reflexivity.
Qed.

(** C3 (the code departs from the claim).  One object in the repository and
    an interrupt while the refs are walked: the exception leaves
    [find_live_objects], which runs before the [try], so the driver ends with
    the temporary file still on disk and the BloomSet still open. *)
Theorem main_leaks_bloom_when_walk_is_interrupted :
  Gc.main all_but_j (fun _ => true) (fun _ => false) 10 1
          (Ok tt) (Err KeyboardInterrupt) (Ok tt) (Ok tt) [ten_objects]
  = (Err KeyboardInterrupt, Gc.mkWorld true true).
Proof. vm_compute. reflexivity. Qed.

(** ** Reading a split tree *)

Section ChunkFacts.

Variable join : Vfs.hash -> result Vfs.bytes.
Variable tree_entries : Vfs.hash -> result (list Vfs.entry).

Lemma slice_from_nonneg k s : 0 <= k -> Vfs.slice_from k s = drop (Z.to_nat k) s.
Proof. intros H. unfold Vfs.slice_from. destruct (Z.leb_spec 0 k); [reflexivity | lia]. Qed.

Lemma slice_to_nonneg k s : 0 <= k -> Vfs.slice_to k s = take (Z.to_nat k) s.
Proof. intros H. unfold Vfs.slice_to. destruct (Z.leb_spec 0 k); [reflexivity | lia]. Qed.

Lemma strictly_increasing_sorted tree :
  Vfs.strictly_increasing tree -> Vfs.is_sorted tree = true.
Proof.
  induction tree as [|[[o1 d1] s1] rest IH]; simpl; [reflexivity|].
  destruct rest as [|[[o2 d2] s2] rest']; [reflexivity|].
  intros [Hlt Hrest]. rewrite (IH Hrest), andb_true_r.
  destruct (Z.ltb_spec o1 o2); [reflexivity | lia].
Qed.

Lemma gen_bytes_then g1 g2 b1 b2 :
  Vfs.gen_bytes g1 = Ok b1 -> Vfs.gen_bytes g2 = Ok b2 ->
  Vfs.gen_bytes (Vfs.gen_then g1 g2) = Ok (b1 ++ b2).
Proof.
  revert b1. induction g1 as [|b rest IH|e]; intros b1; simpl.
  - intros [= <-] H2. exact H2.
  - destruct (Vfs.gen_bytes rest) as [bs|e] eqn:Hr; [|discriminate].
    intros [= <-] H2. rewrite (IH bs eq_refl H2), <- app_assoc. reflexivity.
  - discriminate.
Qed.

Lemma chunk_loop_cons rec o d s rest startofs :
  Vfs.chunk_loop join rec ((o, d, s) :: rest) startofs
  = Vfs.gen_then
      (if d then rec s (if startofs - o <? 0 then 0 else startofs - o)
       else match join s with
            | Ok b => Vfs.GYield
                        (Vfs.slice_from (if startofs - o <? 0 then 0 else startofs - o) b)
                        Vfs.GDone
            | Err e => Vfs.GRaise e
            end)
      (Vfs.chunk_loop join rec rest startofs).
Proof. reflexivity. Qed.

Lemma find_first_cons e o' d' s' rest startofs i :
  Vfs.find_first (e :: (o', d', s') :: rest) startofs i
  = if o' >? startofs then Some i
    else Vfs.find_first ((o', d', s') :: rest) startofs (S i).
Proof. reflexivity. Qed.

(** Rows that start at or after [startofs] are yielded whole. *)
Lemma chunk_loop_all rec startofs tree : forall parts base,
  Vfs.offsets_from base tree parts -> startofs <= base ->
  Forall2 (Vfs.entry_reads join rec) tree parts ->
  Vfs.gen_bytes (Vfs.chunk_loop join rec tree startofs) = Ok (concat parts).
Proof.
  induction tree as [|[[o d] s] rest IH]; intros parts base Hofs Hle Hall.
  - inversion Hall; subst. reflexivity.
  - inversion Hall as [|e p rest' ps He Hrest]; subst.
    destruct Hofs as [-> Hofs]. simpl.
    destruct (Z.ltb_spec (startofs - base) 0) as [_|?]; [|assert (startofs = base) by lia].
    + apply gen_bytes_then.
      * apply (He 0). lia.
      * apply (IH ps (base + Vfs.len p)); auto. unfold Vfs.len. lia.
    + subst startofs. rewrite Z.sub_diag. apply gen_bytes_then.
      * apply (He 0). lia.
      * apply (IH ps (base + Vfs.len p)); auto. unfold Vfs.len. lia.
Qed.

(** The first loop finds the row that holds [startofs], and the second
    yields the file from there. *)
Lemma chunk_loop_first rec startofs tree : forall parts base i,
  tree <> [] ->
  Vfs.offsets_from base tree parts -> base <= startofs ->
  Forall2 (Vfs.entry_reads join rec) tree parts ->
  exists first,
    Vfs.find_first tree startofs i = Some (i + first)%nat
    /\ Vfs.gen_bytes (Vfs.chunk_loop join rec (drop first tree) startofs)
       = Ok (drop (Z.to_nat (startofs - base)) (concat parts)).
Proof.
  induction tree as [|[[o d] s] rest IH]; intros parts base i Hne Hofs Hle Hall;
    [congruence|].
  inversion Hall as [|e p rest' ps He Hrest]; subst.
  destruct Hofs as [-> Hofs].
  destruct rest as [|[[o' d'] s'] rest'].
  - inversion Hrest; subst. exists 0%nat. split.
    + simpl. f_equal. lia.
    + simpl. destruct (Z.ltb_spec (startofs - base) 0); [lia|].
      rewrite app_nil_r, <- (app_nil_r (drop _ p)).
      apply gen_bytes_then; [apply (He (startofs - base)); lia | reflexivity].
  - assert (Ho' : o' = base + Vfs.len p).
    { destruct ps; simpl in Hofs; [contradiction|]. tauto. }
    rewrite find_first_cons.
    destruct (Z.gtb_spec o' startofs) as [Hgt|Hle'].
    + exists 0%nat. split; [f_equal; lia|].
      simpl drop. rewrite chunk_loop_cons.
      destruct (Z.ltb_spec (startofs - base) 0); [lia|].
      simpl concat. rewrite drop_app_le by (unfold Vfs.len in Ho'; lia).
      apply gen_bytes_then; [apply (He (startofs - base)); lia|].
      apply (chunk_loop_all rec startofs _ ps (base + Vfs.len p)); auto. lia.
    + destruct (IH ps (base + Vfs.len p) (S i) ltac:(congruence) Hofs ltac:(lia) Hrest)
        as (first & Hf & Hg).
      exists (S first). split.
      * transitivity (Some (S i + first)%nat); [exact Hf | f_equal; lia].
      * simpl drop. etransitivity; [exact Hg|].
        simpl concat. rewrite drop_app_ge by (unfold Vfs.len in *; lia).
        do 2 f_equal. unfold Vfs.len. lia.
Qed.

Lemma tree_decode_holds tree h :
  tree_entries h = Ok tree -> Vfs.strictly_increasing tree ->
  Vfs._tree_decode tree_entries h = Ok tree.
Proof.
  intros Ht Hs. unfold Vfs._tree_decode. rewrite Ht, strictly_increasing_sorted; auto.
Qed.

Lemma holds_blob d h data :
  Vfs.holds join tree_entries d h false data <-> join h = Ok data.
Proof. destruct d; simpl; tauto. Qed.

(** Run from [startofs], the generator yields the file from there on. *)
Lemma chunkiter_holds d : forall h data,
  Vfs.holds join tree_entries d h true data ->
  forall depth startofs, (d <= depth)%nat -> 0 <= startofs ->
    Vfs.gen_bytes (Vfs._chunkiter join tree_entries depth h startofs)
    = Ok (drop (Z.to_nat startofs) data).
Proof.
  induction d as [|d IH]; intros h data Hh depth startofs Hd Hs; [contradiction|].
  destruct depth as [|depth]; [lia|].
  destruct Hh as (tree & parts & Ht & Hne & Hinc & Hofs & Hall & ->).
  simpl. destruct (Z.ltb_spec startofs 0); [lia|].
  rewrite (tree_decode_holds tree h Ht Hinc).
  assert (Hreads : Forall2 (Vfs.entry_reads join (Vfs._chunkiter join tree_entries depth)) tree parts).
  { eapply Forall2_impl; [exact Hall|].
    intros [[o isdir] s] p Hp skip Hskip. simpl in *.
    destruct isdir.
    - apply IH; [exact Hp | lia | exact Hskip].
    - apply holds_blob in Hp. rewrite Hp. simpl.
      rewrite slice_from_nonneg, app_nil_r by exact Hskip. reflexivity. }
  destruct (chunk_loop_first _ startofs tree parts 0 0%nat Hne Hofs Hs Hreads)
    as (first & Hf & Hg).
  rewrite Hf. simpl. rewrite Hg, Z.sub_0_r. reflexivity.
Qed.

End ChunkFacts.

(** ** [_ChunkReader.next] *)

Section NextFacts.

Lemma truthy_false_empty blob : Vfs.truthy blob = false -> Vfs.blob_or_empty blob = [].
Proof. destruct blob as [[|c s]|]; simpl; congruence. Qed.

Lemma truthy_true_nonempty blob :
  Vfs.truthy blob = true -> (0 < length (Vfs.blob_or_empty blob))%nat.
Proof. destruct blob as [[|c s]|]; simpl; try congruence. lia. Qed.

Lemma len_app a b : Vfs.len (a ++ b) = Vfs.len a + Vfs.len b.
Proof. unfold Vfs.len. rewrite length_app. lia. Qed.

Lemma next_loop_exit fuel size it blob out :
  size <= Vfs.len out ->
  Vfs.next_loop fuel size it blob out = Some (Ok (out, it, blob)).
Proof.
  intros H. destruct fuel; simpl; destruct (Z.ltb_spec (Vfs.len out) size);
    try lia; reflexivity.
Qed.

Lemma next_loop_step fuel size it blob out :
  Vfs.len out < size ->
  Vfs.next_loop (S fuel) size it blob out
  = match Vfs.pull it blob with
    | Err e => Some (Err e)
    | Ok (it1, blob1) =>
        let '(out2, blob2) := Vfs.take_wanted size out blob1 in
        match it1 with
        | None => Some (Ok (out2, it1, blob2))
        | Some _ => Vfs.next_loop fuel size it1 blob2 out2
        end
    end.
Proof.
  intros H. simpl. destruct (Z.ltb_spec (Vfs.len out) size); [reflexivity | lia].
Qed.

(** Taking from the blob: the output grows by the first [n] bytes of the
    blob, which keeps the rest. *)
Lemma take_wanted_spec size out blob :
  Vfs.len out < size ->
  exists blob',
    Vfs.take_wanted size out blob
    = (out ++ take (Z.to_nat (size - Vfs.len out)) (Vfs.blob_or_empty blob), blob')
    /\ Vfs.blob_or_empty blob'
       = drop (Z.to_nat (size - Vfs.len out)) (Vfs.blob_or_empty blob).
Proof.
  intros H. unfold Vfs.take_wanted. destruct (Vfs.truthy blob) eqn:Ht.
  - eexists. split; [rewrite slice_to_nonneg by lia; reflexivity|].
    simpl. apply slice_from_nonneg. lia.
  - exists blob. rewrite (truthy_false_empty _ Ht), take_nil, drop_nil, app_nil_r.
    split; reflexivity.
Qed.

(** Pulling from a generator that does not raise keeps the bytes to come. *)
Lemma pull_spec it blob rg :
  Vfs.gen_opt_bytes it = Ok rg ->
  exists it1 blob1 rg1,
    Vfs.pull it blob = Ok (it1, blob1)
    /\ Vfs.gen_opt_bytes it1 = Ok rg1
    /\ Vfs.blob_or_empty blob1 ++ rg1 = Vfs.blob_or_empty blob ++ rg.
Proof.
  intros Hg. unfold Vfs.pull. destruct it as [g|].
  - destruct (Vfs.truthy blob) eqn:Ht; [exists (Some g), blob, rg; auto|].
    rewrite (truthy_false_empty _ Ht).
    destruct g as [|b rest|e]; simpl in Hg.
    + injection Hg as <-. exists None, blob, []. rewrite (truthy_false_empty _ Ht). auto.
    + destruct (Vfs.gen_bytes rest) as [bs|] eqn:Hr; [|discriminate].
      injection Hg as <-. exists (Some rest), (Some b), bs. auto.
    + discriminate.
  - exists None, blob, rg. auto.
Qed.

(** An iteration either fills the output, ends the loop, or brings the
    reader closer to the end of its generator. *)
Lemma step_progress size it blob out it1 blob1 out2 blob2 :
  Vfs.len out < size ->
  Vfs.pull it blob = Ok (it1, blob1) ->
  Vfs.take_wanted size out blob1 = (out2, blob2) ->
  it1 = None
  \/ size <= Vfs.len out2
  \/ (Vfs.loop_measure it1 blob2 < Vfs.loop_measure it blob)%nat.
Proof.
  intros Hlt Hp Ht. unfold Vfs.pull in Hp. destruct it as [g|].
  - destruct (Vfs.truthy blob) eqn:Htr.
    + injection Hp as <- <-. unfold Vfs.take_wanted in Ht. rewrite Htr in Ht.
      injection Ht as <- <-. right.
      rewrite slice_to_nonneg, slice_from_nonneg by lia.
      destruct (Z.le_gt_cases (size - Vfs.len out) (Vfs.len (Vfs.blob_or_empty blob)))
        as [Hfit|Hbig].
      * left. rewrite len_app. unfold Vfs.len in *. rewrite length_take. lia.
      * right. rewrite drop_ge by (unfold Vfs.len in *; lia).
        simpl. rewrite Htr. lia.
    + destruct g as [|b rest|e].
      * injection Hp as <- <-. left. reflexivity.
      * injection Hp as <- <-. right. right. simpl. rewrite Htr.
        destruct (Vfs.truthy blob2); lia.
      * discriminate.
  - injection Hp as <- <-. left. reflexivity.
Qed.

(** The loop ends within [Vfs.loop_fuel] iterations, whatever the generator
    does. *)
Lemma next_loop_total fuel : forall size it blob out,
  (Vfs.loop_measure it blob < fuel)%nat \/ size <= Vfs.len out ->
  Vfs.next_loop fuel size it blob out <> None.
Proof.
  induction fuel as [|fuel IH]; intros size it blob out Hm.
  - destruct Hm as [Hm|Hm]; [lia|]. rewrite next_loop_exit by exact Hm. discriminate.
  - destruct (Z.le_gt_cases size (Vfs.len out)) as [Hfull|Hlt].
    + rewrite next_loop_exit by exact Hfull. discriminate.
    + destruct Hm as [Hm|Hm]; [|lia].
      rewrite next_loop_step by lia.
      destruct (Vfs.pull it blob) as [[it1 blob1]|e] eqn:Hp; [|discriminate].
      destruct (Vfs.take_wanted size out blob1) as [out2 blob2] eqn:Ht.
      destruct (step_progress _ _ _ _ _ _ _ _ Hlt Hp Ht) as [->|[Hf|Hd]].
      * discriminate.
      * destruct it1; [|discriminate]. apply IH. right. exact Hf.
      * destruct it1; [|discriminate]. apply IH. left. lia.
Qed.

Lemma take_then_take {A} (a b : list A) n :
  take n (a ++ b) = take n a ++ take (n - length (take n a)) (drop n a ++ b).
Proof.
  destruct (Nat.le_gt_cases n (length a)) as [Hle|Hgt].
  - rewrite take_app_le by exact Hle. rewrite length_take.
    replace (n - n `min` length a)%nat with 0%nat by lia.
    rewrite take_0, app_nil_r. reflexivity.
  - rewrite take_app_ge by lia. rewrite (take_ge a) by lia.
    rewrite (drop_ge a) by lia. reflexivity.
Qed.

Lemma drop_then_drop {A} (a b : list A) n :
  drop n (a ++ b) = drop (n - length (take n a)) (drop n a ++ b).
Proof.
  destruct (Nat.le_gt_cases n (length a)) as [Hle|Hgt].
  - rewrite drop_app_le by exact Hle. rewrite length_take.
    replace (n - n `min` length a)%nat with 0%nat by lia. reflexivity.
  - rewrite drop_app_ge by lia. rewrite (take_ge a) by lia.
    rewrite (drop_ge a) by lia. reflexivity.
Qed.

(** With a generator that does not raise, the loop returns the next
    [size - len(out)] bytes of what the blob and the generator hold, and
    leaves the rest in the reader. *)
Lemma next_loop_spec fuel : forall size it blob out rg,
  Vfs.gen_opt_bytes it = Ok rg ->
  (Vfs.loop_measure it blob < fuel)%nat \/ size <= Vfs.len out ->
  exists it' blob' rg',
    Vfs.next_loop fuel size it blob out
    = Some (Ok (out ++ take (Z.to_nat (size - Vfs.len out))
                            (Vfs.blob_or_empty blob ++ rg), it', blob'))
    /\ Vfs.gen_opt_bytes it' = Ok rg'
    /\ Vfs.blob_or_empty blob' ++ rg'
       = drop (Z.to_nat (size - Vfs.len out)) (Vfs.blob_or_empty blob ++ rg).
Proof.
  assert (Hexit : forall fuel size it blob out rg,
    Vfs.gen_opt_bytes it = Ok rg -> size <= Vfs.len out ->
    exists it' blob' rg',
      Vfs.next_loop fuel size it blob out
      = Some (Ok (out ++ take (Z.to_nat (size - Vfs.len out))
                              (Vfs.blob_or_empty blob ++ rg), it', blob'))
      /\ Vfs.gen_opt_bytes it' = Ok rg'
      /\ Vfs.blob_or_empty blob' ++ rg'
         = drop (Z.to_nat (size - Vfs.len out)) (Vfs.blob_or_empty blob ++ rg)).
  { intros f size it blob out rg Hg Hfull. exists it, blob, rg.
    rewrite next_loop_exit by exact Hfull.
    replace (Z.to_nat (size - Vfs.len out)) with 0%nat by lia.
    rewrite take_0, app_nil_r. auto. }
  induction fuel as [|fuel IH]; intros size it blob out rg Hg Hm.
  - destruct Hm as [Hm|Hm]; [lia|]. apply Hexit; assumption.
  - destruct (Z.le_gt_cases size (Vfs.len out)) as [Hfull|Hlt];
      [apply Hexit; assumption|].
    destruct Hm as [Hm|Hm]; [|lia].
    rewrite next_loop_step by lia.
    destruct (pull_spec it blob rg Hg) as (it1 & blob1 & rg1 & Hp & Hg1 & Hb1).
    rewrite Hp. rewrite <- Hb1.
    destruct (take_wanted_spec size out blob1 Hlt) as (blob2 & Ht & Hb2).
    rewrite Ht.
    set (n := Z.to_nat (size - Vfs.len out)) in *.
    assert (Hn2 : Z.to_nat (size - Vfs.len (out ++ take n (Vfs.blob_or_empty blob1)))
                  = (n - length (take n (Vfs.blob_or_empty blob1)))%nat).
    { rewrite len_app. unfold Vfs.len in *. lia. }
    destruct it1 as [g1|].
    + destruct (step_progress _ _ _ _ _ _ _ _ Hlt Hp Ht) as [Hn|Hprog];
        [discriminate|].
      destruct (IH size (Some g1) blob2 (out ++ take n (Vfs.blob_or_empty blob1)) rg1 Hg1)
        as (it' & blob' & rg' & Hr & Hg' & Hb').
      { destruct Hprog as [Hf|Hd]; [right; exact Hf | left; lia]. }
      exists it', blob', rg'. rewrite Hr, Hb', Hb2, Hn2.
      rewrite <- app_assoc, <- take_then_take, <- drop_then_drop. auto.
    + simpl in Hg1. injection Hg1 as <-. exists None, blob2, [].
      rewrite !app_nil_r, Hb2. auto.
Qed.

End NextFacts.

(** ** Sizes and fresh chunk readers *)

Section ReaderFacts.

Variable join : Vfs.hash -> result Vfs.bytes.
Variable tree_entries : Vfs.hash -> result (list Vfs.entry).
Variable depth_limit : nat.

Lemma ChunkReader_next_spec r size rest :
  Vfs.cr_rest r = Ok rest ->
  exists r',
    Vfs.ChunkReader_next r size = Ok (take (Z.to_nat size) rest, r')
    /\ Vfs.cr_rest r' = Ok (drop (Z.to_nat size) rest)
    /\ Vfs.cr_ofs r' = Vfs.cr_ofs r + Vfs.len (take (Z.to_nat size) rest).
Proof.
  unfold Vfs.cr_rest, Vfs.ChunkReader_next. intros Hr.
  destruct (Vfs.gen_opt_bytes (Vfs.cr_it r)) as [rg|] eqn:Hg; [|discriminate].
  injection Hr as <-.
  destruct (next_loop_spec (Vfs.loop_fuel (Vfs.cr_it r)) size (Vfs.cr_it r)
              (Vfs.cr_blob r) [] rg Hg) as (it' & blob' & rg' & Hn & Hg' & Hb').
  { left. unfold Vfs.loop_fuel, Vfs.loop_measure.
    destruct (Vfs.cr_it r); [destruct (Vfs.truthy _)|]; lia. }
  rewrite Hn. change (Vfs.len []) with 0 in *. rewrite Z.sub_0_r in *.
  simpl app. eexists. split; [reflexivity|]. simpl. rewrite Hg', Hb'. auto.
Qed.

(** Whatever the store holds, [next] never runs out of iterations. *)
Lemma ChunkReader_next_total r size :
  Vfs.next_loop (Vfs.loop_fuel (Vfs.cr_it r)) size (Vfs.cr_it r) (Vfs.cr_blob r) []
  <> None.
Proof.
  apply next_loop_total. left. unfold Vfs.loop_fuel, Vfs.loop_measure.
  destruct (Vfs.cr_it r); [destruct (Vfs.truthy _)|]; lia.
Qed.

(** The last row of a well-formed tree ends where the file ends. *)
Lemma last_row_ends_file (R : Vfs.entry -> Vfs.bytes -> Prop) tree :
  forall parts base,
    tree <> [] -> Vfs.offsets_from base tree parts -> Forall2 R tree parts ->
    exists o isdir s p,
      last tree = Some (o, isdir, s)
      /\ R (o, isdir, s) p
      /\ o + Vfs.len p = base + Vfs.len (concat parts).
Proof.
  induction tree as [|[[o d] s] rest IH]; intros parts base Hne Hofs Hall; [congruence|].
  inversion Hall as [|e p rest' ps He Hrest]; subst.
  destruct Hofs as [-> Hofs].
  destruct rest as [|e' rest'].
  - inversion Hrest; subst. exists base, d, s, p. simpl.
    rewrite app_nil_r. auto.
  - destruct (IH ps (base + Vfs.len p) ltac:(congruence) Hofs Hrest)
      as (o & isd & s0 & p0 & Hl & HR & Hlen).
    exists o, isd, s0, p0. split; [|split; [exact HR|]].
    + rewrite last_cons, Hl. reflexivity.
    + simpl concat. rewrite len_app. lia.
Qed.

Lemma last_chunk_info_holds d : forall h data,
  Vfs.holds join tree_entries d h true data ->
  forall depth, (d <= depth)%nat ->
    exists lastofs lastsize,
      Vfs._last_chunk_info join tree_entries depth h = Ok (lastofs, lastsize)
      /\ lastofs + lastsize = Vfs.len data.
Proof.
  induction d as [|d IH]; intros h data Hh depth Hd; [contradiction|].
  destruct depth as [|depth]; [lia|].
  destruct Hh as (tree & parts & Ht & Hne & Hinc & Hofs & Hall & ->).
  simpl. rewrite (tree_decode_holds tree_entries tree h Ht Hinc).
  destruct (last_row_ends_file _ tree parts 0 Hne Hofs Hall)
    as (o & isd & s & p & Hl & HR & Hlen).
  rewrite Hl. simpl in HR. destruct isd.
  - destruct (IH s p HR depth ltac:(lia)) as (so & sl & Hs & Hsum).
    rewrite Hs. exists (o + so), sl. split; [reflexivity | lia].
  - apply holds_blob in HR. unfold Vfs._chunk_len. rewrite HR.
    exists o, (Vfs.len p). split; [reflexivity | lia].
Qed.

Lemma total_size_holds d h data :
  Vfs.holds join tree_entries d h true data -> (d <= depth_limit)%nat ->
  Vfs._total_size join tree_entries depth_limit h = Ok (Vfs.len data).
Proof.
  intros Hh Hd. unfold Vfs._total_size.
  destruct (last_chunk_info_holds d h data Hh depth_limit Hd) as (lo & ls & -> & <-).
  reflexivity.
Qed.

Lemma ChunkReader_init_holds d h isdir data ofs :
  Vfs.holds join tree_entries d h isdir data -> (d <= depth_limit)%nat ->
  0 <= ofs ->
  exists cr,
    Vfs.ChunkReader_init join tree_entries depth_limit h isdir ofs = Ok cr
    /\ Vfs.cr_ofs cr = ofs
    /\ Vfs.cr_rest cr = Ok (drop (Z.to_nat ofs) data).
Proof.
  intros Hh Hd Hofs. unfold Vfs.ChunkReader_init. destruct isdir.
  - eexists. split; [reflexivity|]. split; [reflexivity|].
    unfold Vfs.cr_rest. simpl.
    rewrite (chunkiter_holds join tree_entries d h data Hh depth_limit ofs Hd Hofs).
    reflexivity.
  - apply holds_blob in Hh. rewrite Hh. eexists. split; [reflexivity|].
    split; [reflexivity|]. unfold Vfs.cr_rest. simpl.
    rewrite slice_from_nonneg, app_nil_r by exact Hofs. reflexivity.
Qed.

End ReaderFacts.

(** ** [_FileReader]: seek and read *)

Lemma len_nonneg a : 0 <= Vfs.len a.
Proof. unfold Vfs.len. lia. Qed.

Lemma seek_tell r ofs :
  0 <= Vfs.fr_size r ->
  Vfs.tell (Vfs.seek r ofs) = Z.min (Z.max ofs 0) (Vfs.fr_size r).
Proof.
  intros Hs. unfold Vfs.seek, Vfs.tell.
  destruct (Z.gtb_spec ofs (Vfs.fr_size r)); simpl; [lia|].
  destruct (Z.ltb_spec ofs 0); simpl; lia.
Qed.

Section FileReaderFacts.

Variable join : Vfs.hash -> result Vfs.bytes.
Variable tree_entries : Vfs.hash -> result (list Vfs.entry).
Variable depth_limit : nat.

Variable d : nat.
Variable h : Vfs.hash.
Variable isdir : bool.
Variable content : Vfs.bytes.

Hypothesis Hholds : Vfs.holds join tree_entries d h isdir content.
Hypothesis Hdepth : (d <= depth_limit)%nat.

Lemma reader_ok_init : Vfs.reader_ok h isdir content (Vfs.FileReader_init h (Vfs.len content) isdir).
Proof.
  constructor; simpl; auto; try discriminate. pose proof (len_nonneg content). lia.
Qed.

Lemma reader_ok_seek r ofs : Vfs.reader_ok h isdir content r -> Vfs.reader_ok h isdir content (Vfs.seek r ofs).
Proof.
  intros [Hh Hi Hs Ho Hr]. pose proof (len_nonneg content).
  unfold Vfs.seek.
  destruct (Z.gtb_spec ofs (Vfs.fr_size r)); [|destruct (Z.ltb_spec ofs 0)];
    constructor; simpl; auto; lia.
Qed.

(** [read] returns the next bytes of the file and moves on by as many. *)
Lemma read_ok r count :
  Vfs.reader_ok h isdir content r ->
  let n := if count <? 0 then Vfs.fr_size r - Vfs.fr_ofs r else count in
  exists r',
    Vfs.read join tree_entries depth_limit r count
    = (Ok (take (Z.to_nat n) (drop (Z.to_nat (Vfs.fr_ofs r)) content)), r')
    /\ Vfs.fr_ofs r'
       = Vfs.fr_ofs r
         + Vfs.len (take (Z.to_nat n) (drop (Z.to_nat (Vfs.fr_ofs r)) content))
    /\ Vfs.reader_ok h isdir content r'.
Proof.
  intros [Hh Hi Hs Ho Hr] n. unfold Vfs.read. fold n.
  assert (Hmade : exists cr,
             match Vfs.fr_reader r with
             | Some cr =>
                 if Vfs.cr_ofs cr =? Vfs.fr_ofs r then Ok cr
                 else Vfs.ChunkReader_init join tree_entries depth_limit
                        (Vfs.fr_hash r) (Vfs.fr_isdir r) (Vfs.fr_ofs r)
             | None => Vfs.ChunkReader_init join tree_entries depth_limit
                         (Vfs.fr_hash r) (Vfs.fr_isdir r) (Vfs.fr_ofs r)
             end = Ok cr
             /\ Vfs.cr_ofs cr = Vfs.fr_ofs r
             /\ Vfs.cr_rest cr = Ok (drop (Z.to_nat (Vfs.fr_ofs r)) content)).
  { rewrite Hh, Hi.
    pose proof (ChunkReader_init_holds join tree_entries depth_limit d h isdir content
                  (Vfs.fr_ofs r) Hholds Hdepth (proj1 Ho)) as Hinit.
    destruct (Vfs.fr_reader r) as [cr|] eqn:Hcr; [|exact Hinit].
    destruct (Z.eqb_spec (Vfs.cr_ofs cr) (Vfs.fr_ofs r)) as [E|_]; [|exact Hinit].
    exists cr. destruct (Hr cr eq_refl) as [_ Hrest]. rewrite <- E. auto. }
  destruct Hmade as (cr & -> & Hcofs & Hrest). clearbody n.
  destruct (ChunkReader_next_spec cr n _ Hrest) as (cr' & Hn & Hrest' & Hofs').
  rewrite Hn. eexists. split; [reflexivity|]. split; [reflexivity|].
  set (buf := take (Z.to_nat n) (drop (Z.to_nat (Vfs.fr_ofs r)) content)) in *.
  assert (Hbuf : Vfs.len buf <= Vfs.len content - Vfs.fr_ofs r).
  { unfold buf, Vfs.len in *. rewrite length_take, length_drop. clear - Ho. lia. }
  pose proof (len_nonneg buf).
  constructor; simpl; auto; [lia|].
  intros cr0 [= <-]. rewrite Hofs', Hcofs. split; [lia|].
  rewrite Hrest'. f_equal. rewrite drop_drop.
  unfold buf, Vfs.len in *. rewrite length_take, length_drop in *.
  destruct (Nat.le_gt_cases (Z.to_nat n) (length content - Z.to_nat (Vfs.fr_ofs r)))
    as [Hle|Hgt].
  - f_equal. lia.
  - rewrite !drop_ge by lia. reflexivity.
Qed.

Lemma reachable_ok r :
  Vfs.reachable join tree_entries depth_limit h (Vfs.len content) isdir r ->
  Vfs.reader_ok h isdir content r.
Proof.
  induction 1 as [|r ofs _ IH|r count _ IH].
  - apply reader_ok_init.
  - apply reader_ok_seek. exact IH.
  - destruct (read_ok r count IH) as (r' & Hr & _ & Hok). rewrite Hr. exact Hok.
Qed.

(** C7. For a reader of a file of size [s] in any state it can reach:
    [seek(ofs)] leaves the position at [min(max(ofs, 0), s)]; [read(count)]
    at position [p] returns, without raising, bytes of the file that follow
    [p] and advances the position by their number; with [0 <= count] these
    are [min(count, s - p)] bytes, at most [count] and none when [p] is the
    end of the file; a negative [count] stands for all the [s - p] bytes
    that are left. *)
Theorem filereader_seek_and_read (r : Vfs.FileReader) (ofs count : Z) :
  Vfs.reachable join tree_entries depth_limit h (Vfs.len content) isdir r ->
  Vfs.tell (Vfs.seek r ofs) = Z.min (Z.max ofs 0) (Vfs.fr_size r)
  /\ exists buf r',
      Vfs.read join tree_entries depth_limit r count = (Ok buf, r')
      /\ Vfs.tell r' = Vfs.tell r + Vfs.len buf
      /\ (0 <= count ->
          buf = take (Z.to_nat count) (drop (Z.to_nat (Vfs.tell r)) content)
          /\ Vfs.len buf = Z.min count (Vfs.fr_size r - Vfs.tell r)
          /\ Vfs.len buf <= count)
      /\ (count < 0 ->
          buf = drop (Z.to_nat (Vfs.tell r)) content
          /\ Vfs.len buf = Vfs.fr_size r - Vfs.tell r).
Proof.
  intros Hreach. pose proof (reachable_ok r Hreach) as Hok.
  pose proof (len_nonneg content) as Hlen.
  pose proof (Vfs.ok_size h isdir content r Hok) as Hsize.
  destruct (Vfs.ok_ofs h isdir content r Hok) as [H0 H1].
  split.
  - apply seek_tell. rewrite Hsize. exact Hlen.
  - destruct (read_ok r count Hok) as (r' & Hr & Hofs & _). cbv zeta in Hr, Hofs.
    eexists _, r'. split; [exact Hr|]. split; [exact Hofs|].
    unfold Vfs.tell, Vfs.len in *. split.
    + intros Hc. destruct (Z.ltb_spec count 0) as [?|_]; [lia|].
      split; [reflexivity|]. rewrite length_take, length_drop. lia.
    + intros Hc. destruct (Z.ltb_spec count 0) as [_|?]; [|lia].
      rewrite take_ge by (rewrite length_drop; lia).
      split; [reflexivity|]. rewrite length_drop. lia.
Qed.

End FileReaderFacts.

Lemma demo_holds : Vfs.holds demo_join demo_tree 2 "root" true demo_content.
Proof.
  exists [(0, true, "t1"); (7, false, "b3"); (10, false, "b4")]%string,
         [list_ascii_of_string "abcdefg"; list_ascii_of_string "hij";
          list_ascii_of_string "klmno"].
  split; [reflexivity|]. split; [discriminate|]. split; [simpl; lia|].
  split; [simpl; unfold Vfs.len; simpl; lia|]. split; [|reflexivity].
  constructor; [|constructor; [reflexivity|constructor; [reflexivity|constructor]]].
  exists [(0, false, "b1"); (4, false, "b2")]%string,
         [list_ascii_of_string "abcd"; list_ascii_of_string "efg"].
  split; [reflexivity|]. split; [discriminate|]. split; [simpl; lia|].
  split; [simpl; unfold Vfs.len; simpl; lia|]. split; [|reflexivity].
  constructor; [reflexivity|constructor; [reflexivity|constructor]].
Qed.

Lemma filereader_seek_and_read_witness :
  Vfs.tell (Vfs.seek (Vfs.seek (Vfs.FileReader_init "root" 15 true) 3) 40) = 15
  /\ exists buf r',
      Vfs.read demo_join demo_tree 10
               (Vfs.seek (Vfs.FileReader_init "root" 15 true) 3) 6 = (Ok buf, r')
      /\ Vfs.tell r' = 3 + Vfs.len buf
      /\ (0 <= 6 ->
          buf = list_ascii_of_string "defghi"
          /\ Vfs.len buf = 6
          /\ Vfs.len buf <= 6)
      /\ (6 < 0 ->
          buf = list_ascii_of_string "defghijklmno"
          /\ Vfs.len buf = 12).
Proof.
  exact (filereader_seek_and_read demo_join demo_tree 10 2 "root" true demo_content
           demo_holds ltac:(lia)
           (Vfs.seek (Vfs.FileReader_init "root" 15 true) 3) 40 6
           (Vfs.reach_seek demo_join demo_tree 10 "root" 15 true _ 3
              (Vfs.reach_init demo_join demo_tree 10 "root" 15 true))).
Defined.

(** ** [File.open] and the cached reader *)

Section FileFacts.

Variable join : Vfs.hash -> result Vfs.bytes.
Variable tree_entries : Vfs.hash -> result (list Vfs.entry).
Variable depth_limit : nat.

Lemma lookup_snoc_new {A} (l : list A) x : (l ++ [x]) !! length l = Some x.
Proof. rewrite lookup_app_r by lia. rewrite Nat.sub_diag. reflexivity. Qed.

Lemma seek_size r ofs : Vfs.fr_size (Vfs.seek r ofs) = Vfs.fr_size r.
Proof.
  unfold Vfs.seek. destruct (_ >? _); [reflexivity|]. destruct (_ <? _); reflexivity.
Qed.

Lemma read_size r count :
  Vfs.fr_size (snd (Vfs.read join tree_entries depth_limit r count)) = Vfs.fr_size r.
Proof.
  unfold Vfs.read.
  destruct (match Vfs.fr_reader r with Some _ => _ | None => _ end) as [cr|e];
    [|reflexivity].
  destruct (Vfs.ChunkReader_next cr _) as [[buf cr']|e]; reflexivity.
Qed.

Lemma seek_zero r : 0 <= Vfs.fr_size r -> Vfs.tell (Vfs.seek r 0) = 0.
Proof. intros H. rewrite seek_tell by exact H. lia. Qed.

(** Calls through a reference leave the object alive and its size as it
    was. *)
Lemma run_ops_alive ops : forall hp ref r,
  hp !! ref = Some r ->
  exists r', Vfs.run_ops join tree_entries depth_limit hp ref ops !! ref = Some r'
             /\ Vfs.fr_size r' = Vfs.fr_size r.
Proof.
  induction ops as [|o ops IH]; intros hp ref r Hr; simpl.
  - exists r. auto.
  - assert (Hlt : (ref < length hp)%nat) by (eapply lookup_lt_Some; eauto).
    destruct o as [ofs|count].
    + unfold Vfs.seek_at. rewrite Hr.
      destruct (IH (<[ref := Vfs.seek r ofs]> hp) ref (Vfs.seek r ofs)) as (r' & H1 & H2).
      { apply list_lookup_insert_eq. exact Hlt. }
      exists r'. split; [exact H1|]. rewrite H2. apply seek_size.
    + unfold Vfs.read_at. rewrite Hr.
      pose proof (read_size r count) as Hs.
      destruct (Vfs.read join tree_entries depth_limit r count) as [res r1]. simpl in *.
      destruct (IH (<[ref := r1]> hp) ref r1) as (r' & H1 & H2).
      { apply list_lookup_insert_eq. exact Hlt. }
      exists r'. split; [exact H1|]. rewrite H2. exact Hs.
Qed.

(** Opening a file whose reader is cached: the same reference, rewound. *)
Lemma open_cached hp f ref r :
  Vfs.f_filereader f = Some ref -> hp !! ref = Some r ->
  Vfs.File_open join tree_entries depth_limit hp f
  = (Ok ref, <[ref := Vfs.seek r 0]> hp, f)
  /\ (<[ref := Vfs.seek r 0]> hp) !! ref = Some (Vfs.seek r 0).
Proof.
  intros Hf Hr. unfold Vfs.File_open. rewrite Hf, Hr. split; [reflexivity|].
  apply list_lookup_insert_eq. eapply lookup_lt_Some; eauto.
Qed.

(** Opening a file for the first time: a new reader object, cached. *)
Lemma open_fresh hp f s f1 :
  Vfs.f_filereader f = None ->
  Vfs.File_size join tree_entries depth_limit f = (Ok s, f1) ->
  let r0 := Vfs.FileReader_init (Vfs.f_hash f) s (Vfs.is_chunked (Vfs.f_bupmode f)) in
  let f2 := Vfs.mkFile (Vfs.f_hash f1) (Vfs.f_bupmode f1) (Vfs.f_cached_size f1)
                       (Some (length hp)) in
  Vfs.File_open join tree_entries depth_limit hp f
  = (Ok (length hp), <[length hp := Vfs.seek r0 0]> (hp ++ [r0]), f2)
  /\ (<[length hp := Vfs.seek r0 0]> (hp ++ [r0])) !! length hp = Some (Vfs.seek r0 0).
Proof.
  intros Hf Hs r0 f2. unfold Vfs.File_open. rewrite Hf, Hs.
  fold r0. rewrite lookup_snoc_new. split; [reflexivity|].
  apply list_lookup_insert_eq. rewrite length_app. simpl. lia.
Qed.

(** C10. [open()] on a [File] whose size is no negative number returns a
    reader at offset 0 and caches it; after any calls on that reader, the
    next [open()] of the file returns the same reader object, at offset 0
    again. *)
Theorem open_rewinds_the_cached_reader (hp : list Vfs.FileReader) (f : Vfs.File) :
  Vfs.cache_ok hp f ->
  (Vfs.f_filereader f = None ->
   exists s, fst (Vfs.File_size join tree_entries depth_limit f) = Ok s /\ 0 <= s) ->
  exists ref hp1 f1,
    Vfs.File_open join tree_entries depth_limit hp f = (Ok ref, hp1, f1)
    /\ Vfs.tell_at hp1 ref = Some 0
    /\ Vfs.f_filereader f1 = Some ref
    /\ forall ops,
         exists hp3,
           Vfs.File_open join tree_entries depth_limit
                         (Vfs.run_ops join tree_entries depth_limit hp1 ref ops) f1
           = (Ok ref, hp3, f1)
           /\ Vfs.tell_at hp3 ref = Some 0.
Proof.
  intros Hcache Hsize.
  assert (Hopen : exists ref hp1 f1 r1,
             Vfs.File_open join tree_entries depth_limit hp f = (Ok ref, hp1, f1)
             /\ hp1 !! ref = Some r1 /\ Vfs.tell r1 = 0 /\ 0 <= Vfs.fr_size r1
             /\ Vfs.f_filereader f1 = Some ref).
  { destruct (Vfs.f_filereader f) as [ref|] eqn:Hf.
    - destruct (Hcache ref Hf) as (r & Hr & Hs).
      destruct (open_cached hp f ref r Hf Hr) as [Ho Hl].
      exists ref, (<[ref := Vfs.seek r 0]> hp), f, (Vfs.seek r 0).
      rewrite seek_size. auto using seek_zero.
    - destruct (Hsize eq_refl) as (s & Hs & Hnn).
      destruct (Vfs.File_size join tree_entries depth_limit f) as [res f1] eqn:Hfs.
      simpl in Hs. subst res.
      destruct (open_fresh hp f s f1 Hf Hfs) as [Ho Hl].
      eexists _, _, _, _. split; [exact Ho|]. split; [exact Hl|].
      rewrite seek_size. simpl. split; [apply seek_zero; exact Hnn|]. auto. }
  destruct Hopen as (ref & hp1 & f1 & r1 & Ho & Hl & Ht & Hs & Hf1).
  exists ref, hp1, f1. split; [exact Ho|]. split.
  { unfold Vfs.tell_at. rewrite Hl, Ht. reflexivity. }
  split; [exact Hf1|]. intros ops.
  destruct (run_ops_alive ops hp1 ref r1 Hl) as (r2 & Hl2 & Hs2).
  destruct (open_cached _ f1 ref r2 Hf1 Hl2) as [Ho2 Hl3].
  eexists. split; [exact Ho2|].
  unfold Vfs.tell_at. rewrite Hl3, seek_zero by lia. reflexivity.
Qed.

Lemma file_size_holds d h content hp f :
  Vfs.holds join tree_entries d h true content -> (d <= depth_limit)%nat ->
  Vfs.file_state_ok join tree_entries depth_limit h Vfs.BUP_CHUNKED
                    (Vfs.len content) hp f ->
  exists f1, Vfs.File_size join tree_entries depth_limit f = (Ok (Vfs.len content), f1)
             /\ Vfs.f_hash f1 = h.
Proof.
  intros Hh Hd (Hhash & Hmode & Hsize & _). unfold Vfs.File_size.
  destruct (Vfs.f_cached_size f) as [s|] eqn:Hc.
  - rewrite (Hsize s eq_refl). exists f. auto.
  - rewrite Hmode, Hhash. simpl.
    rewrite (total_size_holds join tree_entries depth_limit d h content Hh Hd).
    eexists. split; reflexivity.
Qed.

(** C1. For a CHUNKED file whose split tree is well formed, with content
    [content] (the leaves in offset order): [open()] succeeds, [size()] is the
    length of the content, and for all [0 <= a <= b <= size], [seek(a)] and
    then [read(b - a)] on the reader returns the bytes [[a, b)] of the
    content, however many rows of the tree the range crosses. *)
Theorem chunked_seek_then_read (d : nat) (h : Vfs.hash) (content : Vfs.bytes)
        (hp : list Vfs.FileReader) (f : Vfs.File) :
  Vfs.holds join tree_entries d h true content -> (d <= depth_limit)%nat ->
  Vfs.file_state_ok join tree_entries depth_limit h Vfs.BUP_CHUNKED
                    (Vfs.len content) hp f ->
  exists ref hp1 f1,
    Vfs.File_open join tree_entries depth_limit hp f = (Ok ref, hp1, f1)
    /\ fst (Vfs.File_size join tree_entries depth_limit f) = Ok (Vfs.len content)
    /\ forall a b, 0 <= a -> a <= b -> b <= Vfs.len content ->
         fst (Vfs.read_at join tree_entries depth_limit
                          (Vfs.seek_at hp1 ref a) ref (b - a))
         = Ok (take (Z.to_nat (b - a)) (drop (Z.to_nat a) content)).
Proof.
  intros Hh Hd Hok.
  destruct (file_size_holds d h content hp f Hh Hd Hok) as (fs & Hfs & Hfsh).
  assert (Hopen : exists ref hp1 f1 r1,
             Vfs.File_open join tree_entries depth_limit hp f = (Ok ref, hp1, f1)
             /\ hp1 !! ref = Some r1
             /\ Vfs.reachable join tree_entries depth_limit h (Vfs.len content) true r1).
  { destruct Hok as (Hhash & Hmode & Hsize & Hreader).
    destruct (Vfs.f_filereader f) as [ref|] eqn:Hf.
    - destruct (Hreader ref eq_refl) as (r & Hr & Hreach).
      destruct (open_cached hp f ref r Hf Hr) as [Ho Hl].
      exists ref, (<[ref := Vfs.seek r 0]> hp), f, (Vfs.seek r 0).
      split; [exact Ho|]. split; [exact Hl|]. apply Vfs.reach_seek. exact Hreach.
    - destruct (open_fresh hp f _ fs Hf Hfs) as [Ho Hl].
      rewrite Hhash, Hmode in Ho, Hl. simpl in Ho, Hl.
      eexists _, _, _, _. split; [exact Ho|]. split; [exact Hl|].
      apply Vfs.reach_seek, Vfs.reach_init. }
  destruct Hopen as (ref & hp1 & f1 & r1 & Ho & Hl & Hreach).
  exists ref, hp1, f1. split; [exact Ho|]. split; [rewrite Hfs; reflexivity|].
  intros a b Ha Hab Hb.
  assert (Hlt : (ref < length hp1)%nat) by (eapply lookup_lt_Some; eauto).
  unfold Vfs.seek_at, Vfs.read_at. rewrite Hl.
  rewrite list_lookup_insert_eq by exact Hlt.
  pose proof (reachable_ok join tree_entries depth_limit d h true content Hh Hd
                (Vfs.seek r1 a) (Vfs.reach_seek _ _ _ _ _ _ _ a Hreach)) as Hrok.
  destruct (read_ok join tree_entries depth_limit d h true content Hh Hd
              (Vfs.seek r1 a) (b - a) Hrok) as (r' & Hr & _).
  cbv zeta in Hr. destruct (Z.ltb_spec (b - a) 0) as [?|_]; [lia|].
  rewrite Hr. simpl. do 3 f_equal. change (Vfs.fr_ofs (Vfs.seek r1 a)) with (Vfs.tell (Vfs.seek r1 a)).
  rewrite seek_tell.
  - rewrite (Vfs.ok_size h true content r1
               (reachable_ok join tree_entries depth_limit d h true content Hh Hd r1 Hreach)).
    lia.
  - rewrite (Vfs.ok_size h true content r1
               (reachable_ok join tree_entries depth_limit d h true content Hh Hd r1 Hreach)).
    apply len_nonneg.
Qed.

End FileFacts.

Lemma demo_file_ok :
  Vfs.file_state_ok demo_join demo_tree 10 "root" Vfs.BUP_CHUNKED
                    (Vfs.len demo_content) [] demo_file.
Proof.
  split; [reflexivity|]. split; [reflexivity|].
  split; intros ? H; discriminate H.
Qed.

Lemma chunked_seek_then_read_witness :
  exists ref hp1 f1,
    Vfs.File_open demo_join demo_tree 10 [] demo_file = (Ok ref, hp1, f1)
    /\ fst (Vfs.File_size demo_join demo_tree 10 demo_file) = Ok (Vfs.len demo_content)
    /\ forall a b, 0 <= a -> a <= b -> b <= Vfs.len demo_content ->
         fst (Vfs.read_at demo_join demo_tree 10 (Vfs.seek_at hp1 ref a) ref (b - a))
         = Ok (take (Z.to_nat (b - a)) (drop (Z.to_nat a) demo_content)).
Proof.
  exact (chunked_seek_then_read demo_join demo_tree 10 2 "root" demo_content []
           demo_file demo_holds ltac:(lia) demo_file_ok).
Defined.

(** Bytes 5 to 12 of the example file lie in three of its four blobs. *)
Example demo_read_across_chunks :
  match Vfs.File_open demo_join demo_tree 10 [] demo_file with
  | (Ok ref, hp1, _) =>
      fst (Vfs.read_at demo_join demo_tree 10 (Vfs.seek_at hp1 ref 5) ref 7)
  | (Err e, _, _) => Err e
  end = Ok (list_ascii_of_string "fghijkl").
Proof. vm_compute. reflexivity. Qed.

Lemma demo_cache_ok : Vfs.cache_ok [] demo_file.
Proof. intros ref H. discriminate H. Qed.

Lemma demo_file_size :
  Vfs.f_filereader demo_file = None ->
  exists s, fst (Vfs.File_size demo_join demo_tree 10 demo_file) = Ok s /\ 0 <= s.
Proof. intros _. exists 15. split; [vm_compute; reflexivity | lia]. Qed.

Lemma open_rewinds_the_cached_reader_witness :
  exists ref hp1 f1,
    Vfs.File_open demo_join demo_tree 10 [] demo_file = (Ok ref, hp1, f1)
    /\ Vfs.tell_at hp1 ref = Some 0
    /\ Vfs.f_filereader f1 = Some ref
    /\ forall ops,
         exists hp3,
           Vfs.File_open demo_join demo_tree 10
                         (Vfs.run_ops demo_join demo_tree 10 hp1 ref ops) f1
           = (Ok ref, hp3, f1)
           /\ Vfs.tell_at hp3 ref = Some 0.
Proof.
  exact (open_rewinds_the_cached_reader demo_join demo_tree 10 [] demo_file
           demo_cache_ok demo_file_size).
Defined.

(** A reader moved to offset 9 by a seek and a read is back at 0 once the
    file is opened again, and both opens return reference 0. *)
Example demo_second_open_rewinds :
  match Vfs.File_open demo_join demo_tree 10 [] demo_file with
  | (Ok ref, hp1, f1) =>
      let hp2 := Vfs.run_ops demo_join demo_tree 10 hp1 ref
                             [Vfs.OpSeek 5; Vfs.OpRead 4] in
      match Vfs.File_open demo_join demo_tree 10 hp2 f1 with
      | (Ok ref', hp3, _) =>
          (ref, ref', Vfs.tell_at hp2 ref, Vfs.tell_at hp3 ref)
      | (Err _, _, _) => (0%nat, 1%nat, None, None)
      end
  | (Err _, _, _) => (0%nat, 1%nat, None, None)
  end = (0%nat, 0%nat, Some 9, Some 0).
Proof. vm_compute. reflexivity. Qed.

(** ** Path resolution *)

Section ResolveFacts.

Variable fs : Resolve.nid -> Resolve.node.

Lemma lresolve_symlink depth n parts symrefs :
  Resolve.is_symlink (Resolve.cls (fs n)) = true ->
  Resolve._lresolve fs (S depth) n parts symrefs
  = match Resolve.dereference fs depth n symrefs with
    | (Ok t, symrefs1) => Resolve._lresolve fs depth t parts symrefs1
    | (Err e, symrefs1) => (Err e, symrefs1)
    end.
Proof. intros H. simpl. rewrite H. reflexivity. Qed.

Lemma lresolve_done depth n symrefs :
  Resolve.is_symlink (Resolve.cls (fs n)) = false ->
  Resolve._lresolve fs (S depth) n [] symrefs = (Ok n, symrefs).
Proof. intros H. simpl. rewrite H. reflexivity. Qed.

Lemma lresolve_dot depth n rest symrefs :
  Resolve.is_symlink (Resolve.cls (fs n)) = false ->
  Resolve._lresolve fs (S depth) n ("." :: rest)%string symrefs
  = Resolve._lresolve fs depth n rest symrefs.
Proof. intros H. simpl. rewrite H. reflexivity. Qed.

Lemma lresolve_dotdot depth n rest symrefs :
  Resolve.is_symlink (Resolve.cls (fs n)) = false ->
  Resolve._lresolve fs (S depth) n (".." :: rest)%string symrefs
  = match Resolve.parent (fs n) with
    | None => (Err NoSuchFile, symrefs)
    | Some p => Resolve._lresolve fs depth p rest symrefs
    end.
Proof. intros H. simpl. rewrite H. reflexivity. Qed.

Lemma lresolve_sub depth n first second rest symrefs :
  Resolve.is_symlink (Resolve.cls (fs n)) = false ->
  first <> "."%string -> first <> ".."%string ->
  Resolve._lresolve fs (S depth) n (first :: second :: rest) symrefs
  = match Resolve.sub fs n first with
    | Ok c => Resolve._lresolve fs depth c (second :: rest) symrefs
    | Err e => (Err e, symrefs)
    end.
Proof.
  intros H H1 H2. simpl. rewrite H.
  apply String.eqb_neq in H1, H2. rewrite H1, H2. reflexivity.
Qed.

Lemma lresolve_last depth n first symrefs :
  Resolve.is_symlink (Resolve.cls (fs n)) = false ->
  first <> "."%string -> first <> ".."%string ->
  Resolve._lresolve fs (S depth) n [first] symrefs = (Resolve.sub fs n first, symrefs).
Proof.
  intros H H1 H2. simpl. rewrite H.
  apply String.eqb_neq in H1, H2. rewrite H1, H2. reflexivity.
Qed.

(** [dereference] refuses to start once the counter is over 100. *)
Lemma dereference_over_cap depth n symrefs :
  100 < symrefs ->
  Resolve.dereference fs depth n symrefs = (Err TooManySymlinks, symrefs).
Proof.
  intros H. unfold Resolve.dereference, Resolve.dereference_with.
  destruct (Z.gtb_spec symrefs 100); [reflexivity | lia].
Qed.

(** Resolution leaves the counter as it found it, however it ends. *)
Lemma lresolve_restores_counter depth : forall n parts symrefs,
  snd (Resolve._lresolve fs depth n parts symrefs) = symrefs.
Proof.
  induction depth as [|depth IH]; intros n parts symrefs; [reflexivity|].
  assert (Hderef : forall m s,
             snd (Resolve.dereference_with fs (Resolve._lresolve fs depth) depth m s) = s).
  { intros m s. unfold Resolve.dereference_with.
    destruct (s >? 100); [reflexivity|].
    destruct (Resolve.parent (fs m)) as [p|]; [|simpl; lia].
    destruct (Resolve.readlink (fs m)) as [target|e]; [|simpl; lia].
    assert (Hl : snd (Resolve.lresolve_with fs (Resolve._lresolve fs depth) depth p
                        target true (s + 1)) = s + 1).
    { unfold Resolve.lresolve_with. destruct target as [|c target]; [reflexivity|].
      destruct (Ascii.eqb c "/"); [|apply IH].
      destruct (Resolve.fs_top fs depth p); [apply IH | reflexivity]. }
    destruct (Resolve.lresolve_with _ _ _ _ _ _ _) as [r s2]. simpl in *. lia. }
  simpl. destruct (Resolve.is_symlink _).
  - specialize (Hderef n symrefs).
    destruct (Resolve.dereference_with _ _ _ _ _) as [[t|e] s1]; simpl in *.
    + rewrite IH. exact Hderef.
    + exact Hderef.
  - destruct parts as [|first rest]; [reflexivity|].
    destruct (String.eqb first "."); [apply IH|].
    destruct (String.eqb first "..").
    + destruct (Resolve.parent (fs n)); [apply IH | reflexivity].
    + destruct rest; [reflexivity|].
      destruct (Resolve.sub fs n first); [apply IH | reflexivity].
Qed.

Lemma dereference_restores_counter depth n symrefs :
  snd (Resolve.dereference fs depth n symrefs) = symrefs.
Proof.
  unfold Resolve.dereference, Resolve.dereference_with.
  destruct (symrefs >? 100); [reflexivity|].
  destruct (Resolve.parent (fs n)) as [p|]; [|simpl; lia].
  destruct (Resolve.readlink (fs n)) as [target|e]; [|simpl; lia].
  assert (Hl : snd (Resolve.lresolve_with fs (Resolve._lresolve fs depth) depth p
                      target true (symrefs + 1)) = symrefs + 1).
  { unfold Resolve.lresolve_with. destruct target as [|c target]; [reflexivity|].
    destruct (Ascii.eqb c "/"); [|apply lresolve_restores_counter].
    destruct (Resolve.fs_top fs depth p);
      [apply lresolve_restores_counter | reflexivity]. }
  destruct (Resolve.lresolve_with _ _ _ _ _ _ _) as [r s2]. simpl in *. lia.
Qed.

Lemma dereference_step depth n symrefs p target :
  symrefs <= 100 ->
  Resolve.parent (fs n) = Some p -> Resolve.readlink (fs n) = Ok target ->
  Resolve.dereference fs depth n symrefs
  = (fst (Resolve.lresolve fs depth p target true (symrefs + 1)), symrefs).
Proof.
  intros Hs Hp Ht.
  pose proof (dereference_restores_counter depth n symrefs) as Hc.
  unfold Resolve.dereference, Resolve.dereference_with in *.
  destruct (Z.gtb_spec symrefs 100); [lia|]. rewrite Hp, Ht in *.
  fold (Resolve.lresolve fs depth p target true (symrefs + 1)) in *.
  destruct (Resolve.lresolve fs depth p target true (symrefs + 1)) as [r s2].
  simpl in *. rewrite Hc. reflexivity.
Qed.

Lemma lresolve_empty depth n stay symrefs :
  Resolve.lresolve fs depth n "" stay symrefs = (Ok n, symrefs).
Proof. reflexivity. Qed.

Lemma lresolve_absolute depth n path stay symrefs :
  Resolve.lresolve fs depth n (String "/" path) stay symrefs
  = match (if stay then Resolve.fs_top fs depth n else Resolve.top fs depth n) with
    | Err e => (Err e, symrefs)
    | Ok start => Resolve._lresolve fs depth start (Resolve.path_parts path) symrefs
    end.
Proof. reflexivity. Qed.

Lemma lresolve_relative depth n c path stay symrefs :
  c <> "/"%char ->
  Resolve.lresolve fs depth n (String c path) stay symrefs
  = Resolve._lresolve fs depth n (Resolve.path_parts (String c path)) symrefs.
Proof.
  intros Hc. unfold Resolve.lresolve, Resolve.lresolve_with.
  apply Ascii.eqb_neq in Hc. rewrite Hc. reflexivity.
Qed.

End ResolveFacts.

(** ** Symlinks that point at each other *)

Lemma demo_sub_a : Resolve.sub demo_nodes 0%nat "a" = Ok 1%nat.
Proof. vm_compute. reflexivity. Qed.

Lemma demo_sub_b : Resolve.sub demo_nodes 1%nat "b" = Ok 2%nat.
Proof. vm_compute. reflexivity. Qed.

Lemma demo_sub_c : Resolve.sub demo_nodes 1%nat "c" = Ok 3%nat.
Proof. vm_compute. reflexivity. Qed.

(** [b] points at [c]: the dereference returns [c] itself, a symlink, and the
    counter is back where it was. *)
Lemma demo_dereference_b depth symrefs :
  symrefs <= 100 ->
  Resolve.dereference demo_nodes depth 2%nat symrefs
  = (match depth with O => Err RecursionLimit | S _ => Ok 3%nat end, symrefs).
Proof.
  intros Hs.
  rewrite (dereference_step demo_nodes depth 2%nat symrefs 1%nat "c" Hs eq_refl eq_refl).
  rewrite lresolve_relative by discriminate.
  change (Resolve.path_parts "c") with ["c"%string].
  destruct depth as [|depth]; [reflexivity|].
  rewrite lresolve_last by (try reflexivity; discriminate).
  rewrite demo_sub_c. reflexivity.
Qed.

Lemma demo_dereference_c depth symrefs :
  symrefs <= 100 ->
  Resolve.dereference demo_nodes depth 3%nat symrefs
  = (match depth with
     | S (S _) => Ok 2%nat
     | _ => Err RecursionLimit
     end, symrefs).
Proof.
  intros Hs.
  rewrite (dereference_step demo_nodes depth 3%nat symrefs 1%nat "/a/b" Hs eq_refl eq_refl).
  rewrite lresolve_absolute.
  change (Resolve.path_parts "a/b") with ["a"; "b"]%string.
  destruct depth as [|depth]; [reflexivity|].
  destruct depth as [|depth]; [reflexivity|].
  change (Resolve.fs_top demo_nodes (S (S depth)) 1%nat) with (@Ok Resolve.nid 0%nat).
  cbv beta match.
  rewrite lresolve_sub by (try reflexivity; discriminate).
  rewrite demo_sub_a.
  rewrite lresolve_last by (try reflexivity; discriminate).
  rewrite demo_sub_b. reflexivity.
Qed.

(** From [b] or from [c], the walk goes round until the call depth is used
    up: the counter is at most one when either link is dereferenced. *)
Lemma demo_cycle depth : forall symrefs,
  symrefs <= 100 ->
  Resolve._lresolve demo_nodes depth 2%nat ["."%string] symrefs
  = (Err RecursionLimit, symrefs)
  /\ Resolve._lresolve demo_nodes depth 3%nat ["."%string] symrefs
     = (Err RecursionLimit, symrefs).
Proof.
  induction depth as [|depth IH]; intros symrefs Hs; [split; reflexivity|].
  split.
  - rewrite lresolve_symlink by reflexivity.
    rewrite demo_dereference_b by exact Hs.
    destruct depth; [reflexivity|]. apply IH. exact Hs.
  - rewrite lresolve_symlink by reflexivity.
    rewrite demo_dereference_c by exact Hs.
    destruct depth as [|[|depth]]; try reflexivity. apply IH. exact Hs.
Qed.

(** C4 (the code departs from the claim).  [/a/b] is a symlink to [c] and
    [/a/c] a symlink to [/a/b].  Whatever call depth is granted,
    [resolve('/a/b')] ends by using it up, never with [TooManySymlinks]: each
    [dereference] returns, and takes its one off the counter, before the
    next one starts. *)
Theorem mutual_symlinks_exhaust_the_call_depth (depth : nat) :
  Resolve.resolve demo_nodes depth 0%nat "/a/b" 0 = (Err RecursionLimit, 0).
Proof.
  unfold Resolve.resolve. rewrite lresolve_absolute.
  change (Resolve.path_parts "a/b") with ["a"; "b"]%string.
  destruct depth as [|depth]; [reflexivity|].
  change (Resolve.top demo_nodes (S depth) 0%nat) with (@Ok Resolve.nid 0%nat).
  cbv beta match.
  rewrite lresolve_sub by (try reflexivity; discriminate).
  rewrite demo_sub_a.
  destruct depth as [|depth]; [reflexivity|].
  rewrite lresolve_last by (try reflexivity; discriminate).
  rewrite demo_sub_b.
  rewrite lresolve_relative by discriminate.
  change (Resolve.path_parts ".") with ["."%string].
  apply demo_cycle. lia.
Qed.

(** Links whose targets pass through each other nest their dereferences, and
    these do run into the cap. *)
Example nested_symlinks_hit_the_cap :
  Resolve.resolve demo_nodes 450 0%nat "/a/p" 0 = (Err TooManySymlinks, 0).
Proof. vm_compute. reflexivity. Qed.

(** ** The walk of [lresolve] *)

(** C6. [lresolve] returns the node itself on the empty path and, on a
    leading slash, walks the rest of the path from [fs_top()] when
    [stay_inside_fs] is set and from [top()] otherwise.  At a node that is no
    symlink, [.] keeps the node, [..] moves to the parent or raises
    [NoSuchFile] when there is none, a name that is followed by more goes
    through [sub(name)], and a name that is the last part is answered by
    [sub(name)] as it is, symlink or not.  At a symlink with parts left,
    the link is dereferenced and the walk goes on from its target. *)
Theorem lresolve_walks_the_path (fs : Resolve.nid -> Resolve.node) (depth : nat)
        (n : Resolve.nid) (symrefs : Z) :
  (forall stay, Resolve.lresolve fs depth n "" stay symrefs = (Ok n, symrefs))
  /\ (forall path stay,
        Resolve.lresolve fs depth n (String "/" path) stay symrefs
        = match (if stay then Resolve.fs_top fs depth n else Resolve.top fs depth n) with
          | Err e => (Err e, symrefs)
          | Ok start => Resolve._lresolve fs depth start (Resolve.path_parts path) symrefs
          end)
  /\ (forall c path stay,
        c <> "/"%char ->
        Resolve.lresolve fs depth n (String c path) stay symrefs
        = Resolve._lresolve fs depth n (Resolve.path_parts (String c path)) symrefs)
  /\ (Resolve.is_symlink (Resolve.cls (fs n)) = false ->
      (forall rest,
         Resolve._lresolve fs (S depth) n ("." :: rest)%string symrefs
         = Resolve._lresolve fs depth n rest symrefs)
      /\ (forall rest,
            Resolve._lresolve fs (S depth) n (".." :: rest)%string symrefs
            = match Resolve.parent (fs n) with
              | None => (Err NoSuchFile, symrefs)
              | Some p => Resolve._lresolve fs depth p rest symrefs
              end)
      /\ (forall first second rest,
            first <> "."%string -> first <> ".."%string ->
            Resolve._lresolve fs (S depth) n (first :: second :: rest) symrefs
            = match Resolve.sub fs n first with
              | Ok c => Resolve._lresolve fs depth c (second :: rest) symrefs
              | Err e => (Err e, symrefs)
              end)
      /\ (forall first,
            first <> "."%string -> first <> ".."%string ->
            Resolve._lresolve fs (S depth) n [first] symrefs
            = (Resolve.sub fs n first, symrefs)))
  /\ (Resolve.is_symlink (Resolve.cls (fs n)) = true ->
      forall parts,
        Resolve._lresolve fs (S depth) n parts symrefs
        = match Resolve.dereference fs depth n symrefs with
          | (Ok t, symrefs1) => Resolve._lresolve fs depth t parts symrefs1
          | (Err e, symrefs1) => (Err e, symrefs1)
          end).
Proof.
  split; [intros; apply lresolve_empty|].
  split; [intros; apply lresolve_absolute|].
  split; [intros; apply lresolve_relative; assumption|].
  split.
  - intros Hn. split; [intros; apply lresolve_dot; exact Hn|].
    split; [intros; apply lresolve_dotdot; exact Hn|].
    split; [intros; apply lresolve_sub; assumption|].
    intros; apply lresolve_last; assumption.
  - intros Hn parts. apply lresolve_symlink. exact Hn.
Qed.

(** In the example tree: the last part [l] is not followed, [l/] is, and
    [..] above the root is refused. *)
Example demo_lstat_semantics :
  Resolve.lresolve demo_nodes 50 0%nat "/a/l" false 0 = (Ok 5%nat, 0)
  /\ Resolve.lresolve demo_nodes 50 0%nat "/a/l/" false 0 = (Ok 4%nat, 0)
  /\ Resolve.lresolve demo_nodes 50 0%nat "/a/./../a/f" false 0 = (Ok 4%nat, 0)
  /\ Resolve.lresolve demo_nodes 50 0%nat "/.." false 0 = (Err NoSuchFile, 0).
Proof. vm_compute. auto. Qed.

Lemma lresolve_walks_the_path_witness :
  Resolve._lresolve demo_nodes 1 1%nat ["l"%string] 0
  = (Resolve.sub demo_nodes 1%nat "l", 0)
  /\ Resolve._lresolve demo_nodes 3 5%nat ["."%string] 0
     = match Resolve.dereference demo_nodes 2 5%nat 0 with
       | (Ok t, symrefs1) => Resolve._lresolve demo_nodes 2 t ["."%string] symrefs1
       | (Err e, symrefs1) => (Err e, symrefs1)
       end.
Proof.
  split.
  - refine (proj2 (proj2 (proj2 (proj1 (proj2 (proj2 (proj2
              (lresolve_walks_the_path demo_nodes 0 1%nat 0)))) eq_refl))) "l"%string _ _);
      discriminate.
  - exact (proj2 (proj2 (proj2 (proj2
              (lresolve_walks_the_path demo_nodes 2 5%nat 0)))) eq_refl ["."%string]).
Defined.

(** ** The children of a directory *)

Lemma find_app_first {A} (f : A -> bool) (l1 l2 : list A) :
  find f (l1 ++ l2) = match find f l1 with Some x => Some x | None => find f l2 end.
Proof. induction l1 as [|x l1 IH]; simpl; [reflexivity|]. destruct (f x); auto. Qed.

Section DirFacts.

Variable demangle_name : string -> Z -> string * Vfs.bupmode.

Lemma add_entry_bupm st e :
  DirSubs.is_bupm e = true ->
  DirSubs.add_entry demangle_name st e
  = DirSubs.mkDirState (DirSubs._subs st) (Some (DirSubs.make_bupm e)).
Proof. unfold DirSubs.add_entry. intros ->. reflexivity. Qed.

Lemma add_entry_child st e :
  DirSubs.is_bupm e = false ->
  DirSubs.add_entry demangle_name st e
  = DirSubs.mkDirState
      (<[fst (DirSubs.make_child demangle_name e) :=
           snd (DirSubs.make_child demangle_name e)]> (DirSubs._subs st))
      (DirSubs._bupm st).
Proof.
  unfold DirSubs.add_entry. intros ->.
  destruct (DirSubs.make_child demangle_name e). reflexivity.
Qed.

(** Every child in the dictionary was there before or was made from a row
    that is not [.bupm], under that row's display name. *)
Lemma fold_children entries : forall st name c,
  DirSubs._subs (fold_left (DirSubs.add_entry demangle_name) entries st) !! name = Some c ->
  DirSubs._subs st !! name = Some c
  \/ exists e, In e entries /\ DirSubs.is_bupm e = false
               /\ DirSubs.make_child demangle_name e = (name, c).
Proof.
  induction entries as [|e rest IH]; intros st name c H; simpl in H; [left; exact H|].
  destruct (IH _ _ _ H) as [H0|(e' & Hin & Hb & Hc)].
  - destruct (DirSubs.is_bupm e) eqn:Hb.
    + rewrite add_entry_bupm in H0 by exact Hb. left. exact H0.
    + rewrite add_entry_child in H0 by exact Hb. simpl in H0.
      apply lookup_insert_Some in H0 as [[<- <-]|[_ H0]]; [|left; exact H0].
      right. exists e. split; [left; reflexivity|]. split; [exact Hb|].
      destruct (DirSubs.make_child demangle_name e); reflexivity.
  - right. exists e'. split; [right; exact Hin|]. auto.
Qed.

(** A display name that no row has stays out of the dictionary. *)
Lemma fold_absent entries name : forall st,
  DirSubs._subs st !! name = None ->
  (forall e, In e entries -> DirSubs.is_bupm e = false ->
             fst (DirSubs.make_child demangle_name e) <> name) ->
  DirSubs._subs (fold_left (DirSubs.add_entry demangle_name) entries st) !! name = None.
Proof.
  intros st H0 Hall.
  destruct (DirSubs._subs (fold_left _ entries st) !! name) as [c|] eqn:H; [|reflexivity].
  destruct (fold_children entries st name c H) as [H1|(e & Hin & Hb & Hc)].
  - congruence.
  - exfalso. apply (Hall e Hin Hb). rewrite Hc. reflexivity.
Qed.

(** Every row that is not [.bupm] leaves a child under its display name. *)
Lemma fold_present entries : forall st e,
  In e entries -> DirSubs.is_bupm e = false ->
  is_Some (DirSubs._subs (fold_left (DirSubs.add_entry demangle_name) entries st)
           !! fst (DirSubs.make_child demangle_name e)).
Proof.
  assert (Hkeep : forall entries st name,
            is_Some (DirSubs._subs st !! name) ->
            is_Some (DirSubs._subs
                       (fold_left (DirSubs.add_entry demangle_name) entries st) !! name)).
  { induction entries0 as [|e rest IH]; intros st name H; simpl; [exact H|].
    apply IH. destruct (DirSubs.is_bupm e) eqn:Hb.
    - rewrite add_entry_bupm by exact Hb. exact H.
    - rewrite add_entry_child by exact Hb. simpl.
      rewrite lookup_insert_is_Some. destruct (decide (fst (DirSubs.make_child demangle_name e) = name)); auto. }
  induction entries as [|e0 rest IH]; intros st e Hin Hb; [destruct Hin|].
  simpl. destruct Hin as [->|Hin]; [|apply IH; assumption].
  apply Hkeep. rewrite add_entry_child by exact Hb. simpl.
  rewrite lookup_insert_eq. eauto.
Qed.

(** The metadata file is the one made from the last [.bupm] row. *)
Lemma fold_bupm entries : forall st,
  DirSubs._bupm (fold_left (DirSubs.add_entry demangle_name) entries st)
  = match find DirSubs.is_bupm (rev entries) with
    | Some e => Some (DirSubs.make_bupm e)
    | None => DirSubs._bupm st
    end.
Proof.
  induction entries as [|e rest IH]; intros st; [reflexivity|].
  simpl fold_left. rewrite IH. simpl rev. rewrite find_app_first.
  destruct (find DirSubs.is_bupm (rev rest)); [reflexivity|].
  simpl. destruct (DirSubs.is_bupm e) eqn:Hb.
  - rewrite add_entry_bupm by exact Hb. reflexivity.
  - rewrite add_entry_child by exact Hb. reflexivity.
Qed.

Lemma chunked_child_is_file mode mangled sha name :
  demangle_name mangled mode = (name, Vfs.BUP_CHUNKED) ->
  DirSubs.make_child demangle_name (mode, mangled, sha)
  = (name, DirSubs.NewFile name DirSubs.GIT_MODE_FILE sha Vfs.BUP_CHUNKED).
Proof. intros H. unfold DirSubs.make_child. rewrite H. reflexivity. Qed.

(** C8. After [_mksubs] over the rows [entries] of a tree: every child that
    [sub()] or [subs()] gives was made from a row that is not named [.bupm],
    under the display name [demangle_name] gives that row, and every such row
    leaves a child under its display name; when a row is named [.bupm], the
    metadata file is the [File] made from such a row (regular file mode,
    CHUNKED when the row is a tree) and is no child; a row whose bup mode
    is CHUNKED gives a [File] of regular file mode, whatever the row's own
    mode; and when no other row's display name is [.bupm], [sub('.bupm')]
    raises [NoSuchFile]. *)
Theorem mksubs_hides_bupm_and_promotes_chunked
        (bupm0 : option DirSubs.child) (entries : list DirSubs.tree_entry) :
  let st := snd (DirSubs._mksubs demangle_name bupm0 (Ok entries)) in
  (forall name c,
     DirSubs.sub st name = Ok c ->
     exists e, In e entries /\ DirSubs.is_bupm e = false
               /\ DirSubs.make_child demangle_name e = (name, c))
  /\ (forall c,
        In c (DirSubs.subs st) ->
        exists e, In e entries /\ DirSubs.is_bupm e = false
                  /\ snd (DirSubs.make_child demangle_name e) = c)
  /\ (forall e,
        In e entries -> DirSubs.is_bupm e = false ->
        is_Some (DirSubs._subs st !! fst (DirSubs.make_child demangle_name e)))
  /\ (forall e,
        In e entries -> DirSubs.is_bupm e = true ->
        exists mode sha,
          In (mode, ".bupm"%string, sha) entries
          /\ DirSubs._bupm st
             = Some (DirSubs.NewFile ".bupm" DirSubs.GIT_MODE_FILE sha
                       (if DirSubs.S_ISDIR mode then Vfs.BUP_CHUNKED
                        else Vfs.BUP_NORMAL)))
  /\ (forall mode mangled sha name,
        demangle_name mangled mode = (name, Vfs.BUP_CHUNKED) ->
        DirSubs.make_child demangle_name (mode, mangled, sha)
        = (name, DirSubs.NewFile name DirSubs.GIT_MODE_FILE sha Vfs.BUP_CHUNKED))
  /\ ((forall e, In e entries -> DirSubs.is_bupm e = false ->
                 fst (DirSubs.make_child demangle_name e) <> ".bupm"%string) ->
      DirSubs.sub st ".bupm" = Err NoSuchFile).
Proof.
  intros st. subst st. simpl.
  assert (Hsub : forall name c,
            DirSubs._subs (fold_left (DirSubs.add_entry demangle_name) entries
                             (DirSubs.mkDirState ∅ bupm0)) !! name = Some c ->
            exists e, In e entries /\ DirSubs.is_bupm e = false
                      /\ DirSubs.make_child demangle_name e = (name, c)).
  { intros name c H. destruct (fold_children entries _ name c H) as [H0|H0]; [|exact H0].
    simpl in H0. rewrite lookup_empty in H0. discriminate. }
  split; [|split; [|split; [|split; [|split]]]].
  - intros name c H. unfold DirSubs.sub in H.
    destruct (DirSubs._subs _ !! name) as [c'|] eqn:Hl; [|discriminate].
    injection H as <-. apply Hsub. exact Hl.
  - intros c Hc. unfold DirSubs.subs in Hc. apply in_map_iff in Hc as ([name c'] & <- & Hin).
    apply list_elem_of_In, elem_of_map_to_list in Hin.
    destruct (Hsub name c' Hin) as (e & He & Hb & Hm).
    exists e. rewrite Hm. auto.
  - intros e Hin Hb. apply fold_present; assumption.
  - intros e Hin Hb. rewrite fold_bupm.
    assert (Hf : exists e', find DirSubs.is_bupm (rev entries) = Some e').
    { destruct (find DirSubs.is_bupm (rev entries)) as [e'|] eqn:Hf; [eauto|].
      exfalso. pose proof (find_none _ _ Hf e (proj1 (in_rev entries e) Hin)) as Hn.
      congruence. }
    destruct Hf as ([[mode mangled] sha] & Hf). rewrite Hf.
    apply find_some in Hf as [Hin' Hb'].
    unfold DirSubs.is_bupm in Hb'. simpl in Hb'. apply String.eqb_eq in Hb'. subst mangled.
    exists mode, sha. split; [apply in_rev; exact Hin' | reflexivity].
  - intros. apply chunked_child_is_file. assumption.
  - intros Hall. unfold DirSubs.sub. rewrite fold_absent; [reflexivity | reflexivity | exact Hall].
Qed.

End DirFacts.

Example demo_dir_children :
  let st := snd (DirSubs._mksubs demo_demangle None (Ok demo_entries)) in
  DirSubs.sub st "big" = Ok (DirSubs.NewFile "big" 33188 "t" Vfs.BUP_CHUNKED)
  /\ DirSubs.sub st "sub" = Ok (DirSubs.NewDir "sub" 16384 "d")
  /\ DirSubs.sub st "lnk" = Ok (DirSubs.NewSymlink "lnk" "l" Vfs.BUP_NORMAL)
  /\ DirSubs.sub st "f" = Ok (DirSubs.NewFile "f" 33188 "x" Vfs.BUP_NORMAL)
  /\ DirSubs.sub st "big.bup" = Err NoSuchFile
  /\ DirSubs._bupm st = Some (DirSubs.NewFile ".bupm" 33188 "m" Vfs.BUP_NORMAL)
  /\ length (DirSubs.subs st) = 4%nat.
Proof. vm_compute. repeat split. Qed.

Lemma demo_no_other_bupm e :
  In e demo_entries -> DirSubs.is_bupm e = false ->
  fst (DirSubs.make_child demo_demangle e) <> ".bupm"%string.
Proof.
  intros [<-|[<-|[<-|[<-|[<-|[]]]]]] Hb; vm_compute; discriminate.
Qed.

Lemma mksubs_hides_bupm_and_promotes_chunked_witness :
  DirSubs.sub (snd (DirSubs._mksubs demo_demangle None (Ok demo_entries))) ".bupm"
  = Err NoSuchFile.
Proof.
  exact (proj2 (proj2 (proj2 (proj2 (proj2
           (mksubs_hides_bupm_and_promotes_chunked demo_demangle None demo_entries)))))
           demo_no_other_bupm).
Defined.

(** ** The links of a branch *)

Section BranchFacts.

Variable strftime_local : Z -> string.

Lemma fold_add_rev revs : forall m name,
  fold_left (Branch.add_rev strftime_local) revs m !! name
  = match Branch.last_named strftime_local name revs with
    | Some r => Some (Branch.link_to name r)
    | None => m !! name
    end.
Proof.
  unfold Branch.last_named.
  induction revs as [|x rest IH]; intros m name; [reflexivity|].
  simpl fold_left. rewrite IH. simpl rev. rewrite find_app_first.
  match goal with
  | |- context [find ?f (rev rest)] => destruct (find f (rev rest)); [reflexivity|]
  end.
  simpl.
  unfold Branch.add_rev.
  destruct (String.eqb_spec (strftime_local (snd x)) name) as [<-|Hne].
  - rewrite lookup_insert_eq. reflexivity.
  - rewrite lookup_insert_ne by exact Hne. reflexivity.
Qed.

Lemma fold_add_rev_size revs : forall m,
  NoDup (map (fun r => strftime_local (snd r)) revs) ->
  (forall r, In r revs -> m !! strftime_local (snd r) = None) ->
  size (fold_left (Branch.add_rev strftime_local) revs m) = (length revs + size m)%nat.
Proof.
  induction revs as [|x rest IH]; intros m Hnd Hfresh; [reflexivity|].
  simpl in *. apply NoDup_cons in Hnd as [Hx Hnd].
  rewrite IH; [| exact Hnd |].
  - unfold Branch.add_rev. rewrite map_size_insert_None by (apply Hfresh; auto). lia.
  - intros r Hr. unfold Branch.add_rev. rewrite lookup_insert_ne; [apply Hfresh; auto|].
    intros Heq. apply Hx. rewrite list_elem_of_In, Heq.
    apply (in_map (fun r => strftime_local (snd r))). exact Hr.
Qed.

Lemma names_injective (revs : list Branch.rev_item) : forall r r',
  NoDup (map (fun r => strftime_local (snd r)) revs) ->
  In r revs -> In r' revs ->
  strftime_local (snd r') = strftime_local (snd r) -> r' = r.
Proof.
  induction revs as [|x rest IH]; intros r r' Hnd Hin Hin' Heq; [destruct Hin|].
  simpl in Hnd. apply NoDup_cons in Hnd as [Hx Hnd].
  assert (Hmem : forall y, In y rest ->
                           strftime_local (snd y) = strftime_local (snd x) -> False).
  { intros y Hy He. apply Hx. rewrite list_elem_of_In, <- He.
    apply (in_map (fun r => strftime_local (snd r))). exact Hy. }
  destruct Hin as [->|Hin], Hin' as [->|Hin'].
  - reflexivity.
  - exfalso. exact (Hmem r' Hin' Heq).
  - exfalso. exact (Hmem r Hin (eq_sym Heq)).
  - apply IH; assumption.
Qed.

Lemma last_named_unique (revs : list Branch.rev_item) r :
  NoDup (map (fun r => strftime_local (snd r)) revs) -> In r revs ->
  Branch.last_named strftime_local (strftime_local (snd r)) revs = Some r.
Proof.
  intros Hnd Hin.
  destruct (Branch.last_named strftime_local (strftime_local (snd r)) revs) as [r'|] eqn:Hf;
    unfold Branch.last_named in Hf.
  - apply find_some in Hf as [Hin' Heq]. apply in_rev in Hin'.
    apply String.eqb_eq in Heq. f_equal.
    apply (names_injective revs); assumption.
  - exfalso. pose proof (find_none _ _ Hf r (proj1 (in_rev revs r) Hin)) as Hn.
    simpl in Hn. rewrite String.eqb_refl in Hn. discriminate.
Qed.

Lemma commit_target_parts (commithex : string) :
  String.length commithex = 40%nat ->
  exists first2 rest38,
    commithex = (first2 ++ rest38)%string
    /\ String.length first2 = 2%nat /\ String.length rest38 = 38%nat
    /\ Branch.commit_target commithex = ("../.commit/" ++ first2 ++ "/" ++ rest38)%string.
Proof.
  intros Hlen. destruct commithex as [|a [|b rest]]; try discriminate.
  exists (String a (String b EmptyString)), rest.
  simpl in Hlen. split; [reflexivity|]. split; [reflexivity|]. split; [lia|].
  unfold Branch.commit_target. simpl String.length.
  replace (S (S (String.length rest)) - 2)%nat with (String.length rest) by lia.
  change (String.substring 2 (String.length rest) (String a (String b rest)))
    with (String.substring 0 (String.length rest) rest).
  assert (Hsub : forall s, String.substring 0 (String.length s) s = s).
  { induction s as [|c s IH]; simpl; [reflexivity | rewrite IH; reflexivity]. }
  rewrite Hsub.
  change (String.substring 0 2 (String a (String b rest)))
    with (String a (String b (String.substring 0 0 rest))).
  destruct rest; reflexivity.
Qed.

(** C9, amended.  For a branch with at least one commit, [latest] is a link
    to the newest commit; under every other name the child is the link to
    the last commit of the history (the oldest, as [rev_list] lists the
    newest first) whose author time is formatted to that name, so every
    commit's formatted time names a child that points at a commit of that
    very formatted time; the target of a 40-digit hash is
    [../.commit/<first 2>/<remaining 38>]; and when the formatted times are
    pairwise different and none is [latest], there is exactly one link per
    commit, pointing at it, besides [latest]. *)
Theorem branch_links_by_formatted_time (latest : Branch.rev_item)
        (rest : list Branch.rev_item) :
  let revs := latest :: rest in
  exists subs,
    Branch._mksubs strftime_local revs = Ok subs
    /\ subs !! "latest"%string = Some (Branch.link_to "latest" latest)
    /\ (forall name, name <> "latest"%string ->
          subs !! name
          = match Branch.last_named strftime_local name revs with
            | Some r => Some (Branch.link_to name r)
            | None => None
            end)
    /\ (forall r, In r revs -> strftime_local (snd r) <> "latest"%string ->
          exists r', In r' revs
                     /\ strftime_local (snd r') = strftime_local (snd r)
                     /\ subs !! strftime_local (snd r)
                        = Some (Branch.link_to (strftime_local (snd r)) r'))
    /\ (forall commithex, String.length commithex = 40%nat ->
          exists first2 rest38,
            commithex = (first2 ++ rest38)%string
            /\ String.length first2 = 2%nat /\ String.length rest38 = 38%nat
            /\ Branch.commit_target commithex
               = ("../.commit/" ++ first2 ++ "/" ++ rest38)%string)
    /\ (NoDup (map (fun r => strftime_local (snd r)) revs) ->
        ~ In "latest"%string (map (fun r => strftime_local (snd r)) revs) ->
        Branch.one_link_per_commit strftime_local revs subs).
Proof.
  intros revs. eexists. split; [reflexivity|].
  assert (Hother : forall name, name <> "latest"%string ->
            <["latest"%string := Branch.link_to "latest" latest]>
              (fold_left (Branch.add_rev strftime_local) revs ∅) !! name
            = match Branch.last_named strftime_local name revs with
              | Some r => Some (Branch.link_to name r)
              | None => None
              end).
  { intros name Hne. rewrite lookup_insert_ne by congruence.
    rewrite fold_add_rev, lookup_empty. reflexivity. }
  split; [apply lookup_insert_eq|]. split; [exact Hother|].
  split; [|split; [exact commit_target_parts|]].
  - intros r Hin Hne. rewrite (Hother _ Hne).
    destruct (Branch.last_named strftime_local (strftime_local (snd r)) revs)
      as [r'|] eqn:Hf; unfold Branch.last_named in Hf.
    + apply find_some in Hf as [Hin' Heq]. apply in_rev in Hin'.
      apply String.eqb_eq in Heq. exists r'. auto.
    + exfalso. pose proof (find_none _ _ Hf r (proj1 (in_rev revs r) Hin)) as Hn.
      simpl in Hn. rewrite String.eqb_refl in Hn. discriminate.
  - intros Hnd Hnl. split; [|split].
    + intros r Hin.
      assert (Hne : strftime_local (snd r) <> "latest"%string).
      { intros Heq. apply Hnl. rewrite <- Heq.
        apply (in_map (fun r => strftime_local (snd r))). exact Hin. }
      rewrite (Hother _ Hne), (last_named_unique revs r Hnd Hin). reflexivity.
    + exists latest, rest. split; [reflexivity | apply lookup_insert_eq].
    + rewrite map_size_insert_None.
      * rewrite fold_add_rev_size;
          [rewrite map_size_empty, Nat.add_0_r; reflexivity | exact Hnd |].
        intros; apply lookup_empty.
      * rewrite fold_add_rev, lookup_empty.
        destruct (Branch.last_named strftime_local "latest" revs) as [r|] eqn:Hf;
          [|reflexivity].
        unfold Branch.last_named in Hf. apply find_some in Hf as [Hin Heq].
        apply in_rev in Hin. apply String.eqb_eq in Heq. exfalso. apply Hnl.
        rewrite <- Heq. apply (in_map (fun r => strftime_local (snd r))). exact Hin.
Qed.

End BranchFacts.

Example strftime_utc_scenario :
  Branch.strftime_utc 1700000000 = "2023-11-14-221320"%string
  /\ Branch.strftime_utc 1700003600 = "2023-11-14-231320"%string.
Proof. vm_compute. auto. Qed.

Example two_commits_links :
  match Branch._mksubs Branch.strftime_utc two_commits with
  | Ok subs =>
      (size subs,
       Branch.fl_toname <$> subs !! "2023-11-14-221320"%string,
       Branch.fl_toname <$> subs !! "2023-11-14-231320"%string,
       Branch.fl_toname <$> subs !! "latest"%string)
  | Err _ => (0%nat, None, None, None)
  end
  = (3%nat,
     Some "../.commit/aa/aaaaaaaaaaaaaaaaaaaaaaaaaaaaaaaaaaaaaa"%string,
     Some "../.commit/bb/bbbbbbbbbbbbbbbbbbbbbbbbbbbbbbbbbbbbbb"%string,
     Some "../.commit/bb/bbbbbbbbbbbbbbbbbbbbbbbbbbbbbbbbbbbbbb"%string).
Proof. vm_compute. reflexivity. Qed.

(** C9 as stated fails when two commits share a second: the newer one's
    link is overwritten and two children are left, not three. *)
Lemma same_second_overwrites :
  ~ (forall subs,
       Branch._mksubs Branch.strftime_utc same_second = Ok subs ->
       Branch.one_link_per_commit Branch.strftime_utc same_second subs).
Proof.
  intros H. destruct (H _ eq_refl) as (_ & _ & Hsize).
  vm_compute in Hsize. discriminate Hsize.
Qed.

Lemma branch_links_by_formatted_time_witness :
  exists subs,
    Branch._mksubs Branch.strftime_utc two_commits = Ok subs
    /\ Branch.one_link_per_commit Branch.strftime_utc two_commits subs.
Proof.
  destruct (branch_links_by_formatted_time Branch.strftime_utc
              ("bbbbbbbbbbbbbbbbbbbbbbbbbbbbbbbbbbbbbbbb"%string, 1700003600)
              [("aaaaaaaaaaaaaaaaaaaaaaaaaaaaaaaaaaaaaaaa"%string, 1700000000)])
    as (subs & Hm & _ & _ & _ & _ & Hone).
  exists subs. split; [exact Hm|]. apply Hone.
  - vm_compute. repeat constructor; rewrite ?list_elem_of_In; simpl; intuition discriminate.
  - vm_compute. intuition discriminate.
Defined.

(** * Further properties *)

(** ** The log of a whole sweep *)

Section SweepTrace.

Variable live_exists : Gc.sha -> bool.
Variable cat_ok : Gc.sha -> bool.
Variable pack_full : list Gc.sha -> bool.
Variable threshold : Z.

Lemma unlinks_of_app l1 l2 :
  GcTrace.unlinks_of (l1 ++ l2) = GcTrace.unlinks_of l1 ++ GcTrace.unlinks_of l2.
Proof.
  induction l1 as [|e l1 IH]; simpl; [reflexivity|].
  destruct e; simpl; rewrite IH; reflexivity.
Qed.

Lemma unlinks_of_unlinks ps : GcTrace.unlinks_of (map Gc.EvUnlink ps) = ps.
Proof. induction ps as [|p ps IH]; simpl; [reflexivity | rewrite IH; reflexivity]. Qed.

(** Removing the buffered files moves them from the buffer to the log. *)
Lemma doomed_remove_stale_files st :
  GcTrace.doomed (Gc.remove_stale_files st) = GcTrace.doomed st.
Proof.
  unfold GcTrace.doomed, Gc.remove_stale_files. simpl.
  rewrite unlinks_of_app, unlinks_of_unlinks, app_nil_r. reflexivity.
Qed.

Lemma doomed_finish_pack st :
  GcTrace.doomed (Gc.finish_pack st) = GcTrace.doomed st.
Proof.
  unfold Gc.finish_pack. rewrite doomed_remove_stale_files.
  unfold GcTrace.doomed, Gc.emit. simpl.
  rewrite unlinks_of_app. simpl. rewrite app_nil_r. reflexivity.
Qed.

Lemma writes_finish_pack st :
  Gc.writes_of (Gc.log (Gc.finish_pack st)) = Gc.writes_of (Gc.log st).
Proof.
  unfold Gc.finish_pack, Gc.remove_stale_files, Gc.emit. simpl.
  rewrite !writes_of_app, writes_of_unlinks. simpl. rewrite !app_nil_r. reflexivity.
Qed.

Lemma doomed_writer_write s st :
  GcTrace.doomed (Gc.writer_write pack_full s st) = GcTrace.doomed st.
Proof.
  unfold Gc.writer_write. destruct (pack_full _).
  - rewrite doomed_finish_pack. unfold GcTrace.doomed, Gc.emit. simpl.
    rewrite unlinks_of_app. simpl. rewrite app_nil_r. reflexivity.
  - unfold GcTrace.doomed, Gc.emit. simpl.
    rewrite unlinks_of_app. simpl. rewrite app_nil_r. reflexivity.
Qed.

Lemma writes_writer_write s st :
  Gc.writes_of (Gc.log (Gc.writer_write pack_full s st))
  = Gc.writes_of (Gc.log st) ++ [s].
Proof.
  destruct (writer_write_log pack_full s st) as (l & -> & Hw).
  rewrite writes_of_app, Hw. reflexivity.
Qed.

(** Copying the live entries of an index, however it ends: nothing is
    unlinked or buffered that was not before; the objects written are the
    live entries up to the first one that cannot be read. *)
Lemma rewrite_entries_trace shas : forall st,
  let r := Gc.rewrite_entries live_exists cat_ok pack_full shas st in
  GcTrace.doomed (snd r) = GcTrace.doomed st
  /\ exists w suf,
       Gc.writes_of (Gc.log (snd r)) = Gc.writes_of (Gc.log st) ++ w
       /\ filter (fun s => live_exists s = true) shas = w ++ suf
       /\ match fst r with
          | Ok st' => st' = snd r /\ suf = []
          | Err e =>
              e = StoreError
              /\ exists s, In s shas /\ live_exists s = true /\ cat_ok s = false
          end.
Proof.
  induction shas as [|s rest IH]; intros st; simpl.
  - split; [reflexivity|]. exists [], []. rewrite app_nil_r. auto.
  - destruct (live_exists s) eqn:Hl.
    + rewrite filter_cons_True by exact Hl.
      destruct (cat_ok s) eqn:Hc.
      * destruct (IH (Gc.writer_write pack_full s st)) as (Hd & w & suf & Hw & Hf & Hr).
        split; [rewrite Hd; apply doomed_writer_write|].
        exists (s :: w), suf. split; [|split].
        -- rewrite Hw, writes_writer_write, <- app_assoc. reflexivity.
        -- rewrite Hf. reflexivity.
        -- destruct (fst (Gc.rewrite_entries _ _ _ rest _)) as [st'|e]; [exact Hr|].
           destruct Hr as (-> & s' & Hin & Hl' & Hc'). split; [reflexivity|].
           exists s'. simpl. auto.
      * simpl. split; [reflexivity|].
        exists [], (s :: filter (fun s => live_exists s = true) rest).
        rewrite app_nil_r. split; [reflexivity|]. split; [reflexivity|].
        split; [reflexivity|]. exists s. auto.
    + rewrite filter_cons_False by (rewrite Hl; discriminate).
      destruct (IH st) as (Hd & w & suf & Hw & Hf & Hr).
      split; [exact Hd|]. exists w, suf. split; [exact Hw|]. split; [exact Hf|].
      destruct (fst (Gc.rewrite_entries _ _ _ rest _)) as [st'|e]; [exact Hr|].
      destruct Hr as (-> & s' & Hin & Hl' & Hc'). split; [reflexivity|].
      exists s'. simpl. auto.
Qed.

Lemma replaced_cases idx :
  (GcTrace.dead live_exists idx = true
   /\ GcTrace.rewritten live_exists threshold idx = false
   /\ GcTrace.replaced live_exists threshold idx = true)
  \/ (GcTrace.dead live_exists idx = false
      /\ GcTrace.kept live_exists threshold idx = true
      /\ GcTrace.rewritten live_exists threshold idx = false
      /\ GcTrace.replaced live_exists threshold idx = false)
  \/ (GcTrace.dead live_exists idx = false
      /\ GcTrace.kept live_exists threshold idx = false
      /\ GcTrace.rewritten live_exists threshold idx = true
      /\ GcTrace.replaced live_exists threshold idx = true).
Proof.
  unfold GcTrace.replaced, GcTrace.rewritten, GcTrace.kept.
  destruct (GcTrace.dead live_exists idx); simpl; [tauto|].
  destruct (Gc.keeps _ _ _); simpl; tauto.
Qed.

(** The loop over the indexes, however it ends.  [done] are the packs dealt
    with in full, [w] what was written of the pack at which an exception
    escaped. *)
Lemma sweep_loop_trace idxs : forall st,
  let r := Gc.sweep_loop live_exists cat_ok pack_full threshold idxs st in
  exists done rest w,
    idxs = done ++ rest
    /\ GcTrace.doomed (snd r)
       = GcTrace.doomed st
         ++ concat (map Gc.paths
                        (filter (fun i => GcTrace.replaced live_exists threshold i = true) done))
    /\ Gc.writes_of (Gc.log (snd r))
       = Gc.writes_of (Gc.log st)
         ++ concat (map (GcTrace.live_entries live_exists)
                        (filter (fun i => GcTrace.rewritten live_exists threshold i = true) done))
         ++ w
    /\ match fst r with
       | Ok st' => st' = snd r /\ rest = [] /\ w = []
       | Err e =>
           e = StoreError
           /\ exists idx rest' suf,
                rest = idx :: rest'
                /\ GcTrace.rewritten live_exists threshold idx = true
                /\ GcTrace.live_entries live_exists idx = w ++ suf
                /\ exists s, In s (Gc.shatable idx) /\ live_exists s = true
                             /\ cat_ok s = false
       end.
Proof.
  induction idxs as [|idx rest IH]; intros st; simpl.
  - exists [], [], []. simpl. rewrite !app_nil_r. repeat split; reflexivity.
  - unfold Gc.sweep_pack.
    destruct (replaced_cases idx) as [(Hd & Hrw & Hrp)|[(Hd & Hk & Hrw & Hrp)|(Hd & Hk & Hrw & Hrp)]].
    + (* no live entry *)
      unfold GcTrace.dead in Hd. rewrite Hd. cbv zeta.
      destruct (IH (Gc.mark_stale idx st)) as (done & rest0 & w & -> & Hdo & Hwr & Hres).
      exists (idx :: done), rest0, w. split; [reflexivity|]. split; [|split].
      * rewrite Hdo. rewrite filter_cons_True by exact Hrp. simpl.
        unfold GcTrace.doomed, Gc.mark_stale, Gc.paths. simpl.
        rewrite <- !app_assoc. reflexivity.
      * rewrite Hwr. rewrite filter_cons_False by (rewrite Hrw; discriminate).
        reflexivity.
      * exact Hres.
    + (* kept *)
      unfold GcTrace.dead in Hd. rewrite Hd.
      unfold GcTrace.kept, GcTrace.dead in Hk. rewrite Hd in Hk. simpl in Hk. rewrite Hk.
      destruct (IH st) as (done & rest0 & w & -> & Hdo & Hwr & Hres).
      exists (idx :: done), rest0, w. split; [reflexivity|]. split; [|split].
      * rewrite Hdo. rewrite filter_cons_False by (rewrite Hrp; discriminate). reflexivity.
      * rewrite Hwr. rewrite filter_cons_False by (rewrite Hrw; discriminate). reflexivity.
      * exact Hres.
    + (* rewritten *)
      unfold GcTrace.dead in Hd. rewrite Hd.
      pose proof Hrw as Hk'. unfold GcTrace.rewritten, GcTrace.dead in Hk'.
      rewrite Hd in Hk'. simpl in Hk'. apply negb_true_iff in Hk'. rewrite Hk'.
      destruct (rewrite_entries_trace (Gc.shatable idx) st) as (Hd1 & w1 & suf1 & Hw1 & Hf1 & Hr1).
      destruct (Gc.rewrite_entries live_exists cat_ok pack_full (Gc.shatable idx) st)
        as [[st1|e] st2] eqn:Hrew; simpl in *.
      * destruct Hr1 as [-> ->]. rewrite app_nil_r in Hf1.
        destruct (IH (Gc.mark_stale idx st2)) as (done & rest0 & w & -> & Hdo & Hwr & Hres).
        exists (idx :: done), rest0, w. split; [reflexivity|]. split; [|split].
        -- rewrite Hdo. rewrite filter_cons_True by exact Hrp. simpl.
           unfold GcTrace.doomed in *. unfold Gc.mark_stale, Gc.paths. simpl.
           rewrite app_assoc, Hd1, <- !app_assoc. reflexivity.
        -- rewrite Hwr. rewrite filter_cons_True by exact Hrw. simpl.
           unfold Gc.mark_stale. simpl. rewrite Hw1.
           unfold GcTrace.live_entries at 2. rewrite Hf1, <- !app_assoc. reflexivity.
        -- exact Hres.
      * destruct Hr1 as (-> & s & Hin & Hl & Hc).
        exists [], (idx :: rest), w1. simpl. rewrite app_nil_r.
        split; [reflexivity|]. split; [exact Hd1|]. split; [exact Hw1|].
        split; [reflexivity|]. exists idx, rest, suf1. split; [reflexivity|].
        split; [exact Hrw|]. split; [exact Hf1|]. exists s. auto.
Qed.

End SweepTrace.

Section SweepOutcome.

Variable live_exists : Gc.sha -> bool.
Variable cat_ok : Gc.sha -> bool.
Variable pack_full : list Gc.sha -> bool.
Variable threshold : Z.

(** The end of a sweep that met no exception: the writer is closed and every
    buffered file removed. *)
Lemma sweep_end st1 :
  let st := Gc.remove_stale_files (Gc.writer_close st1) in
  GcTrace.unlinks_of (Gc.log st) = GcTrace.doomed st1
  /\ Gc.stale_files st = []
  /\ Gc.writes_of (Gc.log st) = Gc.writes_of (Gc.log st1)
  /\ Gc.closed_end false (Gc.log st) = true.
Proof.
  cbv zeta.
  assert (Hd : GcTrace.doomed (Gc.remove_stale_files (Gc.writer_close st1))
               = GcTrace.doomed st1).
  { rewrite doomed_remove_stale_files. unfold Gc.writer_close.
    destruct (Gc.open_pack st1).
    - unfold GcTrace.doomed, Gc.emit. simpl. rewrite unlinks_of_app. simpl.
      rewrite app_nil_r. reflexivity.
    - rewrite <- (doomed_finish_pack st1).
      unfold GcTrace.doomed at 1. unfold Gc.emit. simpl. rewrite unlinks_of_app. simpl.
      rewrite app_nil_r. reflexivity. }
  split; [|split; [reflexivity|split]].
  - rewrite <- Hd. unfold GcTrace.doomed. simpl. rewrite app_nil_r. reflexivity.
  - unfold Gc.remove_stale_files, Gc.writer_close, Gc.emit. simpl.
    rewrite !writes_of_app, writes_of_unlinks. simpl. rewrite !app_nil_r.
    destruct (Gc.open_pack st1); [reflexivity | apply writes_finish_pack].
  - unfold Gc.remove_stale_files, Gc.writer_close, Gc.emit. simpl.
    rewrite !closed_end_app. simpl. apply closed_end_unlinks.
Qed.






(** X4. However a sweep ends, an object handed to the pack writer is an entry
    that the BloomSet reports, of a pack that is rewritten: nothing is copied
    from a pack that is kept, and nothing the BloomSet does not hold. *)
Theorem sweep_writes_only_live_entries (idxs : list Gc.PackIdx) (s : Gc.sha) :
  In s (Gc.writes_of
          (Gc.log (snd (Gc.sweep live_exists cat_ok pack_full threshold idxs)))) ->
  live_exists s = true
  /\ exists idx, In idx idxs /\ In s (Gc.shatable idx)
                 /\ GcTrace.rewritten live_exists threshold idx = true
                 /\ GcTrace.kept live_exists threshold idx = false.
Proof.
  unfold Gc.sweep.
  destruct (sweep_loop_trace live_exists cat_ok pack_full threshold idxs (Gc.mkState [] [] []))
    as (done & rest & w & Hsplit & _ & Hw & Hres).
  assert (Hfrom : In s (Gc.writes_of
                          (Gc.log (snd (Gc.sweep_loop live_exists cat_ok pack_full threshold
                                                      idxs (Gc.mkState [] [] []))))) ->
                  live_exists s = true
                  /\ exists idx, In idx idxs /\ In s (Gc.shatable idx)
                                 /\ GcTrace.rewritten live_exists threshold idx = true
                                 /\ GcTrace.kept live_exists threshold idx = false).
  { rewrite Hw. simpl. intros Hin.
    assert (Hlive : forall idx, In idx idxs ->
                      GcTrace.rewritten live_exists threshold idx = true ->
                      In s (GcTrace.live_entries live_exists idx) ->
                      live_exists s = true
                      /\ exists idx, In idx idxs /\ In s (Gc.shatable idx)
                                     /\ GcTrace.rewritten live_exists threshold idx = true
                                     /\ GcTrace.kept live_exists threshold idx = false).
    { intros idx Hidx Hrw Hs. unfold GcTrace.live_entries in Hs.
      apply list_elem_of_In, list_elem_of_filter in Hs as [Hl Hs].
      split; [exact Hl|]. exists idx. split; [exact Hidx|].
      split; [apply list_elem_of_In; exact Hs|]. split; [exact Hrw|].
      destruct (replaced_cases live_exists threshold idx)
        as [(_ & Hn & _)|[(_ & _ & Hn & _)|(_ & Hk & _)]]; congruence. }
    apply in_app_or in Hin as [Hin|Hin].
    - apply in_concat in Hin as (ws & Hws & Hs).
      apply in_map_iff in Hws as (idx & <- & Hidx).
      apply list_elem_of_In, list_elem_of_filter in Hidx as [Hrw Hidx].
      apply (Hlive idx); [|exact Hrw|exact Hs].
      rewrite Hsplit. apply in_or_app. left. apply list_elem_of_In. exact Hidx.
    - destruct (fst (Gc.sweep_loop _ _ _ _ _ _)) as [st'|e].
      + destruct Hres as (_ & _ & ->). destruct Hin.
      + destruct Hres as (_ & idx & rest' & suf & -> & Hrw & Hf & _).
        apply (Hlive idx); [|exact Hrw|].
        * rewrite Hsplit. apply in_or_app. right. left. reflexivity.
        * rewrite Hf. apply in_or_app. left. exact Hin. }
  destruct (Gc.sweep_loop live_exists cat_ok pack_full threshold idxs (Gc.mkState [] [] []))
    as [[st1|e1] st2] eqn:Hl; cbn [fst snd] in *; [|exact Hfrom].
  destruct (sweep_end st2) as (_ & _ & Hwe & _).
  destruct Hres as (-> & _ & _). cbv zeta in Hwe. rewrite Hwe. exact Hfrom.
Qed.

End SweepOutcome.





Lemma sweep_writes_only_live_entries_witness :
  all_but_j "b" = true
  /\ exists idx, In idx three_packs /\ In "b"%string (Gc.shatable idx)
                 /\ GcTrace.rewritten all_but_j 10 idx = true
                 /\ GcTrace.kept all_but_j 10 idx = false.
Proof.
  apply (sweep_writes_only_live_entries all_but_j (fun s => negb (String.eqb s "c"))
           (fun _ => false) 10 three_packs "b"%string).
  vm_compute. right. left. reflexivity.
Defined.

(** ** The file names of a pack *)

Lemma string_length_app (a b : string) :
  String.length (a ++ b) = (String.length a + String.length b)%nat.
Proof. induction a as [|c a IH]; simpl; [reflexivity | rewrite IH; reflexivity]. Qed.

Lemma substring_app_prefix (a b : string) :
  String.substring 0 (String.length a) (a ++ b) = a.
Proof.
  induction a as [|c a IH]; simpl.
  - destruct b; reflexivity.
  - rewrite IH. reflexivity.
Qed.

Lemma list_ascii_app (a b : string) :
  list_ascii_of_string (a ++ b) = list_ascii_of_string a ++ list_ascii_of_string b.
Proof. induction a as [|c a IH]; simpl; [reflexivity | rewrite IH; reflexivity]. Qed.

Lemma string_app_inv_tail (a b c : string) : (a ++ c = b ++ c)%string -> a = b.
Proof.
  intros H. apply (f_equal list_ascii_of_string) in H.
  rewrite !list_ascii_app in H. apply app_inv_tail in H.
  rewrite <- (string_of_list_ascii_of_string a), <- (string_of_list_ascii_of_string b).
  rewrite H. reflexivity.
Qed.

(** [idx_name[:-3] + 'pack'] of a name that ends in [idx]. *)
Lemma pack_name_idx (base : string) :
  Gc.pack_name (base ++ "idx") = (base ++ "pack")%string.
Proof.
  unfold Gc.pack_name. rewrite string_length_app. simpl String.length.
  replace (String.length base + 3 - 3)%nat with (String.length base) by lia.
  rewrite substring_app_prefix. reflexivity.
Qed.

Lemma idx_is_no_pack (a b : string) : (a ++ ".idx")%string <> (b ++ ".pack")%string.
Proof.
  intros H. apply (f_equal list_ascii_of_string) in H.
  rewrite !list_ascii_app in H. apply (f_equal (@last ascii)) in H.
  change (list_ascii_of_string ".idx") with ([".";"i";"d"]%char ++ ["x"%char]) in H.
  change (list_ascii_of_string ".pack") with ([".";"p";"a";"c"]%char ++ ["k"%char]) in H.
  rewrite !app_assoc, !last_snoc in H. discriminate H.
Qed.

(** X5. The names [glob] returns for [*.idx] are pairwise different paths that
    end in [.idx]: then the [.pack] beside an index is named by the same
    stem, and no file belongs to two packs. *)
Theorem distinct_idx_names_share_no_file (idxs : list Gc.PackIdx) :
  NoDup (map Gc.idx_name idxs) ->
  (forall idx, In idx idxs -> exists stem, Gc.idx_name idx = (stem ++ ".idx")%string) ->
  (forall idx stem, In idx idxs -> Gc.idx_name idx = (stem ++ ".idx")%string ->
                    Gc.paths idx = [(stem ++ ".idx")%string; (stem ++ ".pack")%string])
  /\ Gc.paths_disjoint idxs.
Proof.
  intros Hnd Hglob.
  assert (Hpack : forall stem, Gc.pack_name (stem ++ ".idx") = (stem ++ ".pack")%string).
  { intros stem.
    change (stem ++ ".idx")%string with (stem ++ ("." ++ "idx"))%string.
    assert (Hassoc : forall a b c : string, (a ++ (b ++ c) = (a ++ b) ++ c)%string).
    { induction a as [|x a IH]; intros b c; [reflexivity|].
      exact (f_equal (String x) (IH b c)). }
    rewrite Hassoc, pack_name_idx, <- Hassoc. reflexivity. }
  assert (Hinj : forall i j, In i idxs -> In j idxs -> Gc.idx_name i = Gc.idx_name j -> i = j).
  { clear Hglob. induction idxs as [|x rest IH]; intros i j Hi Hj Heq; [destruct Hi|].
    simpl in Hnd. apply NoDup_cons in Hnd as [Hx Hnd].
    assert (Hmem : forall y, In y rest -> Gc.idx_name y <> Gc.idx_name x).
    { intros y Hy He. apply Hx. rewrite list_elem_of_In, <- He. apply in_map. exact Hy. }
    destruct Hi as [->|Hi], Hj as [->|Hj].
    - reflexivity.
    - exfalso. exact (Hmem j Hj (eq_sym Heq)).
    - exfalso. exact (Hmem i Hi Heq).
    - apply IH; assumption. }
  split.
  - intros idx stem Hin Hname. unfold Gc.paths. rewrite Hname, Hpack. reflexivity.
  - intros i j p Hi Hj Hpi Hpj.
    destruct (Hglob i Hi) as (si & Hsi). destruct (Hglob j Hj) as (sj & Hsj).
    unfold Gc.paths in Hpi, Hpj. rewrite Hsi, Hpack in Hpi. rewrite Hsj, Hpack in Hpj.
    apply Hinj; [exact Hi | exact Hj |]. rewrite Hsi, Hsj.
    simpl in Hpi, Hpj.
    destruct Hpi as [<-|[<-|[]]], Hpj as [Hp|[Hp|[]]].
    + symmetry. exact Hp.
    + exfalso. exact (idx_is_no_pack si sj (eq_sym Hp)).
    + exfalso. exact (idx_is_no_pack sj si Hp).
    + apply string_app_inv_tail in Hp. rewrite Hp. reflexivity.
Qed.

Lemma three_packs_named idx :
  In idx three_packs -> exists stem, Gc.idx_name idx = (stem ++ ".idx")%string.
Proof.
  intros [<-|[<-|[<-|[<-|[]]]]];
    [exists "pack-0"%string | exists "pack-1"%string
     | exists "pack-2"%string | exists "pack-3"%string]; reflexivity.
Qed.

Lemma three_packs_names_differ : NoDup (map Gc.idx_name three_packs).
Proof.
  vm_compute. repeat constructor; rewrite ?list_elem_of_In; simpl; intuition discriminate.
Qed.

Lemma distinct_idx_names_share_no_file_witness :
  (forall idx stem, In idx three_packs -> Gc.idx_name idx = (stem ++ ".idx")%string ->
                    Gc.paths idx = [(stem ++ ".idx")%string; (stem ++ ".pack")%string])
  /\ Gc.paths_disjoint three_packs.
Proof.
  exact (distinct_idx_names_share_no_file three_packs three_packs_names_differ
           three_packs_named).
Defined.

(** ** The driver once the live set is built *)



(** ** Counting objects *)

Lemma count_live_bounds live_exists idx :
  0 <= Gc.count_live live_exists idx <= Z.of_nat (length (Gc.shatable idx)).
Proof.
  unfold Gc.count_live. pose proof (length_filter (fun s => live_exists s = true)
                                                  (Gc.shatable idx)). lia.
Qed.

Lemma count_objects_from (idxs : list Gc.PackIdx) : forall a,
  fold_left (fun object_count idx => object_count + Z.of_nat (length (Gc.shatable idx)))
            idxs a
  = a + GcCount.count_objects idxs.
Proof.
  unfold GcCount.count_objects.
  induction idxs as [|idx rest IH]; intros a; cbn [fold_left]; [lia|].
  rewrite (IH (a + Z.of_nat (length (Gc.shatable idx)))),
          (IH (0 + Z.of_nat (length (Gc.shatable idx)))). lia.
Qed.

Lemma collect_count_from live_exists (idxs : list Gc.PackIdx) : forall a,
  fold_left (fun collect_count idx => collect_count + Gc.count_live live_exists idx) idxs a
  = a + GcCount.collect_count live_exists idxs.
Proof.
  unfold GcCount.collect_count.
  induction idxs as [|idx rest IH]; intros a; cbn [fold_left]; [lia|].
  rewrite (IH (a + Gc.count_live live_exists idx)),
          (IH (0 + Gc.count_live live_exists idx)). lia.
Qed.

(** X24. The number of live objects the sweep counts never exceeds what
    [count_objects] counts over the same indexes, and neither is negative
    (so the share of preserved data that the sweep reports lies between 0 and
    100 percent); and [count_objects] is zero, the case in which the driver
    collects nothing, exactly when every index is empty. *)
Theorem collect_count_is_within_count_objects
        (live_exists : Gc.sha -> bool) (idxs : list Gc.PackIdx) :
  0 <= GcCount.collect_count live_exists idxs <= GcCount.count_objects idxs
  /\ (GcCount.count_objects idxs = 0
      <-> forall idx, In idx idxs -> Gc.shatable idx = []).
Proof.
  induction idxs as [|idx rest [IH1 IH2]].
  - split; [unfold GcCount.collect_count, GcCount.count_objects; simpl; lia|].
    split; [intros _ idx [] | reflexivity].
  - unfold GcCount.collect_count, GcCount.count_objects. cbn [fold_left].
    rewrite collect_count_from, count_objects_from.
    pose proof (count_live_bounds live_exists idx) as Hb.
    split; [lia|]. split.
    + intros H0 i [<-|Hin].
      * destruct (Gc.shatable idx); [reflexivity | simpl in *; lia].
      * apply IH2; [lia | exact Hin].
    + intros Hall. rewrite (Hall idx (or_introl eq_refl)). simpl.
      apply IH2. intros i Hi. apply Hall. right. exact Hi.
Qed.

Example three_packs_counts :
  GcCount.count_objects three_packs = 18
  /\ GcCount.collect_count all_but_j three_packs = 14.
Proof. split; reflexivity. Qed.

(** ** The order of a decoded tree and the first loop of [_chunkiter] *)

Section DecodedTrees.

Variable tree_entries : Vfs.hash -> result (list Vfs.entry).

Lemma entry_leb_ofs (x y : Vfs.entry) :
  Vfs.entry_leb x y = true -> fst (fst x) <= fst (fst y).
Proof.
  destruct x as [[o1 d1] s1], y as [[o2 d2] s2]. simpl.
  destruct (Z.ltb_spec o1 o2); [lia|].
  destruct (Z.ltb_spec o2 o1); [discriminate | lia].
Qed.

(** In a list that passes the assertion of [_tree_decode] no row starts
    before the first. *)
Lemma is_sorted_head (e : Vfs.entry) (rest : list Vfs.entry) :
  Vfs.is_sorted (e :: rest) = true ->
  Vfs.is_sorted rest = true
  /\ forall j e', rest !! j = Some e' -> fst (fst e) <= fst (fst e').
Proof.
  revert e. induction rest as [|y rest IH]; intros e Hs.
  - split; [reflexivity|]. intros j e' H. rewrite lookup_nil in H. discriminate.
  - change (Vfs.entry_leb e y && Vfs.is_sorted (y :: rest) = true) in Hs.
    apply andb_true_iff in Hs as [Hxy Hrest].
    split; [exact Hrest|]. intros j e' Hj.
    apply entry_leb_ofs in Hxy.
    destruct j as [|j]; simpl in Hj.
    + injection Hj as <-. exact Hxy.
    + destruct (IH y Hrest) as [_ Hall]. specialize (Hall j e' Hj). lia.
Qed.

Lemma find_first_sorted (tree : list Vfs.entry) (startofs : Z) : forall i,
  tree <> [] -> Vfs.is_sorted tree = true ->
  exists first,
    Vfs.find_first tree startofs i = Some (i + first)%nat
    /\ (first < length tree)%nat
    /\ (forall j e, tree !! j = Some e -> (first < j)%nat -> startofs < fst (fst e))
    /\ (forall j e, tree !! j = Some e -> (0 < j <= first)%nat -> fst (fst e) <= startofs).
Proof.
  induction tree as [|x rest IH]; intros i Hne Hs; [congruence|].
  destruct rest as [|[[o' d'] s'] rest'].
  - exists 0%nat. split; [simpl; f_equal; lia|]. split; [simpl; lia|]. split.
    + intros [|j] e Hj Hlt; [lia|]. simpl in Hj. rewrite lookup_nil in Hj. discriminate.
    + intros j e _ Hj. lia.
  - destruct (is_sorted_head x _ Hs) as [Hrest _].
    rewrite find_first_cons.
    destruct (Z.gtb_spec o' startofs) as [Hgt|Hle].
    + exists 0%nat. split; [f_equal; lia|]. split; [simpl; lia|]. split.
      * intros [|j] e Hj Hlt; [lia|]. simpl in Hj.
        destruct (is_sorted_head (o', d', s') rest' Hrest) as [_ Hall].
        destruct j as [|j]; simpl in Hj.
        -- injection Hj as <-. simpl. lia.
        -- specialize (Hall j e Hj). simpl in Hall. lia.
      * intros j e _ Hj. lia.
    + destruct (IH (S i) ltac:(congruence) Hrest) as (first & Hf & Hlen & Hafter & Hbefore).
      exists (S first). split; [|split; [|split]].
      * transitivity (Some (S i + first)%nat); [exact Hf | f_equal; lia].
      * simpl in *. lia.
      * intros [|j] e Hj Hlt; [lia|]. simpl in Hj. apply (Hafter j e Hj). lia.
      * intros [|j] e Hj Hlt; [lia|]. simpl in Hj.
        destruct j as [|j].
        -- simpl in Hj. injection Hj as <-. simpl. lia.
        -- apply (Hbefore (S j) e Hj). lia.
Qed.

(** X7. When [_tree_decode] returns, the rows are what the store holds and their
    offsets never decrease down the list.  On such a list the first loop of
    [_chunkiter] leaves [i] unbound only when there is no row; otherwise it
    stops at a row [first] such that every later row starts after [startofs]
    and every row from the second up to [first] starts at or before it: the
    second loop begins with the last row that starts at or before [startofs],
    or with the first row when none does. *)
Theorem first_loop_stops_at_the_row_of_startofs
        (h : Vfs.hash) (tree : list Vfs.entry) (startofs : Z) :
  Vfs._tree_decode tree_entries h = Ok tree ->
  tree_entries h = Ok tree
  /\ (forall i j x y, tree !! i = Some x -> tree !! j = Some y -> (i <= j)%nat ->
                      fst (fst x) <= fst (fst y))
  /\ (tree = [] -> Vfs.find_first tree startofs 0 = None)
  /\ (tree <> [] ->
      exists first,
        Vfs.find_first tree startofs 0 = Some first
        /\ (first < length tree)%nat
        /\ (forall j e, tree !! j = Some e -> (first < j)%nat -> startofs < fst (fst e))
        /\ (forall j e, tree !! j = Some e -> (0 < j <= first)%nat ->
                        fst (fst e) <= startofs)).
Proof.
  unfold Vfs._tree_decode. intros H.
  destruct (tree_entries h) as [t|e]; [|discriminate].
  destruct (Vfs.is_sorted t) eqn:Hs; [|discriminate].
  injection H as ->. split; [reflexivity|]. split; [|split].
  - clear startofs. induction tree as [|e rest IH]; intros i j x y Hi Hj Hij.
    + rewrite lookup_nil in Hi. discriminate.
    + destruct (is_sorted_head e rest Hs) as [Hrest Hall].
      destruct i as [|i], j as [|j]; simpl in Hi, Hj; try lia.
      * injection Hi as <-. injection Hj as <-. lia.
      * injection Hi as <-. apply (Hall j y Hj).
      * apply (IH Hrest i j x y Hi Hj). lia.
  - intros ->. reflexivity.
  - intros Hne. destruct (find_first_sorted tree startofs 0%nat Hne Hs)
      as (first & Hf & Hrest). exists first. split; [exact Hf | exact Hrest].
Qed.

End DecodedTrees.

Lemma first_loop_stops_at_the_row_of_startofs_witness :
  demo_tree "root" = Ok [(0, true, "t1"); (7, false, "b3"); (10, false, "b4")]%string
  /\ (forall i j x y,
        [(0, true, "t1"); (7, false, "b3"); (10, false, "b4")]%string !! i = Some x ->
        [(0, true, "t1"); (7, false, "b3"); (10, false, "b4")]%string !! j = Some y ->
        (i <= j)%nat -> fst (fst x) <= fst (fst y))
  /\ ([(0, true, "t1"); (7, false, "b3"); (10, false, "b4")]%string = [] ->
      Vfs.find_first [(0, true, "t1"); (7, false, "b3"); (10, false, "b4")]%string 8 0 = None)
  /\ ([(0, true, "t1"); (7, false, "b3"); (10, false, "b4")]%string <> [] ->
      exists first,
        Vfs.find_first [(0, true, "t1"); (7, false, "b3"); (10, false, "b4")]%string 8 0
        = Some first
        /\ (first < 3)%nat
        /\ (forall j e,
              [(0, true, "t1"); (7, false, "b3"); (10, false, "b4")]%string !! j = Some e ->
              (first < j)%nat -> 8 < fst (fst e))
        /\ (forall j e,
              [(0, true, "t1"); (7, false, "b3"); (10, false, "b4")]%string !! j = Some e ->
              (0 < j <= first)%nat -> fst (fst e) <= 8)).
Proof.
  exact (first_loop_stops_at_the_row_of_startofs demo_tree "root"
           [(0, true, "t1"); (7, false, "b3"); (10, false, "b4")]%string 8 eq_refl).
Defined.

(** ** [File.size] and its cache *)

Section SizeFacts.

Variable join : Vfs.hash -> result Vfs.bytes.
Variable tree_entries : Vfs.hash -> result (list Vfs.entry).
Variable depth_limit : nat.

(** X8. The first [size()] of a file whose object holds [content], stored as a
    blob or as a split tree, returns the number of bytes of the content and
    leaves it in [_cached_size]; from then on [size()] answers from the cache,
    whatever the object store would say. *)
Theorem size_is_computed_once (d : nat) (h : Vfs.hash) (mode : Vfs.bupmode)
        (content : Vfs.bytes) (f : Vfs.File) :
  Vfs.holds join tree_entries d h (Vfs.is_chunked mode) content ->
  (d <= depth_limit)%nat ->
  Vfs.f_hash f = h -> Vfs.f_bupmode f = mode -> Vfs.f_cached_size f = None ->
  exists f1,
    Vfs.File_size join tree_entries depth_limit f = (Ok (Vfs.len content), f1)
    /\ f1 = Vfs.mkFile h mode (Some (Vfs.len content)) (Vfs.f_filereader f)
    /\ forall join' tree_entries' depth_limit',
         Vfs.File_size join' tree_entries' depth_limit' f1 = (Ok (Vfs.len content), f1).
Proof.
  intros Hh Hd Hhash Hmode Hnone. unfold Vfs.File_size at 1. rewrite Hnone, Hmode, Hhash.
  assert (Hsize : (if Vfs.is_chunked mode
                   then Vfs._total_size join tree_entries depth_limit h
                   else Vfs._chunk_len join h) = Ok (Vfs.len content)).
  { destruct mode; simpl in *.
    - apply holds_blob in Hh. unfold Vfs._chunk_len. rewrite Hh. reflexivity.
    - apply (total_size_holds join tree_entries depth_limit d h content Hh Hd). }
  rewrite Hsize. eexists. split; [reflexivity|]. split; [reflexivity|].
  intros join' tree_entries' depth_limit'. reflexivity.
Qed.

(** X9. A split tree without rows: [size()] stops at [assert(tree)], so [open()]
    raises too and caches no reader; a reader made for such a tree all the
    same returns the empty string when no byte is asked for and, asked for
    one or more, raises the [UnboundLocalError] of [_chunkiter], whose first
    loop never binds [i]. *)
Theorem empty_split_tree_is_refused (h : Vfs.hash) (hp : list Vfs.FileReader)
        (size count : Z) :
  tree_entries h = Ok [] -> (0 < depth_limit)%nat -> 0 < count ->
  let f := Vfs.mkFile h Vfs.BUP_CHUNKED None None in
  let r := Vfs.FileReader_init h size true in
  Vfs.File_size join tree_entries depth_limit f = (Err AssertionError, f)
  /\ Vfs.File_open join tree_entries depth_limit hp f = (Err AssertionError, hp, f)
  /\ fst (Vfs.read join tree_entries depth_limit r 0) = Ok []
  /\ Vfs._chunkiter join tree_entries depth_limit h 0 = Vfs.GRaise UnboundLocalError
  /\ Vfs.read join tree_entries depth_limit r count = (Err UnboundLocalError, r).
Proof.
  intros Ht Hd Hc f r.
  destruct depth_limit as [|depth]; [lia|].
  assert (Hsize : Vfs.File_size join tree_entries (S depth) f = (Err AssertionError, f)).
  { unfold Vfs.File_size, Vfs._total_size. simpl. unfold Vfs._tree_decode.
    rewrite Ht. reflexivity. }
  assert (Hit : Vfs._chunkiter join tree_entries (S depth) h 0
                = Vfs.GRaise UnboundLocalError).
  { simpl. unfold Vfs._tree_decode. rewrite Ht. reflexivity. }
  split; [exact Hsize|]. split; [|split; [|split; [exact Hit|]]].
  - unfold Vfs.File_open. simpl Vfs.f_filereader. cbv beta iota. rewrite Hsize. reflexivity.
  - unfold Vfs.read, r. simpl Vfs.fr_reader. cbv beta iota.
    unfold Vfs.ChunkReader_init. simpl Vfs.fr_isdir. cbv beta iota.
    unfold Vfs.ChunkReader_next. simpl Vfs.cr_it. simpl Vfs.cr_blob.
    rewrite next_loop_exit by (change (Vfs.len []) with 0; simpl; lia).
    reflexivity.
  - unfold Vfs.read, r. simpl Vfs.fr_reader. cbv beta iota.
    destruct (Z.ltb_spec count 0) as [?|_]; [lia|].
    unfold Vfs.ChunkReader_init. simpl Vfs.fr_isdir. cbv beta iota.
    simpl Vfs.fr_hash. simpl Vfs.fr_ofs. rewrite Hit.
    unfold Vfs.ChunkReader_next. simpl Vfs.cr_it. simpl Vfs.cr_blob.
    simpl Vfs.loop_fuel.
    rewrite next_loop_step by (change (Vfs.len []) with 0; lia).
    reflexivity.
Qed.

(** X10. When [read] raises, the reader's position and size are as before, and
    the chunk reader it held or made is not used again: the next [read]
    starts a new one at the unchanged position. *)
Theorem failed_read_keeps_the_position (r : Vfs.FileReader) (count : Z) (e : exn) :
  fst (Vfs.read join tree_entries depth_limit r count) = Err e ->
  let r' := snd (Vfs.read join tree_entries depth_limit r count) in
  Vfs.tell r' = Vfs.tell r
  /\ Vfs.fr_size r' = Vfs.fr_size r
  /\ (r' = r \/ r' = Vfs.set_reader r None)
  /\ forall count',
       Vfs.read join tree_entries depth_limit r' count'
       = match Vfs.ChunkReader_init join tree_entries depth_limit
                 (Vfs.fr_hash r) (Vfs.fr_isdir r) (Vfs.tell r) with
         | Err e' => (Err e', r')
         | Ok cr =>
             match Vfs.ChunkReader_next
                     cr (if count' <? 0 then Vfs.fr_size r - Vfs.tell r else count') with
             | Err e' => (Err e', Vfs.set_reader r None)
             | Ok (buf, cr') =>
                 (Ok buf,
                  Vfs.set_ofs (Vfs.set_reader r (Some cr')) (Vfs.tell r + Vfs.len buf))
             end
         end.
Proof.
  unfold Vfs.read at 1 2. unfold Vfs.tell.
  destruct (Vfs.fr_reader r) as [cr0|] eqn:Hcr.
  - destruct (Z.eqb_spec (Vfs.cr_ofs cr0) (Vfs.fr_ofs r)) as [Heq|Hne].
    + destruct (Vfs.ChunkReader_next cr0 _) as [[buf cr']|e'] eqn:Hn; simpl; [discriminate|].
      intros _. split; [reflexivity|]. split; [reflexivity|]. split; [right; reflexivity|].
      intros count'. unfold Vfs.read. simpl.
      destruct (Vfs.ChunkReader_init _ _ _ _ _ _) as [cr|e'']; [|reflexivity].
      destruct (Vfs.ChunkReader_next cr _) as [[buf cr']|e'']; reflexivity.
    + destruct (Vfs.ChunkReader_init join tree_entries depth_limit _ _ _) as [cr|e'] eqn:Hi.
      * destruct (Vfs.ChunkReader_next cr _) as [[buf cr']|e''] eqn:Hn; simpl; [discriminate|].
        intros _. split; [reflexivity|]. split; [reflexivity|]. split; [right; reflexivity|].
        intros count'. unfold Vfs.read. simpl. rewrite Hi.
        destruct (Vfs.ChunkReader_next cr _) as [[buf cr']|e3]; reflexivity.
      * simpl. intros _. split; [reflexivity|]. split; [reflexivity|]. split; [left; reflexivity|].
        intros count'. unfold Vfs.read. rewrite Hcr.
        destruct (Z.eqb_spec (Vfs.cr_ofs cr0) (Vfs.fr_ofs r)) as [?|_]; [contradiction|].
        rewrite Hi. reflexivity.
  - destruct (Vfs.ChunkReader_init join tree_entries depth_limit _ _ _) as [cr|e'] eqn:Hi.
    + destruct (Vfs.ChunkReader_next cr _) as [[buf cr']|e''] eqn:Hn; simpl; [discriminate|].
      intros _. split; [reflexivity|]. split; [reflexivity|]. split; [right; reflexivity|].
      intros count'. unfold Vfs.read. simpl. rewrite Hi.
      destruct (Vfs.ChunkReader_next cr _) as [[buf cr']|e3]; reflexivity.
    + simpl. intros _. split; [reflexivity|]. split; [reflexivity|]. split; [left; reflexivity|].
      intros count'. unfold Vfs.read. rewrite Hcr, Hi. reflexivity.
Qed.

End SizeFacts.

Lemma size_is_computed_once_witness :
  exists f1,
    Vfs.File_size demo_join demo_tree 10 demo_file = (Ok 15, f1)
    /\ f1 = Vfs.mkFile "root" Vfs.BUP_CHUNKED (Some 15) None
    /\ forall join' tree_entries' depth_limit',
         Vfs.File_size join' tree_entries' depth_limit' f1 = (Ok 15, f1).
Proof.
  exact (size_is_computed_once demo_join demo_tree 10 2 "root" Vfs.BUP_CHUNKED
           demo_content demo_file demo_holds ltac:(lia) eq_refl eq_refl eq_refl).
Defined.

Lemma empty_split_tree_is_refused_witness :
  Vfs.File_size demo_join no_rows 10 (Vfs.mkFile "e" Vfs.BUP_CHUNKED None None)
  = (Err AssertionError, Vfs.mkFile "e" Vfs.BUP_CHUNKED None None)
  /\ Vfs.File_open demo_join no_rows 10 [] (Vfs.mkFile "e" Vfs.BUP_CHUNKED None None)
     = (Err AssertionError, [], Vfs.mkFile "e" Vfs.BUP_CHUNKED None None)
  /\ fst (Vfs.read demo_join no_rows 10 (Vfs.FileReader_init "e" 4 true) 0) = Ok []
  /\ Vfs._chunkiter demo_join no_rows 10 "e" 0 = Vfs.GRaise UnboundLocalError
  /\ Vfs.read demo_join no_rows 10 (Vfs.FileReader_init "e" 4 true) 3
     = (Err UnboundLocalError, Vfs.FileReader_init "e" 4 true).
Proof.
  apply (empty_split_tree_is_refused demo_join no_rows 10 "e" [] 4 3); [reflexivity | lia | lia].
Defined.

(** The blob [gone] is not in the store. *)
Lemma failed_read_keeps_the_position_witness :
  Vfs.tell (snd (Vfs.read demo_join demo_tree 10
                          (Vfs.seek (Vfs.FileReader_init "gone" 9 false) 4) 2)) = 4
  /\ Vfs.fr_size (snd (Vfs.read demo_join demo_tree 10
                                (Vfs.seek (Vfs.FileReader_init "gone" 9 false) 4) 2)) = 9
  /\ (snd (Vfs.read demo_join demo_tree 10
                    (Vfs.seek (Vfs.FileReader_init "gone" 9 false) 4) 2)
      = Vfs.seek (Vfs.FileReader_init "gone" 9 false) 4
      \/ snd (Vfs.read demo_join demo_tree 10
                       (Vfs.seek (Vfs.FileReader_init "gone" 9 false) 4) 2)
         = Vfs.set_reader (Vfs.seek (Vfs.FileReader_init "gone" 9 false) 4) None)
  /\ forall count',
       Vfs.read demo_join demo_tree 10
                (snd (Vfs.read demo_join demo_tree 10
                               (Vfs.seek (Vfs.FileReader_init "gone" 9 false) 4) 2)) count'
       = match Vfs.ChunkReader_init demo_join demo_tree 10 "gone" false 4 with
         | Err e' =>
             (Err e', snd (Vfs.read demo_join demo_tree 10
                                    (Vfs.seek (Vfs.FileReader_init "gone" 9 false) 4) 2))
         | Ok cr =>
             match Vfs.ChunkReader_next cr (if count' <? 0 then 9 - 4 else count') with
             | Err e' =>
                 (Err e', Vfs.set_reader (Vfs.seek (Vfs.FileReader_init "gone" 9 false) 4) None)
             | Ok (buf, cr') =>
                 (Ok buf,
                  Vfs.set_ofs (Vfs.set_reader (Vfs.seek (Vfs.FileReader_init "gone" 9 false) 4)
                                              (Some cr'))
                              (4 + Vfs.len buf))
             end
         end.
Proof.
  exact (failed_read_keeps_the_position demo_join demo_tree 10
           (Vfs.seek (Vfs.FileReader_init "gone" 9 false) 4) 2 StoreError eq_refl).
Defined.

(** ** Reads that follow each other *)

Lemma take_take_drop_length {A} (l : list A) (a b : nat) :
  take a l ++ take b (drop (length (take a l)) l) = take (a + b) l.
Proof.
  destruct (Nat.le_gt_cases a (length l)) as [Hle|Hgt].
  - rewrite length_take, Nat.min_l by exact Hle. apply take_take_drop.
  - rewrite (take_ge l a) by lia. rewrite drop_all, take_nil, app_nil_r.
    rewrite take_ge by lia. reflexivity.
Qed.

Section ReadsInARow.

Variable join : Vfs.hash -> result Vfs.bytes.
Variable tree_entries : Vfs.hash -> result (list Vfs.entry).
Variable depth_limit : nat.

Variable d : nat.
Variable h : Vfs.hash.
Variable isdir : bool.
Variable content : Vfs.bytes.

Hypothesis Hholds : Vfs.holds join tree_entries d h isdir content.
Hypothesis Hdepth : (d <= depth_limit)%nat.

(** X11. On a reader of a well-formed file, in any state it can reach, two reads
    in a row return together what one read of both counts returns, and leave
    the reader at the same position. *)
Theorem reads_in_a_row_join (r : Vfs.FileReader) (a b : Z) :
  Vfs.reachable join tree_entries depth_limit h (Vfs.len content) isdir r ->
  0 <= a -> 0 <= b ->
  exists buf1 r1 buf2 r2 r3,
    Vfs.read join tree_entries depth_limit r a = (Ok buf1, r1)
    /\ Vfs.read join tree_entries depth_limit r1 b = (Ok buf2, r2)
    /\ Vfs.read join tree_entries depth_limit r (a + b) = (Ok (buf1 ++ buf2), r3)
    /\ Vfs.tell r3 = Vfs.tell r2.
Proof.
  intros Hreach Ha Hb.
  pose proof (reachable_ok join tree_entries depth_limit d h isdir content
                Hholds Hdepth r Hreach) as Hok.
  destruct (read_ok join tree_entries depth_limit d h isdir content Hholds Hdepth
              r a Hok) as (r1 & Hr1 & Ho1 & Hok1).
  destruct (read_ok join tree_entries depth_limit d h isdir content Hholds Hdepth
              r1 b Hok1) as (r2 & Hr2 & Ho2 & Hok2).
  destruct (read_ok join tree_entries depth_limit d h isdir content Hholds Hdepth
              r (a + b) Hok) as (r3 & Hr3 & Ho3 & _).
  cbv zeta in *.
  destruct (Z.ltb_spec a 0) as [?|_]; [lia|].
  destruct (Z.ltb_spec b 0) as [?|_]; [lia|].
  destruct (Z.ltb_spec (a + b) 0) as [?|_]; [lia|].
  destruct (Vfs.ok_ofs h isdir content r Hok) as [Hp0 _].
  set (rest := drop (Z.to_nat (Vfs.fr_ofs r)) content) in *.
  assert (Hrest1 : drop (Z.to_nat (Vfs.fr_ofs r1)) content
                   = drop (length (take (Z.to_nat a) rest)) rest).
  { rewrite Ho1. unfold rest, Vfs.len. rewrite drop_drop. f_equal. lia. }
  rewrite Hrest1 in Hr2, Ho2.
  assert (Hjoin : take (Z.to_nat a) rest
                  ++ take (Z.to_nat b) (drop (length (take (Z.to_nat a) rest)) rest)
                  = take (Z.to_nat (a + b)) rest).
  { rewrite take_take_drop_length. f_equal. lia. }
  eexists _, r1, _, r2, r3. split; [exact Hr1|]. split; [exact Hr2|].
  split; [rewrite Hjoin; exact Hr3|].
  unfold Vfs.tell. rewrite Ho3, Ho2, Ho1, <- Hjoin, len_app. lia.
Qed.

End ReadsInARow.

Lemma reads_in_a_row_join_witness :
  exists buf1 r1 buf2 r2 r3,
    Vfs.read demo_join demo_tree 10 (Vfs.seek (Vfs.FileReader_init "root" 15 true) 2) 3
    = (Ok buf1, r1)
    /\ Vfs.read demo_join demo_tree 10 r1 6 = (Ok buf2, r2)
    /\ Vfs.read demo_join demo_tree 10 (Vfs.seek (Vfs.FileReader_init "root" 15 true) 2) (3 + 6)
       = (Ok (buf1 ++ buf2), r3)
    /\ Vfs.tell r3 = Vfs.tell r2.
Proof.
  apply (reads_in_a_row_join demo_join demo_tree 10 2 "root" true demo_content
           demo_holds ltac:(lia)
           (Vfs.seek (Vfs.FileReader_init "root" 15 true) 2) 3 6
           (Vfs.reach_seek demo_join demo_tree 10 "root" 15 true _ 2
              (Vfs.reach_init demo_join demo_tree 10 "root" 15 true))); lia.
Defined.

Section TopFacts.

Variable fs : Resolve.nid -> Resolve.node.

Lemma top_more_depth depth n r :
  Resolve.top fs depth n = Ok r -> Resolve.top fs (S depth) n = Ok r.
Proof.
  revert n. induction depth as [|depth IH]; intros n H; [discriminate|].
  simpl in H. change (Resolve.top fs (S (S depth)) n)
    with (match Resolve.parent (fs n) with
          | Some p => Resolve.top fs (S depth) p
          | None => Ok n
          end).
  destruct (Resolve.parent (fs n)) as [p|]; [apply IH; exact H | exact H].
Qed.

Lemma fs_top_more_depth depth n r :
  Resolve.fs_top fs depth n = Ok r -> Resolve.fs_top fs (S depth) n = Ok r.
Proof.
  revert n. induction depth as [|depth IH]; intros n H; [discriminate|].
  simpl in H. change (Resolve.fs_top fs (S (S depth)) n)
    with (match Resolve.parent (fs n) with
          | Some p => if Resolve.is_commit_list (Resolve.cls (fs p)) then Ok n
                      else Resolve.fs_top fs (S depth) p
          | None => Ok n
          end).
  destruct (Resolve.parent (fs n)) as [p|]; [|exact H].
  destruct (Resolve.is_commit_list _); [exact H | apply IH; exact H].
Qed.

(** X12. When [top()] returns within the call depth, it returns a node without a
    parent, and [fs_top()] returns as well: a node on the way to the top
    (its [top()] is the same) that has no parent or whose parent is a
    [CommitList], and that is its own [fs_top()]. *)
Theorem fs_top_lies_below_top (depth : nat) (n root : Resolve.nid) :
  Resolve.top fs depth n = Ok root ->
  Resolve.parent (fs root) = None
  /\ exists m,
       Resolve.fs_top fs depth n = Ok m
       /\ Resolve.top fs depth m = Ok root
       /\ (Resolve.parent (fs m) = None
           \/ exists p, Resolve.parent (fs m) = Some p
                        /\ Resolve.cls (fs p) = Resolve.CommitList)
       /\ Resolve.fs_top fs depth m = Ok m.
Proof.
  revert n. induction depth as [|depth IH]; intros n H; [discriminate|].
  simpl in H. simpl Resolve.fs_top at 1.
  destruct (Resolve.parent (fs n)) as [p|] eqn:Hp.
  - destruct (IH p H) as (Hroot & m & Hm & Htop & Hcase & Hfix).
    split; [exact Hroot|].
    destruct (Resolve.is_commit_list (Resolve.cls (fs p))) eqn:Hcl.
    + exists n. split; [reflexivity|]. split; [simpl; rewrite Hp; exact H|].
      split.
      * right. exists p. split; [exact Hp|].
        destruct (Resolve.cls (fs p)); try discriminate. reflexivity.
      * simpl. rewrite Hp, Hcl. reflexivity.
    + exists m. split; [exact Hm|]. split; [apply top_more_depth; exact Htop|].
      split; [exact Hcase | apply fs_top_more_depth; exact Hfix].
  - injection H as <-. split; [exact Hp|]. exists n.
    split; [reflexivity|]. split; [simpl; rewrite Hp; reflexivity|].
    split; [left; exact Hp | simpl; rewrite Hp; reflexivity].
Qed.

(** [lresolve('.')] as [resolve] calls it returns no symlink. *)
Lemma dot_is_no_symlink depth : forall n s m s',
  Resolve._lresolve fs depth n ["."%string] s = (Ok m, s') ->
  Resolve.is_symlink (Resolve.cls (fs m)) = false.
Proof.
  induction depth as [|depth IH]; intros n s m s' H; [discriminate|].
  destruct (Resolve.is_symlink (Resolve.cls (fs n))) eqn:Hn.
  - rewrite lresolve_symlink in H by exact Hn.
    destruct (Resolve.dereference fs depth n s) as [[t|e] s1]; [|discriminate].
    eapply IH. exact H.
  - rewrite lresolve_dot in H by exact Hn.
    destruct depth as [|depth]; [discriminate|].
    rewrite lresolve_done in H by exact Hn. injection H as <- _. exact Hn.
Qed.

Lemma resolve_dot depth m s :
  Resolve.lresolve fs depth m "." false s = Resolve._lresolve fs depth m ["."%string] s.
Proof. reflexivity. Qed.

(** X13. [resolve] never returns a symlink; whatever it returns, [try_resolve]
    returns too; and what [try_resolve] returns is no symlink either, unless
    it is the symlink [lresolve] arrived at, whose target could not be found
    ([NoSuchFile]). *)
Theorem resolve_returns_no_symlink (depth : nat) (n : Resolve.nid) (path : string)
        (symrefs : Z) :
  (forall m s', Resolve.resolve fs depth n path symrefs = (Ok m, s') ->
                Resolve.is_symlink (Resolve.cls (fs m)) = false
                /\ Paths.try_resolve fs depth n path symrefs = (Ok m, s'))
  /\ (forall m s', Paths.try_resolve fs depth n path symrefs = (Ok m, s') ->
                   Resolve.is_symlink (Resolve.cls (fs m)) = false
                   \/ (fst (Resolve.lresolve fs depth n path false symrefs) = Ok m
                       /\ fst (Resolve.resolve fs depth n path symrefs) = Err NoSuchFile)).
Proof.
  unfold Resolve.resolve, Paths.try_resolve.
  destruct (Resolve.lresolve fs depth n path false symrefs) as [[m0|e0] s1].
  - rewrite resolve_dot.
    destruct (Resolve._lresolve fs depth m0 ["."%string] s1) as [[m1|e1] s2] eqn:Hdot.
    + split.
      * intros m s' [= <- <-]. split; [|reflexivity]. eapply dot_is_no_symlink. exact Hdot.
      * intros m s' [= <- <-]. left. eapply dot_is_no_symlink. exact Hdot.
    + split; [intros m s' H; discriminate H|].
      intros m s' H. destruct e1; try discriminate H.
      injection H as <- <-. right. split; reflexivity.
  - split; intros m s' H; discriminate H.
Qed.

(** X14. The counter of nested dereferences is, after [dereference], [lresolve],
    [resolve] or [try_resolve], what it was before the call, whether the
    call returned or raised. *)
Theorem resolution_restores_the_counter (depth : nat) (n : Resolve.nid) (path : string)
        (stay_inside_fs : bool) (symrefs : Z) :
  snd (Resolve.dereference fs depth n symrefs) = symrefs
  /\ snd (Resolve.lresolve fs depth n path stay_inside_fs symrefs) = symrefs
  /\ snd (Resolve.resolve fs depth n path symrefs) = symrefs
  /\ snd (Paths.try_resolve fs depth n path symrefs) = symrefs.
Proof.
  assert (Hl : forall m p stay s, snd (Resolve.lresolve fs depth m p stay s) = s).
  { intros m p stay s. unfold Resolve.lresolve, Resolve.lresolve_with.
    destruct p as [|c p]; [reflexivity|].
    destruct (Ascii.eqb c "/"); [|apply lresolve_restores_counter].
    destruct (if stay then _ else _); [apply lresolve_restores_counter | reflexivity]. }
  split; [apply dereference_restores_counter|]. split; [apply Hl|].
  unfold Resolve.resolve, Paths.try_resolve.
  pose proof (Hl n path false symrefs) as H1.
  destruct (Resolve.lresolve fs depth n path false symrefs) as [[m|e] s1]; simpl in H1; subst s1.
  - pose proof (Hl m "."%string false symrefs) as H2.
    destruct (Resolve.lresolve fs depth m "." false symrefs) as [[m'|e'] s2];
      simpl in H2; subst s2; [split; reflexivity|].
    split; [reflexivity|]. destruct e'; reflexivity.
  - split; reflexivity.
Qed.

End TopFacts.

(** ** Splitting a path *)

Lemma string_app_assoc (a b c : string) : (a ++ (b ++ c) = (a ++ b) ++ c)%string.
Proof.
  induction a as [|x a IH]; [reflexivity|]. exact (f_equal (String x) IH).
Qed.

Lemma list_ascii_app' (a b : string) :
  list_ascii_of_string (a ++ b) = list_ascii_of_string a ++ list_ascii_of_string b.
Proof.
  induction a as [|c a IH]; [reflexivity|].
  exact (f_equal (cons c) IH).
Qed.

Lemma list_ascii_slashes k :
  list_ascii_of_string (Paths.slashes k) = "/"%char :: repeat "/"%char k.
Proof. induction k as [|k IH]; [reflexivity|]. simpl. rewrite IH. reflexivity. Qed.

Lemma split_slashes_cons_slash l cur :
  Resolve.split_slashes ("/"%char :: l) cur false
  = string_of_list_ascii (rev cur) :: Resolve.split_slashes l [] true.
Proof. reflexivity. Qed.

Lemma split_slashes_cons_other c l cur in_run :
  c <> "/"%char ->
  Resolve.split_slashes (c :: l) cur in_run = Resolve.split_slashes l (c :: cur) false.
Proof.
  intros Hc. simpl. apply Ascii.eqb_neq in Hc. rewrite Hc. reflexivity.
Qed.

(** More slashes after a slash are passed over. *)
Lemma split_slashes_run k l cur :
  Resolve.split_slashes (repeat "/"%char k ++ l) cur true
  = Resolve.split_slashes l cur true.
Proof. induction k as [|k IH]; [reflexivity|]. simpl. exact IH. Qed.

(** A name is read up to the slash that ends it. *)
Lemma split_slashes_name l : forall tl cur in_run,
  l <> [] -> Forall (fun c => c <> "/"%char) l ->
  Resolve.split_slashes (l ++ tl) cur in_run
  = Resolve.split_slashes tl (rev l ++ cur) false.
Proof.
  induction l as [|c l IH]; intros tl cur in_run Hne Hall; [congruence|].
  apply Forall_cons in Hall as [Hc Hall].
  change ((c :: l) ++ tl) with (c :: (l ++ tl)).
  rewrite split_slashes_cons_other by exact Hc.
  destruct l as [|c' l'].
  - reflexivity.
  - rewrite IH by (try discriminate; exact Hall).
    simpl rev. rewrite <- !app_assoc. reflexivity.
Qed.

Lemma string_rev_rev nm :
  string_of_list_ascii (rev (rev (list_ascii_of_string nm) ++ [])) = nm.
Proof. rewrite app_nil_r, rev_involutive. apply string_of_list_ascii_of_string. Qed.

Lemma part_list nm :
  Paths.part nm ->
  list_ascii_of_string nm <> [] /\ Forall (fun c => c <> "/"%char) (list_ascii_of_string nm).
Proof.
  intros [Hne Hall]. split; [|exact Hall].
  destruct nm; [congruence | discriminate].
Qed.

Lemma concat_cons2 sep (a b : string) rest :
  String.concat sep (a :: b :: rest) = (a ++ sep ++ String.concat sep (b :: rest))%string.
Proof. reflexivity. Qed.

(** Names joined by runs of slashes are split into the names again. *)
Lemma split_joined k names : forall in_run,
  names <> [] -> Forall Paths.part names ->
  Resolve.split_slashes (list_ascii_of_string (String.concat (Paths.slashes k) names))
                        [] in_run
  = names.
Proof.
  induction names as [|nm rest IH]; intros in_run Hne Hall; [congruence|].
  apply Forall_cons in Hall as [Hnm Hall].
  destruct (part_list nm Hnm) as [Hl Hs].
  destruct rest as [|nm2 rest].
  - simpl String.concat.
    rewrite <- (app_nil_r (list_ascii_of_string nm)).
    rewrite split_slashes_name by assumption.
    simpl. rewrite string_rev_rev. reflexivity.
  - rewrite concat_cons2, !list_ascii_app', list_ascii_slashes.
    rewrite split_slashes_name by assumption.
    change (("/"%char :: repeat "/"%char k) ++ ?x) with ("/"%char :: (repeat "/"%char k ++ x)).
    rewrite split_slashes_cons_slash, string_rev_rev, split_slashes_run.
    rewrite IH by (try discriminate; exact Hall). reflexivity.
Qed.

(** The same with slashes at the end: an empty last part. *)
Lemma split_joined_slash k j names : forall in_run,
  names <> [] -> Forall Paths.part names ->
  Resolve.split_slashes
    (list_ascii_of_string (String.concat (Paths.slashes k) names ++ Paths.slashes j))
    [] in_run
  = names ++ [""%string].
Proof.
  induction names as [|nm rest IH]; intros in_run Hne Hall; [congruence|].
  apply Forall_cons in Hall as [Hnm Hall].
  destruct (part_list nm Hnm) as [Hl Hs].
  destruct rest as [|nm2 rest].
  - simpl String.concat. rewrite list_ascii_app', list_ascii_slashes.
    rewrite split_slashes_name by assumption.
    rewrite split_slashes_cons_slash, string_rev_rev.
    rewrite <- (app_nil_r (repeat _ j)), split_slashes_run. reflexivity.
  - rewrite concat_cons2, <- !string_app_assoc, !list_ascii_app', list_ascii_slashes.
    rewrite split_slashes_name by assumption.
    change (("/"%char :: repeat "/"%char k) ++ ?x) with ("/"%char :: (repeat "/"%char k ++ x)).
    rewrite split_slashes_cons_slash, string_rev_rev, split_slashes_run.
    rewrite <- list_ascii_app'.
    rewrite IH by (try discriminate; exact Hall). reflexivity.
Qed.

Lemma dot_for_empty_last_parts names :
  Forall Paths.part names -> Resolve.dot_for_empty_last names = names.
Proof.
  induction names as [|nm rest IH]; intros Hall; [reflexivity|].
  apply Forall_cons in Hall as [[Hne _] Hall].
  destruct rest as [|nm2 rest].
  - simpl. apply String.eqb_neq in Hne. rewrite Hne. reflexivity.
  - change (Resolve.dot_for_empty_last (nm :: nm2 :: rest))
      with (nm :: Resolve.dot_for_empty_last (nm2 :: rest)).
    rewrite IH by exact Hall. reflexivity.
Qed.

Lemma dot_for_empty_last_snoc names :
  Resolve.dot_for_empty_last (names ++ [""%string]) = names ++ ["."%string].
Proof.
  induction names as [|nm rest IH]; [reflexivity|].
  destruct rest as [|nm2 rest]; [reflexivity|].
  change (Resolve.dot_for_empty_last ((nm :: nm2 :: rest) ++ [""%string]))
    with (nm :: Resolve.dot_for_empty_last ((nm2 :: rest) ++ [""%string])).
  rewrite IH. reflexivity.
Qed.

Lemma concat_parts_not_empty sep names :
  names <> [] -> Forall Paths.part names -> String.concat sep names <> ""%string.
Proof.
  intros Hne Hall. destruct names as [|nm rest]; [congruence|].
  apply Forall_cons in Hall as [[Hnm _] _].
  destruct nm as [|c nm]; [congruence|].
  destruct rest; simpl; discriminate.
Qed.

Lemma path_parts_joined (k : nat) (names : list string) :
  names <> [] -> Forall Paths.part names ->
  Resolve.path_parts (String.concat (Paths.slashes k) names) = names.
Proof.
  intros Hne Hall. unfold Resolve.path_parts, Resolve.re_split.
  pose proof (concat_parts_not_empty (Paths.slashes k) names Hne Hall) as Hc.
  apply String.eqb_neq in Hc. rewrite Hc.
  rewrite split_joined by assumption. apply dot_for_empty_last_parts. exact Hall.
Qed.

(** X15. The parts [lresolve] walks: names that are joined by slashes, one or
    more at a time, are split into the names again, each repeated slash
    counting as one, and slashes at the end of the path add a last part [.];
    the empty path is walked as [.]. *)
Theorem path_parts_of_joined_names (k j : nat) (names : list string) :
  names <> [] -> Forall Paths.part names ->
  Resolve.path_parts (String.concat (Paths.slashes k) names) = names
  /\ Resolve.path_parts (String.concat (Paths.slashes k) names ++ Paths.slashes j)
     = names ++ ["."%string]
  /\ Resolve.path_parts "" = ["."%string].
Proof.
  intros Hne Hall.
  split; [apply path_parts_joined; assumption|].
  unfold Resolve.path_parts, Resolve.re_split.
  split; [|reflexivity].
  - assert (Hc : (String.concat (Paths.slashes k) names ++ Paths.slashes j)%string
                 <> ""%string).
    { pose proof (concat_parts_not_empty (Paths.slashes k) names Hne Hall) as Hc.
      destruct (String.concat (Paths.slashes k) names); [congruence | discriminate]. }
    apply String.eqb_neq in Hc. rewrite Hc.
    rewrite split_joined_slash by assumption. apply dot_for_empty_last_snoc.
Qed.

Lemma part_a : Paths.part "a".
Proof. split; [discriminate|]. repeat constructor; discriminate. Qed.

Lemma part_dotdot : Paths.part "..".
Proof. split; [discriminate|]. repeat constructor; discriminate. Qed.

Lemma part_f : Paths.part "f".
Proof. split; [discriminate|]. repeat constructor; discriminate. Qed.

Lemma path_parts_of_joined_names_witness :
  Resolve.path_parts "a//..//f" = ["a"; ".."; "f"]%string
  /\ Resolve.path_parts "a//..//f///" = ["a"; ".."; "f"; "."]%string
  /\ Resolve.path_parts "" = ["."%string].
Proof.
  apply (path_parts_of_joined_names 1 2 ["a"; ".."; "f"]%string).
  - discriminate.
  - constructor; [apply part_a|]. constructor; [apply part_dotdot|].
    constructor; [apply part_f | constructor].
Defined.

Lemma fs_top_lies_below_top_witness :
  Resolve.parent (demo_commit 0%nat) = None
  /\ exists m,
       Resolve.fs_top demo_commit 8 4%nat = Ok m
       /\ Resolve.top demo_commit 8 m = Ok 0%nat
       /\ (Resolve.parent (demo_commit m) = None
           \/ exists p, Resolve.parent (demo_commit m) = Some p
                        /\ Resolve.cls (demo_commit p) = Resolve.CommitList)
       /\ Resolve.fs_top demo_commit 8 m = Ok m.
Proof.
  exact (fs_top_lies_below_top demo_commit 8 4%nat 0%nat eq_refl).
Defined.

Example demo_commit_fs_top :
  Resolve.fs_top demo_commit 8 4%nat = Ok 3%nat
  /\ Resolve.top demo_commit 8 4%nat = Ok 0%nat.
Proof. split; reflexivity. Qed.

Lemma resolve_returns_no_symlink_witness :
  Resolve.is_symlink (Resolve.cls (demo_nodes 4%nat)) = false
  /\ Paths.try_resolve demo_nodes 50 0%nat "/a/l" 0 = (Ok 4%nat, 0).
Proof.
  apply (proj1 (resolve_returns_no_symlink demo_nodes 50 0%nat "/a/l" 0) 4%nat 0).
  vm_compute. reflexivity.
Defined.

(** ** From a node to its full name and back *)

Section FullNames.

Variable fs : Resolve.nid -> Resolve.node.

Lemma part_no_slash_prefix nm : Paths.part nm -> String.prefix "/" nm = false.
Proof.
  intros [Hne Hall]. destruct nm as [|c nm]; [congruence|].
  simpl in Hall. apply Forall_cons in Hall as [Hc _].
  change (String.prefix "/" (String c nm))
    with (if ascii_dec "/" c then String.prefix "" nm else false).
  destruct (ascii_dec "/" c) as [E|_]; [congruence | reflexivity].
Qed.

Lemma concat_snoc (pre : list string) (nm : string) :
  pre <> [] ->
  String.concat "/" (pre ++ [nm]) = (String.concat "/" pre ++ "/" ++ nm)%string.
Proof.
  induction pre as [|a rest IH]; intros Hne; [congruence|].
  destruct rest as [|b rest].
  - reflexivity.
  - change ((a :: b :: rest) ++ [nm]) with (a :: b :: (rest ++ [nm])).
    rewrite !concat_cons2.
    change (b :: rest ++ [nm]) with ((b :: rest) ++ [nm]).
    rewrite IH by discriminate.
    rewrite <- !string_app_assoc. reflexivity.
Qed.

Lemma last_concat_parts (pre : list string) :
  pre <> [] -> Forall Paths.part pre ->
  exists c, last (list_ascii_of_string (String.concat "/" pre)) = Some c /\ c <> "/"%char.
Proof.
  induction pre as [|a rest IH]; intros Hne Hall; [congruence|].
  apply Forall_cons in Hall as [Ha Hall].
  destruct rest as [|b rest].
  - simpl String.concat. destruct (part_list a Ha) as [Hl Hs].
    destruct (list_ascii_of_string a) as [|x l] using rev_ind; [congruence|].
    rewrite last_snoc. exists x. split; [reflexivity|].
    apply Forall_app in Hs as [_ Hx]. apply Forall_cons in Hx as [Hx _]. exact Hx.
  - destruct (IH ltac:(discriminate) Hall) as (c & Hc & Hns).
    exists c. split; [|exact Hns].
    rewrite concat_cons2, !list_ascii_app'.
    destruct (list_ascii_of_string (String.concat "/" (b :: rest))) as [|x l] using rev_ind;
      [discriminate Hc|].
    rewrite !app_assoc, last_snoc. rewrite last_snoc in Hc. exact Hc.
Qed.

Lemma abs_path_ends_in_no_slash (pre : list string) :
  pre <> [] -> Forall Paths.part pre ->
  Paths.ends_with_slash ("/" ++ String.concat "/" pre) = false.
Proof.
  intros Hne Hpre. unfold Paths.ends_with_slash. rewrite list_ascii_app'.
  destruct (last_concat_parts pre Hne Hpre) as (c & Hc & Hns).
  destruct (list_ascii_of_string (String.concat "/" pre)) as [|x l] using rev_ind;
    [discriminate Hc|].
  rewrite app_assoc, last_snoc. rewrite last_snoc in Hc. injection Hc as ->.
  apply Ascii.eqb_neq. exact Hns.
Qed.

(** Joining one more name to an absolute path of names. *)
Lemma path_join_snoc (pre : list string) (nm : string) :
  Forall Paths.part pre -> Paths.part nm ->
  Paths.path_join ("/" ++ String.concat "/" pre) nm
  = ("/" ++ String.concat "/" (pre ++ [nm]))%string.
Proof.
  intros Hpre Hnm. unfold Paths.path_join.
  rewrite (part_no_slash_prefix nm Hnm).
  destruct pre as [|a rest].
  - reflexivity.
  - rewrite abs_path_ends_in_no_slash by (try discriminate; exact Hpre).
    change (String.eqb ("/" ++ String.concat "/" (a :: rest)) "") with false.
    cbv beta iota. simpl orb. cbv beta iota.
    rewrite concat_snoc by discriminate.
    rewrite <- !string_app_assoc. reflexivity.
Qed.

Lemma fullname_descends p names n :
  Paths.descends fs p names n ->
  forall d pre,
    Forall Paths.part pre ->
    Paths.fullname fs d p = Ok ("/" ++ String.concat "/" pre)%string ->
    Paths.fullname fs (d + length names) n
    = Ok ("/" ++ String.concat "/" (pre ++ names))%string.
Proof.
  induction 1 as [n|p nm c rest n Hp Hsub Hpar Hname Hplain Hd IH]; intros d pre Hpre Hf.
  - rewrite Nat.add_0_r, app_nil_r. exact Hf.
  - simpl length. replace (d + S (length rest))%nat with (S d + length rest)%nat by lia.
    replace (pre ++ nm :: rest) with ((pre ++ [nm]) ++ rest)
      by (rewrite <- app_assoc; reflexivity).
    apply IH.
    + apply Forall_app. split; [exact Hpre|]. constructor; [apply Hplain | constructor].
    + simpl. rewrite Hpar, Hf, Hname. f_equal. apply path_join_snoc; [exact Hpre | apply Hplain].
Qed.

Lemma descends_parts p names n :
  Paths.descends fs p names n -> Forall Paths.part names.
Proof.
  induction 1 as [|p nm c rest n _ _ _ _ Hplain _ IH]; constructor; [apply Hplain | exact IH].
Qed.

(** Walking down by the names arrives at the node. *)
Lemma walk_descends p names n :
  Paths.descends fs p names n ->
  names <> [] ->
  forall depth s, (length names <= depth)%nat ->
    Resolve._lresolve fs depth p names s = (Ok n, s).
Proof.
  induction 1 as [n|p nm c rest n Hp Hsub Hpar Hname Hplain Hd IH]; intros Hne depth s Hdepth;
    [congruence|].
  destruct Hplain as (_ & Hdot & Hdotdot).
  destruct depth as [|depth]; [simpl in Hdepth; lia|].
  destruct rest as [|nm2 rest].
  - inversion Hd; subst.
    rewrite lresolve_last by assumption.
    unfold Resolve.sub. rewrite Hsub. reflexivity.
  - rewrite lresolve_sub by assumption.
    unfold Resolve.sub. rewrite Hsub.
    apply IH; [discriminate | simpl in *; lia].
Qed.

(** X16. In a tree whose top node is named [/] and is no symlink, take a node
    reached from the top by [names] through nodes that are no symlinks, each
    held by its parent under its own name, a name that is not empty, has no
    slash and is neither [.] nor [..].  Then [fullname()] of the node is [/]
    followed by the names joined by slashes, and [lresolve] of that path,
    from any node of the tree, returns the node itself, also when it is a
    symlink. *)
Theorem fullname_leads_back_to_the_node
        (root : Resolve.nid) (names : list string) (n m : Resolve.nid)
        (depth : nat) (symrefs : Z) :
  Resolve.parent (fs root) = None ->
  Resolve.name (fs root) = "/"%string ->
  Resolve.is_symlink (Resolve.cls (fs root)) = false ->
  Paths.descends fs root names n ->
  (length names + 2 <= depth)%nat ->
  Resolve.top fs depth m = Ok root ->
  Paths.fullname fs depth n = Ok ("/" ++ String.concat "/" names)%string
  /\ Resolve.lresolve fs depth m ("/" ++ String.concat "/" names) false symrefs
     = (Ok n, symrefs).
Proof.
  intros Hpar Hname Hsym Hd Hdepth Htop. split.
  - replace depth with (S (depth - 1 - length names) + length names)%nat by lia.
    apply (fullname_descends root names n Hd _ []); [constructor|].
    simpl. rewrite Hpar, Hname. reflexivity.
  - change ("/" ++ String.concat "/" names)%string with (String "/" (String.concat "/" names)).
    rewrite lresolve_absolute, Htop.
    destruct names as [|nm rest].
    + inversion Hd; subst.
      change (Resolve.path_parts (String.concat "/" [])) with ["."%string].
      destruct depth as [|[|depth]]; [simpl in Hdepth; lia | simpl in Hdepth; lia|].
      rewrite lresolve_dot, lresolve_done by exact Hsym. reflexivity.
    + pose proof (descends_parts root _ n Hd) as Hparts.
      pose proof (path_parts_joined 0 (nm :: rest) ltac:(discriminate) Hparts) as Hpp.
      change (Paths.slashes 0) with "/"%string in Hpp. rewrite Hpp.
      apply (walk_descends root _ n Hd); [discriminate | lia].
Qed.

End FullNames.

Lemma plain_a : Paths.plain_name "a".
Proof. split; [apply part_a|]. split; discriminate. Qed.

Lemma plain_l : Paths.plain_name "l".
Proof.
  split; [|split; discriminate].
  split; [discriminate|]. repeat constructor; discriminate.
Qed.

Lemma demo_descends_to_l : Paths.descends demo_nodes 0%nat ["a"; "l"]%string 5%nat.
Proof.
  apply (Paths.descends_step demo_nodes 0%nat "a" 1%nat);
    [reflexivity | reflexivity | reflexivity | reflexivity | apply plain_a |].
  apply (Paths.descends_step demo_nodes 1%nat "l" 5%nat);
    [reflexivity | vm_compute; reflexivity | reflexivity | reflexivity | apply plain_l |].
  apply Paths.descends_here.
Qed.

Lemma fullname_leads_back_to_the_node_witness :
  Paths.fullname demo_nodes 10 5%nat = Ok "/a/l"%string
  /\ Resolve.lresolve demo_nodes 10 4%nat "/a/l" false 0 = (Ok 5%nat, 0).
Proof.
  apply (fullname_leads_back_to_the_node demo_nodes 0%nat ["a"; "l"]%string 5%nat 4%nat 10 0);
    [reflexivity | reflexivity | reflexivity | apply demo_descends_to_l
     | simpl; lia | reflexivity].
Defined.

(** ** The exceptions of a resolution *)

Section ResolveErrors.

Variable fs : Resolve.nid -> Resolve.node.

(** Every symlink has a parent and a target that can be read. *)
Hypothesis links_ok :
  forall m, Resolve.is_symlink (Resolve.cls (fs m)) = true ->
            is_Some (Resolve.parent (fs m)) /\ exists t, Resolve.readlink (fs m) = Ok t.






End ResolveErrors.



(** ** The children of a directory, by name and through the cache *)

(** Inserting under keys in list order: the last element with a key is the
    one found under it. *)
Lemma fold_insert_last {A V : Type} (key : A -> option string) (val : A -> V)
      (l : list A) : forall (m : gmap string V) (k : string),
  fold_left (fun m x => match key x with
                        | Some k' => <[k' := val x]> m
                        | None => m
                        end) l m !! k
  = match find (fun x => bool_decide (key x = Some k)) (rev l) with
    | Some x => Some (val x)
    | None => m !! k
    end.
Proof.
  induction l as [|x rest IH]; intros m k; [reflexivity|].
  simpl fold_left. rewrite IH. simpl rev. rewrite find_app_first.
  destruct (find _ (rev rest)); [reflexivity|].
  simpl. destruct (key x) as [k'|] eqn:Hk.
  - destruct (decide (k' = k)) as [->|Hne].
    + rewrite bool_decide_eq_true_2 by reflexivity. apply lookup_insert_eq.
    + rewrite bool_decide_eq_false_2 by congruence. apply lookup_insert_ne. exact Hne.
  - rewrite bool_decide_eq_false_2 by congruence. reflexivity.
Qed.

Section DirNodeFacts.

Variable demangle_name : string -> Z -> string * Vfs.bupmode.

(** The dictionary of [_mksubs] as a fold of insertions. *)
Lemma subs_fold entries : forall st,
  DirSubs._subs (fold_left (DirSubs.add_entry demangle_name) entries st)
  = fold_left (fun m e => match (if DirSubs.is_bupm e then None
                                 else Some (fst (DirSubs.make_child demangle_name e))) with
                          | Some k' => <[k' := snd (DirSubs.make_child demangle_name e)]> m
                          | None => m
                          end) entries (DirSubs._subs st).
Proof.
  induction entries as [|e rest IH]; intros st; [reflexivity|].
  simpl fold_left. rewrite IH. f_equal.
  destruct (DirSubs.is_bupm e) eqn:Hb.
  - rewrite add_entry_bupm by exact Hb. reflexivity.
  - rewrite add_entry_child by exact Hb. reflexivity.
Qed.

Lemma names_row_find entries name :
  find (fun e => bool_decide
                   ((if DirSubs.is_bupm e then None
                     else Some (fst (DirSubs.make_child demangle_name e))) = Some name))
       entries
  = find (DirNode.names_row demangle_name name) entries.
Proof.
  induction entries as [|e rest IH]; [reflexivity|]. cbn [find]. rewrite IH.
  assert (Hsame : bool_decide
                    ((if DirSubs.is_bupm e then None
                      else Some (fst (DirSubs.make_child demangle_name e))) = Some name)
                  = DirNode.names_row demangle_name name e).
  { unfold DirNode.names_row. destruct (DirSubs.is_bupm e).
    - apply bool_decide_eq_false_2. discriminate.
    - destruct (String.eqb_spec (fst (DirSubs.make_child demangle_name e)) name) as [->|Hne].
      + apply bool_decide_eq_true_2. reflexivity.
      + apply bool_decide_eq_false_2. congruence. }
  rewrite Hsame. reflexivity.
Qed.

Lemma mksubs_lookup bupm0 entries name :
  DirSubs.sub (snd (DirSubs._mksubs demangle_name bupm0 (Ok entries))) name
  = DirNode.child_of demangle_name entries name.
Proof.
  unfold DirSubs.sub, DirNode.child_of. simpl.
  rewrite subs_fold, fold_insert_last, names_row_find. simpl.
  destruct (find _ (rev entries)); [reflexivity|]. rewrite lookup_empty. reflexivity.
Qed.

(** The number of children when no two rows are listed under one name. *)
Lemma subs_size entries : forall st,
  NoDup (map (fun e => fst (DirSubs.make_child demangle_name e))
             (filter (fun e => DirSubs.is_bupm e = false) entries)) ->
  (forall e, In e entries -> DirSubs.is_bupm e = false ->
             DirSubs._subs st !! fst (DirSubs.make_child demangle_name e) = None) ->
  size (DirSubs._subs (fold_left (DirSubs.add_entry demangle_name) entries st))
  = (length (filter (fun e => DirSubs.is_bupm e = false) entries)
     + size (DirSubs._subs st))%nat.
Proof.
  induction entries as [|e rest IH]; intros st Hnd Hfresh; [reflexivity|].
  simpl fold_left. destruct (DirSubs.is_bupm e) eqn:Hb.
  - rewrite filter_cons_False in * by (rewrite Hb; discriminate).
    rewrite IH; [|exact Hnd|].
    + rewrite add_entry_bupm by exact Hb. reflexivity.
    + intros e' Hin Hb'. rewrite add_entry_bupm by exact Hb. simpl.
      apply Hfresh; [right; exact Hin | exact Hb'].
  - rewrite filter_cons_True in * by exact Hb. simpl in Hnd.
    apply NoDup_cons in Hnd as [Hx Hnd].
    rewrite IH; [|exact Hnd|].
    + rewrite add_entry_child by exact Hb. simpl.
      rewrite map_size_insert_None by (apply Hfresh; [left; reflexivity | exact Hb]). lia.
    + intros e' Hin Hb'. rewrite add_entry_child by exact Hb. simpl.
      rewrite lookup_insert_ne; [apply Hfresh; [right; exact Hin | exact Hb']|].
      intros Heq. apply Hx. rewrite Heq. apply list_elem_of_In.
      apply (in_map (fun e => fst (DirSubs.make_child demangle_name e))).
      apply list_elem_of_In, list_elem_of_filter. split; [exact Hb'|].
      apply list_elem_of_In. exact Hin.
Qed.

(** X17. After [_mksubs] over the rows of a tree, [sub(name)] returns the child
    made from the last row that is listed under [name] (a row not named
    [.bupm] whose display name is [name]) and raises [NoSuchFile] when there
    is no such row: a later row replaces an earlier one of the same display
    name.  When the display names of the rows are pairwise different there
    are as many children as rows not named [.bupm]. *)
Theorem mksubs_lists_the_last_row_of_a_name
        (bupm0 : option DirSubs.child) (entries : list DirSubs.tree_entry) :
  let st := snd (DirSubs._mksubs demangle_name bupm0 (Ok entries)) in
  (forall name, DirSubs.sub st name = DirNode.child_of demangle_name entries name)
  /\ (NoDup (map (fun e => fst (DirSubs.make_child demangle_name e))
                 (filter (fun e => DirSubs.is_bupm e = false) entries)) ->
      length (DirSubs.subs st)
      = length (filter (fun e => DirSubs.is_bupm e = false) entries)).
Proof.
  intros st. split; [intros name; apply mksubs_lookup|].
  intros Hnd. unfold DirSubs.subs. rewrite length_map, length_map_to_list.
  subst st. simpl. rewrite subs_size; [simpl; rewrite map_size_empty; lia | exact Hnd |].
  intros; apply lookup_empty.
Qed.

Section Cache.

Variable entries : list DirSubs.tree_entry.

Lemma mksubs_in_cache_state o :
  DirNode.cache_state demangle_name entries o ->
  DirNode._mksubs demangle_name (Ok entries) o
  = (Ok tt,
     DirNode.mkDirObj
       (Some (DirSubs._subs
                (fold_left (DirSubs.add_entry demangle_name) entries
                           (DirSubs.mkDirState ∅ None))))
       (DirNode.bupm_of entries)).
Proof.
  intros Ho. unfold DirNode._mksubs. simpl. f_equal. f_equal.
  - rewrite !subs_fold. reflexivity.
  - rewrite fold_bupm. unfold DirNode.bupm_of.
    destruct (find DirSubs.is_bupm (rev entries)) eqn:Hf; [reflexivity|].
    simpl. destruct Ho as [->| ->]; simpl; [reflexivity|].
    unfold DirNode.bupm_of. rewrite Hf. reflexivity.
Qed.

Lemma sub_in_cache_state o name :
  DirNode.cache_state demangle_name entries o ->
  exists o', DirNode.sub demangle_name (Ok entries) o name
             = (DirNode.child_of demangle_name entries name, o')
             /\ DirNode.cache_state demangle_name entries o'.
Proof.
  intros Ho.
  pose proof (mksubs_lookup None entries name) as Hl.
  unfold DirSubs.sub in Hl. simpl in Hl.
  assert (Hfull : DirNode.cache_state demangle_name entries
                    (DirNode.mkDirObj
                       (Some (DirSubs._subs
                                (fold_left (DirSubs.add_entry demangle_name) entries
                                           (DirSubs.mkDirState ∅ None))))
                       (DirNode.bupm_of entries))) by (right; reflexivity).
  set (full := DirNode.mkDirObj
                 (Some (DirSubs._subs
                          (fold_left (DirSubs.add_entry demangle_name) entries
                                     (DirSubs.mkDirState ∅ None))))
                 (DirNode.bupm_of entries)) in *.
  exists full. split; [|exact Hfull].
  unfold DirNode.sub. destruct Ho as [->| ->].
  - cbn [DirNode.d_subs DirNode.fresh].
    rewrite (mksubs_in_cache_state DirNode.fresh) by (left; reflexivity).
    fold full. cbn [DirNode.d_subs full]. rewrite <- Hl.
    destruct (_ !! name); reflexivity.
  - cbn [DirNode.d_subs full]. rewrite <- Hl.
    destruct (_ !! name); reflexivity.
Qed.

Lemma metadata_file_in_cache_state o :
  DirNode.cache_state demangle_name entries o ->
  exists o', DirNode.metadata_file demangle_name (Ok entries) o
             = (Ok (DirNode.bupm_of entries), o')
             /\ DirNode.cache_state demangle_name entries o'.
Proof.
  intros Ho. unfold DirNode.metadata_file.
  pose proof (mksubs_in_cache_state o Ho) as Hmk.
  destruct Ho as [->| ->].
  - change (DirNode.no_subs DirNode.fresh) with true. cbv beta iota.
    rewrite Hmk. eexists. split; [reflexivity|]. right. reflexivity.
  - destruct (DirNode.no_subs _).
    + rewrite Hmk. eexists. split; [reflexivity|]. right. reflexivity.
    + eexists. split; [reflexivity|]. right. reflexivity.
Qed.

(** X18. For a directory whose tree can be read, the cache does not show: after
    any calls of [sub], [metadata_file] and [release] on a new [Dir], in any
    order, each [sub(name)] returns the child of the last row listed under
    [name], or raises [NoSuchFile], and each [metadata_file()] returns the
    file of the last row named [.bupm], or [None]. *)
Theorem dir_answers_do_not_depend_on_the_cache (calls : list DirNode.call) :
  DirNode.run demangle_name (Ok entries) calls DirNode.fresh
  = map (DirNode.plain_answer demangle_name entries) calls.
Proof.
  assert (H : forall o, DirNode.cache_state demangle_name entries o ->
                        DirNode.run demangle_name (Ok entries) calls o
                        = map (DirNode.plain_answer demangle_name entries) calls).
  { induction calls as [|c rest IH]; intros o Ho; [reflexivity|].
    destruct c as [name| |]; simpl.
    - destruct (sub_in_cache_state o name Ho) as (o' & -> & Ho'). rewrite (IH o' Ho'). reflexivity.
    - destruct (metadata_file_in_cache_state o Ho) as (o' & -> & Ho').
      rewrite (IH o' Ho'). reflexivity.
    - rewrite IH by (left; reflexivity). reflexivity. }
  apply H. left. reflexivity.
Qed.

End Cache.

(** X19. When the tree of a directory cannot be read, the first [sub] raises the
    store's exception and leaves an empty dictionary behind; from then on
    [sub] reads nothing and raises [NoSuchFile] for every name, while
    [metadata_file] reads again and raises the store's exception each time;
    after [release()] [sub] reads again. *)
Theorem unreadable_dir_is_listed_as_empty (e : exn) (name name' : string) :
  let o1 := DirNode.mkDirObj (Some ∅) None in
  DirNode.sub demangle_name (Err e) DirNode.fresh name = (Err e, o1)
  /\ DirNode.sub demangle_name (Err e) o1 name' = (Err NoSuchFile, o1)
  /\ DirNode.metadata_file demangle_name (Err e) o1 = (Err e, o1)
  /\ DirNode.sub demangle_name (Err e) (DirNode.release o1) name' = (Err e, o1).
Proof.
  intros o1. split; [reflexivity|]. split; [|split; reflexivity].
  unfold DirNode.sub. simpl. rewrite lookup_empty. reflexivity.
Qed.

End DirNodeFacts.

Lemma demo_names_differ :
  NoDup (map (fun e => fst (DirSubs.make_child demo_demangle e))
             (filter (fun e => DirSubs.is_bupm e = false) demo_entries)).
Proof.
  vm_compute. repeat constructor; rewrite ?list_elem_of_In; simpl; intuition discriminate.
Qed.

Lemma mksubs_lists_the_last_row_of_a_name_witness :
  length (DirSubs.subs (snd (DirSubs._mksubs demo_demangle None (Ok demo_entries))))
  = length (filter (fun e => DirSubs.is_bupm e = false) demo_entries).
Proof.
  exact (proj2 (mksubs_lists_the_last_row_of_a_name demo_demangle None demo_entries)
           demo_names_differ).
Defined.

Example demo_dir_calls :
  DirNode.run demo_demangle (Ok demo_entries)
              [DirNode.CallMetadataFile; DirNode.CallSub "big"; DirNode.CallRelease;
               DirNode.CallSub ".bupm"; DirNode.CallMetadataFile] DirNode.fresh
  = [DirNode.MetadataFile (Ok (Some (DirSubs.NewFile ".bupm" 33188 "m" Vfs.BUP_NORMAL)));
     DirNode.Child (Ok (DirSubs.NewFile "big" 33188 "t" Vfs.BUP_CHUNKED));
     DirNode.Released;
     DirNode.Child (Err NoSuchFile);
     DirNode.MetadataFile (Ok (Some (DirSubs.NewFile ".bupm" 33188 "m" Vfs.BUP_NORMAL)))].
Proof. vm_compute. reflexivity. Qed.

(** ** The commits under [.commit] *)

Lemma substring_all (s : string) : String.substring 0 (String.length s) s = s.
Proof. induction s as [|c s IH]; [reflexivity|]. exact (f_equal (String c) IH). Qed.

(** [commithex[:2] + commithex[2:]] is [commithex]. *)
Lemma container_dir_join (commithex : string) :
  (Refs.containername commithex ++ Refs.dirname commithex)%string = commithex.
Proof.
  unfold Refs.containername, Refs.dirname.
  destruct commithex as [|a [|b rest]]; [reflexivity | reflexivity |].
  change (String.length (String a (String b rest)) - 2)%nat with (String.length rest - 0)%nat.
  rewrite Nat.sub_0_r.
  change (String.substring 2 (String.length rest) (String a (String b rest)))
    with (String.substring 0 (String.length rest) rest).
  rewrite substring_all.
  change (String.substring 0 2 (String a (String b rest)))
    with (String a (String b (String.substring 0 0 rest))).
  destruct rest; reflexivity.
Qed.

Lemma container_dir_inj (c c' : string) :
  Refs.containername c = Refs.containername c' -> Refs.dirname c = Refs.dirname c' -> c = c'.
Proof.
  intros H1 H2. rewrite <- (container_dir_join c), <- (container_dir_join c'), H1, H2.
  reflexivity.
Qed.

Section CommitDirFacts.

Variable unhex : string -> Vfs.hash.

(** One commit entered into its container. *)
Lemma commit_at_put (subs subs1 : gmap string Refs.commits) (n1 : Refs.commits)
      (kc dc k d : string) (v : Vfs.hash * Z) :
  (subs !! kc = Some n1 /\ subs1 = subs
   \/ subs !! kc = None /\ n1 = ∅ /\ subs1 = <[kc := ∅]> subs) ->
  Refs.commit_at (<[kc := <[dc := v]> n1]> subs1) k d
  = if bool_decide (k = kc /\ d = dc) then Some v else Refs.commit_at subs k d.
Proof.
  intros Hn. unfold Refs.commit_at.
  destruct (decide (k = kc)) as [->|Hk].
  - rewrite lookup_insert_eq. cbv beta iota.
    destruct (decide (d = dc)) as [->|Hd].
    + rewrite bool_decide_eq_true_2 by auto. apply lookup_insert_eq.
    + rewrite bool_decide_eq_false_2 by tauto.
      rewrite lookup_insert_ne by congruence.
      destruct Hn as [[-> _]|(-> & -> & _)]; [reflexivity | apply lookup_empty].
  - rewrite bool_decide_eq_false_2 by tauto. rewrite lookup_insert_ne by congruence.
    destruct Hn as [[_ ->]|(_ & _ & ->)]; [reflexivity|].
    rewrite lookup_insert_ne by congruence. reflexivity.
Qed.

(** One turn of the loop: the commit is there already and the loop ends, or
    it is entered and the loop goes on. *)
Lemma add_revs_cons (item : Branch.rev_item) (rest : list Branch.rev_item) subs :
  (is_Some (Refs.commit_at subs (Refs.containername (fst item)) (Refs.dirname (fst item)))
   /\ Refs.add_revs unhex (item :: rest) subs = subs)
  \/ (Refs.commit_at subs (Refs.containername (fst item)) (Refs.dirname (fst item)) = None
      /\ exists subs2,
           Refs.add_revs unhex (item :: rest) subs = Refs.add_revs unhex rest subs2
           /\ forall k d,
                Refs.commit_at subs2 k d
                = if bool_decide (k = Refs.containername (fst item)
                                  /\ d = Refs.dirname (fst item))
                  then Some (unhex (fst item), snd item) else Refs.commit_at subs k d).
Proof.
  destruct item as [c date]. unfold Refs.commit_at at 1 2. simpl Refs.add_revs. simpl fst.
  simpl snd.
  destruct (subs !! Refs.containername c) as [n1|] eqn:Hc.
  - destruct (n1 !! Refs.dirname c) as [v|] eqn:Hd.
    + left. split; [eauto | reflexivity].
    + right. split; [reflexivity|]. eexists. split; [reflexivity|].
      intros k d. apply commit_at_put. left. auto.
  - rewrite lookup_empty. right. split; [reflexivity|]. eexists. split; [reflexivity|].
    intros k d. apply commit_at_put. right. auto.
Qed.

(** What is held stays, whatever is added. *)
Lemma add_revs_keeps (revs : list Branch.rev_item) : forall subs k d v,
  Refs.commit_at subs k d = Some v ->
  Refs.commit_at (Refs.add_revs unhex revs subs) k d = Some v.
Proof.
  induction revs as [|item rest IH]; intros subs k d v H; [exact H|].
  destruct (add_revs_cons item rest subs) as [[_ Heq]|(Hnone & subs2 & Heq & Hput)];
    rewrite Heq; [exact H|].
  apply IH. rewrite Hput.
  destruct (decide (k = Refs.containername (fst item) /\ d = Refs.dirname (fst item)))
    as [[-> ->]|Hne].
  - congruence.
  - rewrite bool_decide_eq_false_2 by exact Hne. exact H.
Qed.

(** What is held was held before or is a commit of the list. *)
Lemma add_revs_sound (revs : list Branch.rev_item) : forall subs k d v,
  Refs.commit_at (Refs.add_revs unhex revs subs) k d = Some v ->
  Refs.commit_at subs k d = Some v
  \/ exists c date, In (c, date) revs /\ k = Refs.containername c /\ d = Refs.dirname c
                    /\ v = (unhex c, date).
Proof.
  induction revs as [|item rest IH]; intros subs k d v H; [left; exact H|].
  destruct (add_revs_cons item rest subs) as [[_ Heq]|(Hnone & subs2 & Heq & Hput)];
    rewrite Heq in H; [left; exact H|].
  destruct (IH _ _ _ _ H) as [H0|(c' & date' & Hin & Hk & Hd & Hv)].
  - rewrite Hput in H0.
    destruct (decide (k = Refs.containername (fst item) /\ d = Refs.dirname (fst item)))
      as [[-> ->]|Hne].
    + rewrite bool_decide_eq_true_2 in H0 by auto. injection H0 as <-.
      right. exists (fst item), (snd item).
      split; [left; destruct item; reflexivity | auto].
    + rewrite bool_decide_eq_false_2 in H0 by exact Hne. left. exact H0.
  - right. exists c', date'. split; [right; exact Hin | auto].
Qed.

(** The first commit of the list is held afterwards. *)
Lemma add_revs_tip (item : Branch.rev_item) (rest : list Branch.rev_item) subs :
  is_Some (Refs.commit_at (Refs.add_revs unhex (item :: rest) subs)
                          (Refs.containername (fst item)) (Refs.dirname (fst item))).
Proof.
  destruct (add_revs_cons item rest subs) as [[Hs Heq]|(Hnone & subs2 & Heq & Hput)];
    rewrite Heq; [exact Hs|].
  exists (unhex (fst item), snd item). apply add_revs_keeps. rewrite Hput.
  rewrite bool_decide_eq_true_2 by auto. reflexivity.
Qed.

(** A list of commits none of which is held, and no two of which are the
    same, is entered in full. *)
Lemma add_revs_all (revs : list Branch.rev_item) : forall subs,
  NoDup (map fst revs) ->
  (forall c date, In (c, date) revs ->
                  Refs.commit_at subs (Refs.containername c) (Refs.dirname c) = None) ->
  forall c date, In (c, date) revs ->
    Refs.commit_at (Refs.add_revs unhex revs subs) (Refs.containername c) (Refs.dirname c)
    = Some (unhex c, date).
Proof.
  induction revs as [|item rest IH]; intros subs Hnd Hfresh c date Hin; [destruct Hin|].
  simpl in Hnd. apply NoDup_cons in Hnd as [Hc0 Hnd].
  destruct (add_revs_cons item rest subs) as [[Hs _]|(Hnone & subs2 & Heq & Hput)].
  - rewrite (Hfresh (fst item) (snd item)) in Hs by (left; destruct item; reflexivity).
    destruct Hs as [? Hs]. discriminate.
  - rewrite Heq. destruct Hin as [->|Hin].
    + apply add_revs_keeps. rewrite Hput, bool_decide_eq_true_2 by auto. reflexivity.
    + apply IH; [exact Hnd | | exact Hin].
      intros c' date' Hin'. rewrite Hput.
      rewrite bool_decide_eq_false_2; [apply (Hfresh c' date'); right; exact Hin'|].
      intros [H1 H2]. apply Hc0. rewrite <- (container_dir_inj c' (fst item) H1 H2).
      apply list_elem_of_In. apply (in_map fst) in Hin'. exact Hin'.
Qed.

Lemma fold_add_revs_keeps ref_revs : forall subs k d v,
  Refs.commit_at subs k d = Some v ->
  Refs.commit_at (fold_left (fun subs revs => Refs.add_revs unhex revs subs) ref_revs subs) k d
  = Some v.
Proof.
  induction ref_revs as [|revs rest IH]; intros subs k d v H; [exact H|].
  simpl. apply IH. apply add_revs_keeps. exact H.
Qed.

Lemma fold_add_revs_sound ref_revs : forall subs k d v,
  Refs.commit_at (fold_left (fun subs revs => Refs.add_revs unhex revs subs) ref_revs subs) k d
  = Some v ->
  Refs.commit_at subs k d = Some v
  \/ exists revs c date, In revs ref_revs /\ In (c, date) revs
                         /\ k = Refs.containername c /\ d = Refs.dirname c
                         /\ v = (unhex c, date).
Proof.
  induction ref_revs as [|revs rest IH]; intros subs k d v H; [left; exact H|].
  simpl in H. destruct (IH _ _ _ _ H) as [H0|(revs' & c & date & Hin & Hrest)].
  - destruct (add_revs_sound revs _ _ _ _ H0) as [H1|(c & date & Hin & Hrest)];
      [left; exact H1|].
    right. exists revs, c, date. split; [left; reflexivity | split; [exact Hin | exact Hrest]].
  - right. exists revs', c, date. split; [right; exact Hin | exact Hrest].
Qed.

Lemma fold_add_revs_tip ref_revs : forall subs (item : Branch.rev_item) rest,
  In (item :: rest) ref_revs ->
  is_Some (Refs.commit_at
             (fold_left (fun subs revs => Refs.add_revs unhex revs subs) ref_revs subs)
             (Refs.containername (fst item)) (Refs.dirname (fst item))).
Proof.
  induction ref_revs as [|revs0 more IH]; intros subs item rest Hin; [destruct Hin|].
  simpl. destruct Hin as [->|Hin]; [|apply (IH _ item rest); exact Hin].
  destruct (add_revs_tip item rest subs) as [v Hv].
  exists v. apply fold_add_revs_keeps. exact Hv.
Qed.

Lemma commit_at_empty k d : Refs.commit_at ∅ k d = None.
Proof. unfold Refs.commit_at. rewrite lookup_empty. reflexivity. Qed.

(** X20. After [CommitDir._mksubs]: every commit held under a container and a
    directory name is a commit of the history of some ref, held with its own
    time under the first two digits of its hash and the rest of them; the
    first commit of every ref's history is held; and when no commit comes
    twice in the history of the first ref, that history is held in full.
    (The loop over a later ref stops at the first commit it finds held.) *)
Theorem commit_dir_holds_commits_of_the_refs (ref_revs : list (list Branch.rev_item)) :
  let subs := Refs.CommitDir_mksubs unhex ref_revs in
  (forall container dir commit date,
     Refs.commit_at subs container dir = Some (commit, date) ->
     exists revs commithex,
       In revs ref_revs /\ In (commithex, date) revs
       /\ container = Refs.containername commithex /\ dir = Refs.dirname commithex
       /\ (container ++ dir)%string = commithex
       /\ commit = unhex commithex)
  /\ (forall revs tip rest,
        In revs ref_revs -> revs = tip :: rest ->
        exists date,
          Refs.commit_at subs (Refs.containername (fst tip)) (Refs.dirname (fst tip))
          = Some (unhex (fst tip), date))
  /\ (forall first others,
        ref_revs = first :: others -> NoDup (map fst first) ->
        forall commithex date,
          In (commithex, date) first ->
          Refs.commit_at subs (Refs.containername commithex) (Refs.dirname commithex)
          = Some (unhex commithex, date)).
Proof.
  intros subs. subst subs. unfold Refs.CommitDir_mksubs.
  assert (Hsound : forall container dir commit date,
            Refs.commit_at (fold_left (fun subs revs => Refs.add_revs unhex revs subs)
                                      ref_revs ∅) container dir = Some (commit, date) ->
            exists revs commithex,
              In revs ref_revs /\ In (commithex, date) revs
              /\ container = Refs.containername commithex /\ dir = Refs.dirname commithex
              /\ (container ++ dir)%string = commithex
              /\ commit = unhex commithex).
  { intros container dir commit date H.
    destruct (fold_add_revs_sound ref_revs ∅ _ _ _ H) as [H0|(revs & c & date' & Hin & Hc & -> & -> & Hv)].
    - rewrite commit_at_empty in H0. discriminate.
    - injection Hv as -> ->. exists revs, c.
      split; [exact Hin|]. split; [exact Hc|]. split; [reflexivity|].
      split; [reflexivity|]. split; [apply container_dir_join | reflexivity]. }
  split; [exact Hsound|]. split.
  - intros revs [c date] rest Hin ->. simpl fst.
    pose proof (fold_add_revs_tip ref_revs ∅ (c, date) rest Hin) as Hs. simpl fst in Hs.
    destruct Hs as [[commit date'] Hv].
    destruct (Hsound _ _ _ _ Hv) as (revs' & c' & _ & _ & Hk & Hd & _ & ->).
    rewrite (container_dir_inj c c' Hk Hd) in *. exists date'. exact Hv.
  - intros first others -> Hnd c date Hin. simpl.
    apply fold_add_revs_keeps. apply add_revs_all; [exact Hnd | | exact Hin].
    intros; apply commit_at_empty.
Qed.

End CommitDirFacts.

Lemma shared_history_first_differs : NoDup (map fst two_commits).
Proof.
  vm_compute. repeat constructor; rewrite ?list_elem_of_In; simpl; intuition discriminate.
Qed.

Lemma commit_dir_holds_commits_of_the_refs_witness :
  Refs.commit_at (Refs.CommitDir_mksubs (fun s => s) shared_history)
                 "aa" "aaaaaaaaaaaaaaaaaaaaaaaaaaaaaaaaaaaaaa"
  = Some ("aaaaaaaaaaaaaaaaaaaaaaaaaaaaaaaaaaaaaaaa"%string, 1700000000).
Proof.
  exact (proj2 (proj2 (commit_dir_holds_commits_of_the_refs (fun s => s) shared_history))
           two_commits _ eq_refl shared_history_first_differs
           "aaaaaaaaaaaaaaaaaaaaaaaaaaaaaaaaaaaaaaaa"%string 1700000000
           (or_intror (or_introl eq_refl))).
Defined.

(** The second branch stops at the shared commit: the commit [dd..] behind it
    is in no container. *)
Example shared_history_stops_early :
  Refs.commit_at (Refs.CommitDir_mksubs (fun s => s) shared_history)
                 "cc" "cccccccccccccccccccccccccccccccccccccc"
  = Some ("cccccccccccccccccccccccccccccccccccccccc"%string, 1700007200)
  /\ Refs.commit_at (Refs.CommitDir_mksubs (fun s => s) shared_history)
                    "dd" "dddddddddddddddddddddddddddddddddddddd" = None.
Proof. vm_compute. split; reflexivity. Qed.

(** ** From a branch to the directory of its newest commit *)

Lemma lookup_commit_list (cm : gmap string (Vfs.hash * Z)) (name : string) :
  Refs.CommitList_mksubs cm !! name
  = match cm !! name with
    | Some v => Some (Refs.mkCommitRoot name (fst v) (snd v) (snd v))
    | None => None
    end.
Proof.
  unfold Refs.CommitList_mksubs. rewrite map_lookup_imap.
  destruct (cm !! name); reflexivity.
Qed.

Lemma substring_parts : forall (n m : nat) (s : string),
  Forall (fun c => c <> "/"%char) (list_ascii_of_string s) ->
  Forall (fun c => c <> "/"%char) (list_ascii_of_string (String.substring n m s)).
Proof.
  induction n as [|n IHn].
  - induction m as [|m IHm]; intros s Hs.
    + destruct s; constructor.
    + destruct s as [|c s]; [constructor|].
      simpl in Hs. apply Forall_cons in Hs as [Hc Hs].
      change (list_ascii_of_string (String.substring 0 (S m) (String c s)))
        with (c :: list_ascii_of_string (String.substring 0 m s)).
      constructor; [exact Hc | apply IHm; exact Hs].
  - intros m s Hs. destruct s as [|c s]; [destruct m; constructor|].
    simpl in Hs. apply Forall_cons in Hs as [_ Hs].
    change (String.substring (S n) m (String c s)) with (String.substring n m s).
    apply IHn. exact Hs.
Qed.

(** The two parts of a hash of more than two digits, none of them a slash. *)
Lemma container_dir_parts (commithex : string) :
  (2 < String.length commithex)%nat ->
  Forall (fun c => c <> "/"%char) (list_ascii_of_string commithex) ->
  Paths.part (Refs.containername commithex) /\ Paths.part (Refs.dirname commithex).
Proof.
  intros Hlen Hs. split; (split; [|apply substring_parts; exact Hs]).
  - destruct commithex as [|a [|b rest]]; simpl in Hlen; try lia.
    unfold Refs.containername. intros H. cbn in H. discriminate H.
  - unfold Refs.dirname. destruct commithex as [|a [|b [|c rest]]]; simpl in Hlen; try lia.
    intros H. cbn in H. discriminate H.
Qed.

Lemma part_dot_commit : Paths.part ".commit".
Proof. split; [discriminate|]. repeat constructor; discriminate. Qed.

(** The target of a link to a commit, split as [lresolve] splits it. *)
Lemma commit_target_path_parts (commithex : string) :
  (2 < String.length commithex)%nat ->
  Forall (fun c => c <> "/"%char) (list_ascii_of_string commithex) ->
  Resolve.path_parts (Branch.commit_target commithex)
  = [".."; ".commit"; Refs.containername commithex; Refs.dirname commithex]%string.
Proof.
  intros Hlen Hs. destruct (container_dir_parts commithex Hlen Hs) as [Hc Hd].
  assert (Hparts : Forall Paths.part
                     [".."; ".commit"; Refs.containername commithex;
                      Refs.dirname commithex]%string).
  { constructor; [apply part_dotdot|]. constructor; [apply part_dot_commit|].
    constructor; [exact Hc|]. constructor; [exact Hd | constructor]. }
  change (Branch.commit_target commithex)
    with (String.concat (Paths.slashes 0)
            [".."; ".commit"; Refs.containername commithex; Refs.dirname commithex]%string).
  apply path_parts_joined; [discriminate | exact Hparts].
Qed.

Section BranchToCommit.

Variable strftime_local : Z -> string.
Variable unhex : string -> Vfs.hash.

(** [git.rev_list] of a ref's hash, as [CommitDir._mksubs] and
    [BranchList._mksubs] both call it. *)
Variable rev_list : Vfs.hash -> list Branch.rev_item.

(** X21. For a branch among the refs whose history is not empty and whose newest
    commit has a hash of more than two digits without a slash: the children
    of its [BranchList] include [latest]; the target of that link is walked
    as [..], [.commit], the first two digits of the hash, and the rest of
    them; and [CommitDir] holds under the first two digits a [CommitList]
    whose child of the remaining digits is the directory of that very
    commit. *)
Theorem latest_leads_to_a_commit_directory
        (refs : list (string * Vfs.hash)) (name : string) (sha : Vfs.hash)
        (tip : Branch.rev_item) (rest : list Branch.rev_item) :
  In (name, sha) refs ->
  rev_list sha = tip :: rest ->
  (2 < String.length (fst tip))%nat ->
  Forall (fun c => c <> "/"%char) (list_ascii_of_string (fst tip)) ->
  exists links link cl date,
    Branch._mksubs strftime_local (rev_list sha) = Ok links
    /\ links !! "latest"%string = Some link
    /\ Resolve.path_parts (Branch.fl_toname link)
       = [".."; ".commit"; Refs.containername (fst tip); Refs.dirname (fst tip)]%string
    /\ Refs.CommitDir_mksubs unhex (map (fun ref => rev_list (snd ref)) refs)
       !! Refs.containername (fst tip) = Some cl
    /\ Refs.CommitList_mksubs cl !! Refs.dirname (fst tip)
       = Some (Refs.mkCommitRoot (Refs.dirname (fst tip)) (unhex (fst tip)) date date).
Proof.
  intros Hin Hrev Hlen Hs.
  assert (Hin' : In (tip :: rest) (map (fun ref => rev_list (snd ref)) refs)).
  { rewrite <- Hrev. apply (in_map (fun ref => rev_list (snd ref)) refs (name, sha)). exact Hin. }
  pose proof (fold_add_revs_tip unhex _ ∅ tip rest Hin') as [[commit date] Hv].
  pose proof Hv as Hv'.
  destruct (fold_add_revs_sound unhex _ ∅ _ _ _ Hv)
    as [H0|(revs & c & date' & _ & _ & Hk & Hd & Heq)].
  { rewrite commit_at_empty in H0. discriminate. }
  injection Heq as -> ->. rewrite <- (container_dir_inj (fst tip) c Hk Hd) in Hv'.
  unfold Refs.commit_at in Hv'. fold (Refs.CommitDir_mksubs unhex
    (map (fun ref => rev_list (snd ref)) refs)) in Hv'.
  destruct (Refs.CommitDir_mksubs unhex (map (fun ref => rev_list (snd ref)) refs)
            !! Refs.containername (fst tip)) as [cl|] eqn:Hcl; [|discriminate].
  rewrite Hrev. eexists _, (Branch.link_to "latest" tip), cl, date'.
  split; [reflexivity|]. split; [apply lookup_insert_eq|].
  split; [apply commit_target_path_parts; assumption|].
  split; [reflexivity|].
  rewrite lookup_commit_list, Hv'. reflexivity.
Qed.

End BranchToCommit.

Lemma demo_tip_has_no_slash :
  Forall (fun c => c <> "/"%char)
         (list_ascii_of_string "cccccccccccccccccccccccccccccccccccccccc").
Proof. repeat constructor; discriminate. Qed.

Lemma latest_leads_to_a_commit_directory_witness :
  exists links link cl date,
    Branch._mksubs Branch.strftime_utc (demo_rev_list "C") = Ok links
    /\ links !! "latest"%string = Some link
    /\ Resolve.path_parts (Branch.fl_toname link)
       = [".."; ".commit"; "cc"; "cccccccccccccccccccccccccccccccccccccc"]%string
    /\ Refs.CommitDir_mksubs (fun s => s) (map (fun ref => demo_rev_list (snd ref)) demo_refs)
       !! "cc"%string = Some cl
    /\ Refs.CommitList_mksubs cl !! "cccccccccccccccccccccccccccccccccccccc"%string
       = Some (Refs.mkCommitRoot "cccccccccccccccccccccccccccccccccccccc"
                 "cccccccccccccccccccccccccccccccccccccccc" date date).
Proof.
  apply (latest_leads_to_a_commit_directory Branch.strftime_utc (fun s => s) demo_rev_list
           demo_refs "refs/heads/topic" "C"
           ("cccccccccccccccccccccccccccccccccccccccc"%string, 1700007200)
           [("aaaaaaaaaaaaaaaaaaaaaaaaaaaaaaaaaaaaaaaa"%string, 1700000000);
            ("dddddddddddddddddddddddddddddddddddddddd"%string, 1600000000)]).
  - right. left. reflexivity.
  - reflexivity.
  - simpl. lia.
  - exact demo_tip_has_no_slash.
Defined.

(** ** Tags and branches by their short names *)

Lemma prefix_cons (a b : ascii) (p s : string) :
  String.prefix (String a p) (String b s)
  = if ascii_dec a b then String.prefix p s else false.
Proof. reflexivity. Qed.

(** [s.startswith(p)] and [s[len(p):]]. *)
Lemma prefix_split (p : string) : forall s,
  String.prefix p s = true ->
  s = (p ++ String.substring (String.length p) (String.length s - String.length p) s)%string.
Proof.
  induction p as [|a p IH]; intros s H.
  - simpl String.length. rewrite Nat.sub_0_r, substring_all. reflexivity.
  - destruct s as [|b s]; [discriminate H|].
    rewrite prefix_cons in H. destruct (ascii_dec a b) as [<-|]; [|discriminate H].
    change (String a s = String a (p ++ String.substring (String.length p)
                                          (String.length s - String.length p) s)%string).
    f_equal. apply IH. exact H.
Qed.

Lemma prefix_app (p t : string) : String.prefix p (p ++ t) = true.
Proof.
  induction p as [|a p IH]; [destruct t; reflexivity|].
  change (String.prefix (String a p) (String a (p ++ t)) = true).
  rewrite prefix_cons. destruct (ascii_dec a a); [exact IH | congruence].
Qed.

Lemma short_name (p t : string) :
  String.substring (String.length p) (String.length (p ++ t) - String.length p) (p ++ t) = t.
Proof.
  rewrite string_length_app.
  replace (String.length p + String.length t - String.length p)%nat
    with (String.length t) by lia.
  induction p as [|a p IH]; [apply substring_all | exact IH].
Qed.

Lemma find_ext {A} (f g : A -> bool) (l : list A) :
  (forall x, f x = g x) -> find f l = find g l.
Proof.
  intros H. induction l as [|x l IH]; [reflexivity|]. cbn [find]. rewrite H, IH. reflexivity.
Qed.

Lemma fold_left_same {A B} (f g : A -> B -> A) (l : list B) : forall a,
  (forall a x, f a x = g a x) -> fold_left f l a = fold_left g l a.
Proof.
  induction l as [|x l IH]; intros a H; [reflexivity|]. simpl. rewrite H. apply IH. exact H.
Qed.

Section TagFacts.

Variable hex : Vfs.hash -> string.
Variable get_commit_date : string -> Z.

(** The name a ref is listed under in [.tag]. *)
Lemma tags_fold (refs : list (string * Vfs.hash)) : forall subs,
  fold_left (Refs.add_tag hex get_commit_date) refs subs
  = fold_left
      (fun m (ref : string * Vfs.hash) =>
         match (if String.prefix "refs/tags/" (fst ref)
                then Some (String.substring 10 (String.length (fst ref) - 10) (fst ref))
                else None) with
         | Some k' =>
             <[k' := Refs.tag_link hex get_commit_date
                       (String.substring 10 (String.length (fst ref) - 10) (fst ref))
                       (snd ref)]> m
         | None => m
         end) refs subs.
Proof.
  induction refs as [|[name sha] rest IH]; intros subs; [reflexivity|].
  simpl fold_left. rewrite IH. f_equal.
  unfold Refs.add_tag. simpl fst. simpl snd.
  destruct (String.prefix "refs/tags/" name); reflexivity.
Qed.

Lemma tag_key (name : string) (t : string) :
  (if String.prefix "refs/tags/" name
   then Some (String.substring 10 (String.length name - 10) name)
   else None) = Some t
  <-> name = ("refs/tags/" ++ t)%string.
Proof.
  split.
  - destruct (String.prefix "refs/tags/" name) eqn:Hp; [|discriminate].
    intros [= <-]. apply (prefix_split "refs/tags/" name Hp).
  - intros ->. rewrite prefix_app.
    change 10%nat with (String.length "refs/tags/").
    rewrite short_name. reflexivity.
Qed.

(** X22. After [TagDir._mksubs]: every child is the link made for a ref named
    [refs/tags/<name>], is listed under [<name>] and points at
    [../.commit/..] of the hash of that ref, with the date of that commit as
    its times; every such ref has a child under its short name; refs that
    are not under [refs/tags/] leave nothing; and when no two refs share a
    name, the child of each tag is the link to its own hash. *)
Theorem tag_dir_lists_the_tags (refs : list (string * Vfs.hash)) :
  let subs := Refs.TagDir_mksubs hex get_commit_date refs in
  (forall t link,
     subs !! t = Some link ->
     exists sha, In (("refs/tags/" ++ t)%string, sha) refs
                 /\ link = Branch.mkFakeSymlink t (Branch.commit_target (hex sha))
                             (get_commit_date (hex sha)) (get_commit_date (hex sha)))
  /\ (forall t sha, In (("refs/tags/" ++ t)%string, sha) refs -> is_Some (subs !! t))
  /\ (NoDup (map fst refs) ->
      forall t sha,
        In (("refs/tags/" ++ t)%string, sha) refs ->
        subs !! t = Some (Branch.mkFakeSymlink t (Branch.commit_target (hex sha))
                            (get_commit_date (hex sha)) (get_commit_date (hex sha)))).
Proof.
  intros subs.
  assert (Hlook : forall t,
            subs !! t
            = match find (fun ref : string * Vfs.hash =>
                            bool_decide (fst ref = ("refs/tags/" ++ t)%string)) (rev refs) with
              | Some ref => Some (Refs.tag_link hex get_commit_date t (snd ref))
              | None => None
              end).
  { intros t. subst subs. unfold Refs.TagDir_mksubs.
    rewrite tags_fold, fold_insert_last, lookup_empty.
    rewrite (find_ext _ (fun ref : string * Vfs.hash =>
                           bool_decide (fst ref = ("refs/tags/" ++ t)%string))).
    - destruct (find _ (rev refs)) as [[name sha]|] eqn:Hf; [|reflexivity].
      apply find_some in Hf as [_ Hf]. apply bool_decide_eq_true_1 in Hf. simpl in Hf.
      subst name. simpl fst. simpl snd.
      change 10%nat with (String.length "refs/tags/"). rewrite short_name. reflexivity.
    - intros ref. apply bool_decide_ext. apply tag_key. }
  assert (Hsound : forall t link,
            subs !! t = Some link ->
            exists sha, In (("refs/tags/" ++ t)%string, sha) refs
                        /\ link = Refs.tag_link hex get_commit_date t sha).
  { intros t link H. rewrite Hlook in H.
    destruct (find _ (rev refs)) as [[name sha]|] eqn:Hf; [|discriminate].
    injection H as <-. apply find_some in Hf as [Hin Hf].
    apply bool_decide_eq_true_1 in Hf. simpl in Hf. subst name.
    exists sha. split; [apply in_rev; exact Hin | reflexivity]. }
  assert (Hthere : forall t sha, In (("refs/tags/" ++ t)%string, sha) refs ->
                                 is_Some (subs !! t)).
  { intros t sha Hin. rewrite Hlook.
    destruct (find _ (rev refs)) as [ref|] eqn:Hf; [eauto|].
    exfalso. pose proof (find_none _ _ Hf _ (proj1 (in_rev refs _) Hin)) as Hn.
    simpl in Hn. rewrite bool_decide_eq_true_2 in Hn by reflexivity. discriminate. }
  split; [exact Hsound|]. split; [exact Hthere|].
  intros Hnd t sha Hin. destruct (Hthere t sha Hin) as [link Hl].
  destruct (Hsound t link Hl) as (sha' & Hin' & ->). rewrite Hl. f_equal.
  assert (Hinj : forall (l : list (string * Vfs.hash)) n s s',
            NoDup (map fst l) -> In (n, s) l -> In (n, s') l -> s = s').
  { clear. induction l as [|[n0 s0] l IH]; intros n s s' Hnd H1 H2; [destruct H1|].
    simpl in Hnd. apply NoDup_cons in Hnd as [Hx Hnd].
    assert (Hmem : forall s1, In (n0, s1) l -> False).
    { intros s1 H. apply Hx. apply list_elem_of_In. apply (in_map fst) in H. exact H. }
    destruct H1 as [E1|H1], H2 as [E2|H2].
    - congruence.
    - injection E1 as -> ->. exfalso. exact (Hmem s' H2).
    - injection E2 as -> ->. exfalso. exact (Hmem s H1).
    - eapply IH; eauto. }
  rewrite (Hinj refs _ sha sha' Hnd Hin Hin'). reflexivity.
Qed.

End TagFacts.

Lemma demo_ref_names_differ : NoDup (map fst demo_refs).
Proof.
  vm_compute. repeat constructor; rewrite ?list_elem_of_In; simpl; intuition discriminate.
Qed.

Lemma tag_dir_lists_the_tags_witness :
  Refs.TagDir_mksubs demo_hex (fun _ => 1700000000) demo_refs !! "v1"%string
  = Some (Branch.mkFakeSymlink "v1" "../.commit/aa/aaaaaaaaaaaaaaaaaaaaaaaaaaaaaaaaaaaaaa"
            1700000000 1700000000).
Proof.
  apply (proj2 (proj2 (tag_dir_lists_the_tags demo_hex (fun _ => 1700000000) demo_refs))
           demo_ref_names_differ "v1"%string "A"%string).
  right. right. left. reflexivity.
Defined.

Section RootFacts.

Lemma in_combine_map {A B C} (f : A -> B) (l : list A) : forall (l2 : list C) b c,
  In (b, c) (combine (map f l) l2) -> exists a, b = f a /\ In (a, c) (combine l l2).
Proof.
  induction l as [|x l IH]; intros l2 b c H; [destruct H|].
  destruct l2 as [|y l2]; [destruct H|].
  destruct H as [[= <- <-]|H].
  - exists x. split; [reflexivity | left; reflexivity].
  - destruct (IH l2 b c H) as (a & -> & Hin). exists a. split; [reflexivity | right; exact Hin].
Qed.

Lemma combine_map_in {A B C} (f : A -> B) (l : list A) : forall (l2 : list C) a c,
  In (a, c) (combine l l2) -> In (f a, c) (combine (map f l) l2).
Proof.
  induction l as [|x l IH]; intros l2 a c H; [destruct H|].
  destruct l2 as [|y l2]; [destruct H|].
  destruct H as [[= <- <-]|H]; [left; reflexivity | right; apply IH; exact H].
Qed.

Lemma combine_key_inj {A B C} (f : A -> B) (l : list A) : forall (l2 : list C) a c a' c',
  NoDup (map f l) ->
  In (a, c) (combine l l2) -> In (a', c') (combine l l2) -> f a = f a' ->
  a = a' /\ c = c'.
Proof.
  induction l as [|x l IH]; intros l2 a c a' c' Hnd H1 H2 Heq; [destruct H1|].
  destruct l2 as [|y l2]; [destruct H1|].
  simpl in Hnd. apply NoDup_cons in Hnd as [Hx Hnd].
  assert (Hmem : forall a1 c1, In (a1, c1) (combine l l2) -> f a1 <> f x).
  { intros a1 c1 H He. apply Hx. rewrite <- He. apply list_elem_of_In.
    apply in_map. apply in_combine_l in H. exact H. }
  destruct H1 as [[= <- <-]|H1], H2 as [[= <- <-]|H2].
  - split; reflexivity.
  - exfalso. exact (Hmem a' c' H2 (eq_sym Heq)).
  - exfalso. exact (Hmem a c H1 Heq).
  - eapply IH; eauto.
Qed.

(** X23. After [RefList._mksubs]: a child is the [CommitDir] under [.commit], the
    [TagDir] under [.tag], or the [BranchList] made for a head and its date,
    listed under the head's name without its first eleven characters (the
    [refs/heads/] of a head); [.commit] and [.tag] are there unless a head
    goes by that short name; and when the short names are pairwise different
    every head that has a date is listed with its own hash and date. *)
Theorem root_lists_commit_tag_and_branches
        (heads : list (string * Vfs.hash)) (dates : list Z) :
  let short (ref : string * Vfs.hash) :=
    String.substring 11 (String.length (fst ref) - 11) (fst ref) in
  let subs := Refs.RefList_mksubs heads dates in
  (forall name child,
     subs !! name = Some child ->
     (name = ".commit"%string /\ child = Refs.NewCommitDir ".commit")
     \/ (name = ".tag"%string /\ child = Refs.NewTagDir ".tag")
     \/ exists ref date,
          In (ref, date) (combine heads dates)
          /\ name = short ref /\ child = Refs.NewBranchList name (snd ref) date)
  /\ ((forall ref, In ref heads -> short ref <> ".commit"%string) ->
      subs !! ".commit"%string = Some (Refs.NewCommitDir ".commit"))
  /\ ((forall ref, In ref heads -> short ref <> ".tag"%string) ->
      subs !! ".tag"%string = Some (Refs.NewTagDir ".tag"))
  /\ (NoDup (map short heads) ->
      forall ref date,
        In (ref, date) (combine heads dates) ->
        subs !! short ref = Some (Refs.NewBranchList (short ref) (snd ref) date))
  /\ (forall b sha, short (("refs/heads/" ++ b)%string, sha) = b).
Proof.
  intros short subs.
  set (info := fun ref : string * Vfs.hash => (short ref, snd ref)).
  assert (Hlook : forall name,
            subs !! name
            = match find (fun item : string * Vfs.hash * Z =>
                            bool_decide (Some (fst (fst item)) = Some name))
                         (rev (combine (map info heads) dates)) with
              | Some item =>
                  Some (Refs.NewBranchList (fst (fst item)) (snd (fst item)) (snd item))
              | None =>
                  (<[".tag"%string := Refs.NewTagDir ".tag"]>
                     (<[".commit"%string := Refs.NewCommitDir ".commit"]>
                        (∅ : gmap string Refs.root_child))) !! name
              end).
  { intros name. subst subs. unfold Refs.RefList_mksubs.
    rewrite <- (fold_insert_last (fun item : string * Vfs.hash * Z => Some (fst (fst item)))
                  (fun item => Refs.NewBranchList (fst (fst item)) (snd (fst item)) (snd item))).
    f_equal. apply fold_left_same. intros m [[n s] d]. reflexivity. }
  assert (Hitem : forall name item,
            find (fun item : string * Vfs.hash * Z =>
                    bool_decide (Some (fst (fst item)) = Some name))
                 (rev (combine (map info heads) dates)) = Some item ->
            exists ref, In (ref, snd item) (combine heads dates)
                        /\ name = short ref /\ fst item = (short ref, snd ref)).
  { intros name [[n s] d] Hf. apply find_some in Hf as [Hin Hk].
    apply bool_decide_eq_true_1 in Hk. simpl in Hk. injection Hk as ->.
    apply in_rev in Hin. apply in_combine_map in Hin as (ref & Hi & Hin).
    unfold info in Hi. injection Hi as -> ->.
    exists ref. simpl. auto. }
  assert (Hnone : forall name,
            (forall ref, In ref heads -> short ref <> name) ->
            find (fun item : string * Vfs.hash * Z =>
                    bool_decide (Some (fst (fst item)) = Some name))
                 (rev (combine (map info heads) dates)) = None).
  { intros name Hall.
    destruct (find _ (rev (combine (map info heads) dates))) as [item|] eqn:Hf; [|reflexivity].
    destruct (Hitem name item Hf) as (ref & Hin & Hn & _).
    exfalso. apply (Hall ref); [|symmetry; exact Hn].
    apply in_combine_l in Hin. exact Hin. }
  split; [|split; [|split; [|split]]].
  - intros name child H. rewrite Hlook in H.
    destruct (find _ (rev (combine (map info heads) dates))) as [item|] eqn:Hf.
    + destruct (Hitem name item Hf) as (ref & Hin & Hn & Hfst).
      injection H as <-. right. right. exists ref, (snd item).
      split; [exact Hin|]. split; [exact Hn|]. rewrite Hfst. simpl. rewrite <- Hn. reflexivity.
    + apply lookup_insert_Some in H as [[<- <-]|[_ H]]; [right; left; auto|].
      apply lookup_insert_Some in H as [[<- <-]|[_ H]]; [left; auto|].
      rewrite lookup_empty in H. discriminate.
  - intros Hall. rewrite Hlook, (Hnone _ Hall).
    rewrite lookup_insert_ne by discriminate. apply lookup_insert_eq.
  - intros Hall. rewrite Hlook, (Hnone _ Hall). apply lookup_insert_eq.
  - intros Hnd ref date Hin. rewrite Hlook.
    destruct (find _ (rev (combine (map info heads) dates))) as [item|] eqn:Hf.
    + destruct (Hitem _ item Hf) as (ref' & Hin' & Hn & Hfst).
      destruct (combine_key_inj short heads dates ref date ref' (snd item) Hnd Hin Hin' Hn)
        as [<- <-].
      rewrite Hfst. reflexivity.
    + exfalso.
      pose proof (find_none _ _ Hf (info ref, date)
                    (proj1 (in_rev _ _) (combine_map_in info heads dates ref date Hin))) as Hn.
      simpl in Hn. rewrite bool_decide_eq_true_2 in Hn by reflexivity. discriminate.
  - intros b sha. unfold short. simpl fst.
    change 11%nat with (String.length "refs/heads/"). apply short_name.
Qed.

End RootFacts.

Lemma demo_heads_differ :
  NoDup (map (fun ref : string * Vfs.hash =>
                String.substring 11 (String.length (fst ref) - 11) (fst ref))
             [("refs/heads/main", "B"); ("refs/heads/topic", "C")]%string).
Proof.
  vm_compute. repeat constructor; rewrite ?list_elem_of_In; simpl; intuition discriminate.
Qed.

Lemma root_lists_commit_tag_and_branches_witness :
  Refs.RefList_mksubs [("refs/heads/main", "B"); ("refs/heads/topic", "C")]%string
                      [1700003600; 1700007200] !! "topic"%string
  = Some (Refs.NewBranchList "topic" "C" 1700007200).
Proof.
  apply (proj1 (proj2 (proj2 (proj2
           (root_lists_commit_tag_and_branches
              [("refs/heads/main", "B"); ("refs/heads/topic", "C")]%string
              [1700003600; 1700007200]))))
           demo_heads_differ ("refs/heads/topic"%string, "C"%string) 1700007200).
  right. left. reflexivity.
Defined.

(** A repository without refs: the root lists [.commit] and [.tag] and
    nothing else. *)
Example empty_root :
  Refs.RefList_mksubs [] []
  = <[".tag"%string := Refs.NewTagDir ".tag"]>
      (<[".commit"%string := Refs.NewCommitDir ".commit"]> ∅)
  /\ size (Refs.RefList_mksubs [] []) = 2%nat.
Proof. split; [reflexivity | vm_compute; reflexivity]. Qed.
